(** * koishi-core: message preprocessing, middleware dispatch and the help plugin

    A shallow embedding of [app.ts] (the [App] class: addressing matchers,
    [getSelfIds], [_preprocess], [_applyMiddlewares]) and of the two hooks
    installed by [plugins/help.ts], together with the properties of the
    specification that are stated about them. *)

From Stdlib Require Import Strings.String Strings.Ascii DecimalString.
From stdpp Require Import base numbers list strings gmap sorting.

Set Default Proof Using "Type".

(** ** JavaScript strings

    A JavaScript string is a sequence of UTF-16 code units. *)
Module Js.
Local Open Scope N_scope.

Definition char := N.
Definition jsstring := list char.

(** ASCII literals of the source, as code units. *)
Definition str (s : string) : jsstring :=
  map N_of_ascii (list_ascii_of_string s).

(** [WhiteSpace] and [LineTerminator] of ECMAScript: the class [\s] of
    regular expressions, and what [String.prototype.trim] removes. *)
Definition isSpace (c : char) : bool :=
  bool_decide (c ∈ [0x09; 0x0A; 0x0B; 0x0C; 0x0D; 0x20; 0xA0; 0x1680;
                    0x2028; 0x2029; 0x202F; 0x205F; 0x3000; 0xFEFF])
  || ((0x2000 <=? c) && (c <=? 0x200A)).

(** The line terminators, which [.] does not match. *)
Definition isLineTerminator (c : char) : bool :=
  bool_decide (c ∈ [0x0A; 0x0D; 0x2028; 0x2029]).

Fixpoint trimStart (s : jsstring) : jsstring :=
  match s with
  | c :: s' => if isSpace c then trimStart s' else s
  | [] => []
  end.

Definition trimEnd (s : jsstring) : jsstring := reverse (trimStart (reverse s)).

Definition trim (s : jsstring) : jsstring := trimEnd (trimStart s).

(** [s.startsWith(p)] *)
Fixpoint startsWith (p s : jsstring) : bool :=
  match p, s with
  | [], _ => true
  | a :: p', b :: s' => (a =? b) && startsWith p' s'
  | _ :: _, [] => false
  end.

(** [s.indexOf(p)], with [None] for the result -1. *)
Fixpoint indexOf_from (p s : jsstring) (i : nat) : option nat :=
  if startsWith p s then Some i else
  match s with
  | [] => None
  | _ :: s' => indexOf_from p s' (S i)
  end.

Definition indexOf (p s : jsstring) : option nat := indexOf_from p s 0.

(** [s.slice(0, e)] where [e] is the result of [indexOf]: a negative end
    counts from the end of the string, so -1 drops the last code unit. *)
Definition slice_to (s : jsstring) (e : option nat) : jsstring :=
  match e with
  | Some n => take n s
  | None => take (length s - 1) s
  end.

(** [s.slice(n)] for a non-negative [n]. *)
Definition slice_from (n : nat) (s : jsstring) : jsstring := drop n s.

End Js.

Import Js.

(** ** Regular expressions

    The patterns that [createLeadingRE] builds, the pattern of
    [_applyMiddlewares] and the literal [/^$/], with the backtracking
    semantics of ECMAScript: alternatives are tried in order and quantifiers
    are greedy. *)
Module Regex.

Inductive RegExp : Type :=
| Empty                      (* the empty pattern, also [new RegExp(undefined)] *)
| Lit (s : jsstring)         (* text escaped by [escapeRegex] *)
| Class (p : char → bool)    (* one code unit of a class *)
| Seq (r1 r2 : RegExp)
| Alt (r1 r2 : RegExp)       (* [r1|r2] *)
| Opt (r : RegExp)           (* [r?] *)
| Star (p : char → bool)     (* [c*] for a class [c] *)
| Plus (p : char → bool)     (* [c+] for a class [c] *)
| Capture (r : RegExp)       (* a capturing group [(r)] *)
| Bol                        (* [^] *)
| Eol.                       (* [$] *)

(** The state of a match attempt: the position in the subject, what is left
    of it, and the groups captured so far (groups are not nested in the
    patterns of this program, so they close in the order they open). *)
Definition Cont : Type :=
  nat → jsstring → list jsstring → option (nat * list jsstring).

Fixpoint star (p : char → bool) (pos : nat) (s : jsstring)
    (caps : list jsstring) (k : Cont) : option (nat * list jsstring) :=
  match s with
  | c :: s' =>
      if p c then
        match star p (S pos) s' caps k with
        | Some x => Some x
        | None => k pos s caps
        end
      else k pos s caps
  | [] => k pos s caps
  end.

Fixpoint matchK (r : RegExp) (pos : nat) (s : jsstring)
    (caps : list jsstring) (k : Cont) : option (nat * list jsstring) :=
  match r with
  | Empty => k pos s caps
  | Lit l =>
      if startsWith l s then k (pos + length l)%nat (drop (length l) s) caps
      else None
  | Class p =>
      match s with
      | c :: s' => if p c then k (S pos) s' caps else None
      | [] => None
      end
  | Seq r1 r2 =>
      matchK r1 pos s caps (λ pos' s' caps', matchK r2 pos' s' caps' k)
  | Alt r1 r2 =>
      match matchK r1 pos s caps k with
      | Some x => Some x
      | None => matchK r2 pos s caps k
      end
  | Opt r1 =>
      match matchK r1 pos s caps k with
      | Some x => Some x
      | None => k pos s caps
      end
  | Star p => star p pos s caps k
  | Plus p =>
      match s with
      | c :: s' => if p c then star p (S pos) s' caps k else None
      | [] => None
      end
  | Capture r1 =>
      matchK r1 pos s caps
        (λ pos' s' caps', k pos' s' (caps' ++ [take (pos' - pos) s]))
  | Bol => if (pos =? 0)%nat then k pos s caps else None
  | Eol => match s with [] => k pos s caps | _ :: _ => None end
  end.

(** The search of [RegExp.prototype.exec] without the [g] flag: the first
    start position, from the left, at which the pattern matches. *)
Fixpoint search (r : RegExp) (pos : nat) (s : jsstring)
    : option (nat * nat * list jsstring) :=
  match matchK r pos s [] (λ e _ caps, Some (e, caps)) with
  | Some (e, caps) => Some (pos, e, caps)
  | None =>
      match s with
      | [] => None
      | _ :: s' => search r (S pos) s'
      end
  end.

(** [s.match(re)]: the match array, element 0 the matched text, then the
    captured groups; [None] for [null]. *)
Definition match_ (s : jsstring) (re : RegExp) : option (list jsstring) :=
  match search re 0 s with
  | Some (b, e, caps) => Some (take (e - b) (drop b s) :: caps)
  | None => None
  end.

(** [escapeRegex] of escape-string-regexp: a pattern that matches the text
    literally. *)
Definition escapeRegex (s : jsstring) : RegExp := Lit s.

(** [patterns.join('|')] *)
Fixpoint alternatives (ps : list RegExp) : RegExp :=
  match ps with
  | [] => Empty
  | [p] => p
  | p :: ps' => Alt p (alternatives ps')
  end.

(** [createLeadingRE]; [prefix] and [suffix] are the parsed pattern
    fragments. *)
Definition createLeadingRE (patterns : list jsstring)
    (prefix suffix : RegExp) : RegExp :=
  match patterns with
  | _ :: _ =>
      Seq Bol (Seq prefix
        (Seq (Capture (alternatives (map escapeRegex patterns))) suffix))
  | [] => Seq Bol Eol
  end.

(** What a pattern can match: [Matches r pos m rest] when [r], tried at
    position [pos] with [m ++ rest] ahead, can consume [m]. *)
Inductive Matches : RegExp → nat → jsstring → jsstring → Prop :=
| M_Empty pos rest : Matches Empty pos [] rest
| M_Lit l pos rest : Matches (Lit l) pos l rest
| M_Class (p : char → bool) c pos rest :
    p c = true → Matches (Class p) pos [c] rest
| M_Seq r1 r2 pos m1 m2 rest :
    Matches r1 pos m1 (m2 ++ rest) →
    Matches r2 (pos + length m1) m2 rest →
    Matches (Seq r1 r2) pos (m1 ++ m2) rest
| M_AltL r1 r2 pos m rest : Matches r1 pos m rest → Matches (Alt r1 r2) pos m rest
| M_AltR r1 r2 pos m rest : Matches r2 pos m rest → Matches (Alt r1 r2) pos m rest
| M_OptSome r pos m rest : Matches r pos m rest → Matches (Opt r) pos m rest
| M_OptNone r pos rest : Matches (Opt r) pos [] rest
| M_Star (p : char → bool) pos m rest :
    Forall (λ c, p c = true) m → Matches (Star p) pos m rest
| M_Plus (p : char → bool) pos c m rest :
    Forall (λ c, p c = true) (c :: m) → Matches (Plus p) pos (c :: m) rest
| M_Capture r pos m rest : Matches r pos m rest → Matches (Capture r) pos m rest
| M_Bol rest : Matches Bol 0 [] rest
| M_Eol pos : Matches Eol pos [] [].

End Regex.

Import Regex.

(** ** Values, sessions and the observable world *)

(** The JavaScript values that middlewares return and throw. *)
Inductive Value : Type :=
| Undefined
| Null
| Bool (b : bool)
| Num (n : Z)
| Str (s : jsstring)
| NativeError (message stack : jsstring).   (* an instance of [Error] *)

(** [types.isNativeError] *)
Definition isNativeError (v : Value) : bool :=
  match v with NativeError _ _ => true | _ => false end.

Definition decimal (n : N) : jsstring :=
  str (NilEmpty.string_of_uint (N.to_uint n)).

(** [Number::toString] on a number that holds the natural number [n]. A
    number is a double: below 2^53 every natural number is one and is
    written with its decimal digits. From 2^53 on the digits are those of
    the natural number with the fewest significant digits that still rounds
    to [n], and from 21 digits on the exponent form is used ([1e+21]). *)
Module Number.

(** Whether the natural number [v] rounds to the double [n], which is at
    least 2^53: [u] is the distance to the next double and [m] the
    significand; a midpoint rounds to the even significand. *)
Definition rounds_to (n v : N) : bool :=
  let e := N.log2 n in
  let u := (2 ^ (e - 52))%N in
  let m := (n / u)%N in
  let below := if (m =? 2 ^ 52)%N then (u / 2)%N else u in
  if (n <=? v)%N
  then let d := (2 * (v - n))%N in (d <? u)%N || ((d =? u)%N && N.even m)
  else let d := (2 * (n - v))%N in
       (d <? below)%N || ((d =? below)%N && N.even m).

(** The multiples of [p] next to [n], for [p] = 10, 100, ...: the last one
    found that rounds to [n], the nearer one of two. *)
Fixpoint shortest_from (fuel : nat) (p n best : N) : N :=
  match fuel with
  | O => best
  | S fuel' =>
      let v1 := (n / p * p)%N in
      let v2 := (v1 + p)%N in
      let best :=
        match rounds_to n v1, rounds_to n v2 with
        | true, true =>
            if (n - v1 <? v2 - n)%N then v1
            else if (v2 - n <? n - v1)%N then v2
            else if N.even (v1 / p) then v1 else v2
        | true, false => v1
        | false, true => v2
        | false, false => best
        end in
      shortest_from fuel' (10 * p)%N n best
  end.

Definition shortest (n : N) : N :=
  shortest_from (S (N.to_nat (N.log2 n))) 10 n n.

Fixpoint strip_zeros_left (s : jsstring) : jsstring :=
  match s with
  | c :: s' => if (c =? 48)%N then strip_zeros_left s' else s
  | [] => []
  end.

(** The exponent form of the digits [ds]: [d.ddde+x]. *)
Definition exponent_form (ds : jsstring) : jsstring :=
  let significant := reverse (strip_zeros_left (reverse ds)) in
  take 1 significant
    ++ (if (1 <? length significant)%nat
        then str "." ++ drop 1 significant else [])
    ++ str "e+" ++ decimal (N.of_nat (length ds - 1)).

Definition toString (n : N) : jsstring :=
  if (n <? 2 ^ 53)%N then decimal n
  else
    let ds := decimal (shortest n) in
    if (length ds <=? 21)%nat then ds else exponent_form ds.

End Number.

(** [String(v)] *)
Definition ToString (v : Value) : jsstring :=
  match v with
  | Undefined => str "undefined"
  | Null => str "null"
  | Bool true => str "true"
  | Bool false => str "false"
  | Num (Zneg p) => str "-" ++ Number.toString (Npos p)
  | Num n => Number.toString (Z.to_N n)
  | Str s => s
  | NativeError m _ => if m is [] then str "Error" else str "Error: " ++ m
  end.

(** Truthiness, for [!v] and [if (v)]. *)
Definition truthy (v : Value) : bool :=
  match v with
  | Undefined | Null | Bool false | Num 0 | Str [] => false
  | _ => true
  end.

(** The outcome of a promise. *)
Inductive Settled : Type :=
| Fulfilled (v : Value)
| Rejected (e : Value).

(** What a function call evaluates to: a value, a promise (given by its
    outcome) or an exception. *)
Inductive Completion : Type :=
| Returns (v : Value)
| ReturnsPromise (p : Settled)
| Throws (e : Value).

(** [session.messageType] *)
Inductive MessageType : Type := private | group | discuss.

(** [session.$parsed] *)
Record Parsed : Type := {
  atMe : bool;
  nickname : jsstring;
  prefix : option jsstring;     (* [None] is [null] *)
  message : jsstring;
}.

(** A command node, as far as the dispatcher and the help plugin read and
    write it. *)
Record OptionConfig : Type := { hidden : bool }.

Record OptionDecl : Type := {
  rawName : jsstring;
  description : jsstring;
  config : OptionConfig;
}.

Record Command : Type := {
  name : jsstring;
  _action : bool;               (* whether an action callback is set *)
  _examples : option (list jsstring);   (* [None] before the help plugin sets it *)
  _options : list OptionDecl;
}.

(** A parsed command line: [session.$argv], and the argument of
    [app.execute] and of the before-command hook. *)
Record Argv : Type := {
  command : Command;
  args : list jsstring;
  options : gmap string Value;
}.

(** Rows of the group and user tables. *)
Record Group : Type := { g_flag : Z; assignee : N }.
Record User : Type := { u_flag : Z }.

Record Session : Type := {
  s_message : jsstring;         (* [session.message] *)
  messageType : MessageType;
  selfId : N;
  groupId : N;
  userId : N;
  s_parsed : option Parsed;     (* [session.$parsed] *)
  s_argv : option Argv;         (* [session.$argv] *)
  s_user : option User;         (* [session.$user], once observed *)
  s_group : option Group;       (* [session.$group], once observed *)
}.

(** Calls to the collaborators of [App] (context, session, command and
    storage), in the order they are made. *)
Inductive Call : Type :=
| Emit (event : string)
| Serialize (event : string)
| Parallelize (event : string)
| ObserveGroup (fields : gset string)
| ObserveUser (fields : gset string)
| UpdateUser                    (* [session.$user._update()] *)
| UpdateGroup                   (* [session.$group._update()] *)
| Execute (argv : Argv)         (* [command.execute(argv)] *)
| AppExecute (cmd : jsstring) (args : list jsstring)   (* [app.execute] *)
| Send (text : jsstring).       (* [session.$send] *)

Record World : Type := {
  session : Session;
  calls : list Call;
}.

Definition set_session (f : Session → Session) (w : World) : World :=
  {| session := f w.(session); calls := w.(calls) |}.

Definition call (c : Call) (w : World) : World :=
  {| session := w.(session); calls := w.(calls) ++ [c] |}.

(** ** Middlewares

    A middleware is arbitrary user code. It is modelled by what it can do
    to the dispatcher: read and change the world, call its continuation
    ([next]) and finally return or throw. An [async] middleware returns a
    promise; a promise is represented by its outcome, so the model follows
    the runs in which the promise of a continuation has settled when its
    caller goes on: [Next] is a call of the continuation whose promise the
    middleware waits for ([await next()], [return next()]). A middleware
    that goes on while that promise is pending is outside the model. [F] is
    the type of the fallbacks that may be passed to the continuation.

    [lastCall] is the stack frame of the caller of the continuation, the
    third line of [new Error().stack] (line 234). It is [None] for
    [undefined]: the stack has no third line when nothing on it has called
    the continuation, as when it runs as the reaction of a promise
    ([promise.then(next)]). *)
Inductive Prog (F : Type) : Type :=
| Done (c : Completion)
| Do (f : World → World) (k : Prog F)
| Get (k : World → Prog F)
| Next (lastCall : option jsstring) (fallback : option F)
    (k : Settled → Prog F).

Arguments Done {F} c.
Arguments Do {F} f k.
Arguments Get {F} k.
Arguments Next {F} lastCall fallback k.

(** A fallback receives the continuation as well ([fallback(next)]); the
    fallbacks of the model pass no fallback of their own to it. *)
Definition Fallback : Type := Prog Empty_set.
Definition Middleware : Type := Prog Fallback.

(** [context.match(session)] of the context a hook was registered on. *)
Definition Context : Type := Session → bool.

(** What [App] itself does, in order: the middlewares it invokes, the
    warnings of [logger('middleware')] and the steps of the cleanup. *)
Inductive Action : Type :=
| Invoke (i : nat)              (* [middlewares[i](session, next)] *)
| Warn (text : jsstring)
| SetAdd (counter : N)
| SetDelete (counter : N)
| EmitAfterMiddleware
| FlushUser
| FlushGroup.

(** The fields of [App] and the variables of one call of
    [_applyMiddlewares] that its closure [next] shares. *)
Record State : Type := {
  world : World;
  _middlewareCounter : N;
  _middlewareSet : gset N;
  index : nat;
  stack : jsstring;
  pushed : list Fallback;       (* what [next] has pushed on [middlewares] *)
  trace : list Action;
}.

Definition set_world (f : World → World) (st : State) : State :=
  {| world := f st.(world); _middlewareCounter := st.(_middlewareCounter);
     _middlewareSet := st.(_middlewareSet); index := st.(index);
     stack := st.(stack); pushed := st.(pushed); trace := st.(trace) |}.

Definition set_index (i : nat) (st : State) : State :=
  {| world := st.(world); _middlewareCounter := st.(_middlewareCounter);
     _middlewareSet := st.(_middlewareSet); index := i;
     stack := st.(stack); pushed := st.(pushed); trace := st.(trace) |}.

Definition set_stack (s : jsstring) (st : State) : State :=
  {| world := st.(world); _middlewareCounter := st.(_middlewareCounter);
     _middlewareSet := st.(_middlewareSet); index := st.(index);
     stack := s; pushed := st.(pushed); trace := st.(trace) |}.

Definition push (f : Fallback) (st : State) : State :=
  {| world := st.(world); _middlewareCounter := st.(_middlewareCounter);
     _middlewareSet := st.(_middlewareSet); index := st.(index);
     stack := st.(stack); pushed := st.(pushed) ++ [f]; trace := st.(trace) |}.

Definition act (a : Action) (st : State) : State :=
  {| world := st.(world); _middlewareCounter := st.(_middlewareCounter);
     _middlewareSet := st.(_middlewareSet); index := st.(index);
     stack := st.(stack); pushed := st.(pushed); trace := st.(trace) ++ [a] |}.

Definition set_live (c : N) (s : gset N) (st : State) : State :=
  {| world := st.(world); _middlewareCounter := c;
     _middlewareSet := s; index := st.(index);
     stack := st.(stack); pushed := st.(pushed); trace := st.(trace) |}.

(** The type of [next]: the stack frame of its caller if there is one, the
    optional fallback, and the state. *)
Definition NextFunction (F : Type) : Type :=
  option jsstring → option F → State → Settled * State.

Fixpoint exec {F : Type} (p : Prog F) (next : NextFunction F) (st : State)
    : Completion * State :=
  match p with
  | Done c => (c, st)
  | Do f k => exec k next (set_world f st)
  | Get k => exec (k st.(world)) next st
  | Next lastCall fallback k =>
      let '(r, st') := next lastCall fallback st in
      exec (k r) next st'
  end.

(** ** [App._applyMiddlewares] *)
Module Dispatcher.

(** [/\((.+)\)/] *)
Definition parenRE : RegExp :=
  Seq (Lit (str "("))
    (Seq (Capture (Plus (λ c, negb (isLineTerminator c)))) (Lit (str ")"))).

(** [new Error(message)] made inside [next]: its [stack] is the header,
    the frame of [next] and then the frames of the callers of [next], of
    which the first is [lastCall]. *)
Definition new_Error (message : jsstring) (lastCall : option jsstring)
    : Value :=
  NativeError message
    ((if message is [] then str "Error" else str "Error: " ++ message)
       ++ match lastCall with
          | Some frame => str "
    at next (app.ts)
" ++ frame
          | None => str "
    at next (app.ts)"
          end).

(** The TypeError of [lastCall.match] (line 236) when [lastCall] is
    undefined, with the message of V8. *)
Definition undefined_match : Value :=
  NativeError (str "Cannot read property 'match' of undefined")
    (str "TypeError: Cannot read property 'match' of undefined
    at next (app.ts)").

Definition isolated : jsstring := str "isolated next function detected".

(** The stack of the error of line 242, up to the frames of the callers of
    [next]. *)
Definition isolated_header : jsstring :=
  str "Error: isolated next function detected
    at next (app.ts)
".

(** Lines 234 to 238: the middleware-stack trail. *)
Definition trail (lastCall : jsstring) (st : State) : State :=
  if (st.(index) =? 0)%nat then st else
  let capture := match_ lastCall parenRE in
  set_stack
    (str "
  - " ++ match capture with
         | Some capture => default [] (capture !! 1%nat)
         | None => slice_from 7 lastCall
         end ++ st.(stack)) st.

(** Lines 241 to 245, the [try] block. [invoke i] is the call
    [middlewares[i]?.(session, next)], [None] when there is no such
    element. *)
Definition try_block {F : Type} (counter : N) (push : F → State → State)
    (invoke : nat → State → option (Completion * State))
    (lastCall : option jsstring) (fallback : option F) (st : State)
    : Completion * State :=
  if bool_decide (counter ∉ st.(_middlewareSet)) then
    (Throws (new_Error isolated lastCall), st)
  else
    let st := match fallback with Some f => push f st | None => st end in
    let i := st.(index) in
    let st := set_index (S i) st in
    match invoke i st with
    | Some r => r
    | None => (Returns Undefined, st)
    end.

(** Lines 247 to 251, the [catch] block. [indexOf(undefined)] looks for
    the text 'undefined'. *)
Definition catch_block (lastCall : option jsstring) (error : Value)
    (st : State) : State :=
  let error :=
    if isNativeError error then error
    else new_Error (if error is Undefined then [] else ToString error)
           lastCall in
  let error_stack :=
    match error with NativeError _ s => s | _ => [] end in
  let index := indexOf (default (str "undefined") lastCall) error_stack in
  act (Warn (st.(world).(session).(s_message) ++ str "
" ++ slice_to error_stack index ++ str "Middleware stack:" ++ st.(stack))) st.

(** Lines 240 to 252, the [try] statement. [next] is [async]: what the
    [try] block returns resolves its promise, and a promise returned there
    is not awaited inside the block. *)
Definition guarded {F : Type} (counter : N) (push : F → State → State)
    (invoke : nat → State → option (Completion * State))
    (lastCall : option jsstring) (fallback : option F) (st : State)
    : Settled * State :=
  match try_block counter push invoke lastCall fallback st with
  | (Returns v, st') => (Fulfilled v, st')
  | (ReturnsPromise p, st') => (p, st')
  | (Throws error, st') => (Fulfilled Undefined, catch_block lastCall error st')
  end.

(** Lines 233 to 253. Lines 235 to 238 are outside the [try] statement:
    when the cursor is not 0 and the caller has no frame, [lastCall.match]
    throws there and the promise of [next] rejects. *)
Definition next {F : Type} (counter : N) (push : F → State → State)
    (invoke : nat → State → option (Completion * State))
    : NextFunction F :=
  λ lastCall fallback st,
  match lastCall with
  | Some frame =>
      guarded counter push invoke lastCall fallback (trail frame st)
  | None =>
      if (st.(index) =? 0)%nat
      then guarded counter push invoke lastCall fallback st
      else (Rejected undefined_match, st)
  end.

Definition no_push (f : Empty_set) (st : State) : State :=
  match f with end.

(** [middlewares[i]?.(session, next)] for the pushed elements
    [(_, next) => fallback(next)], which start at position [i0]. *)
Fixpoint invoke_pushed (counter : N) (fs : list Fallback) (i0 i : nat)
    (st : State) : option (Completion * State) :=
  match fs with
  | [] => None
  | f :: fs' =>
      if (i =? i0)%nat then
        Some (exec f (next counter no_push (invoke_pushed counter fs' (S i0)))
                (act (Invoke i) st))
      else invoke_pushed counter fs' (S i0) i st
  end.

(** [middlewares[i]?.(session, next)]: [ms] are the elements of the
    snapshot from position [i0] on; behind them come the pushed ones. The
    continuation that element [i0] receives is the one closure [next]; as
    [index] only grows, it never reaches back to [i0] or before. *)
Fixpoint invoke (counter : N) (ms : list Middleware) (i0 i : nat)
    (st : State) : option (Completion * State) :=
  match ms with
  | [] => invoke_pushed counter st.(pushed) i0 i st
  | m :: ms' =>
      if (i =? i0)%nat then
        Some (exec m (next counter push (invoke counter ms' (S i0)))
                (act (Invoke i) st))
      else invoke counter ms' (S i0) i st
  end.

(** The hooks of [Context.MIDDLEWARE_EVENT]. *)
Abbreviation Hooks := (list (Context * Middleware)).

(** Lines 227 to 229. *)
Definition snapshot (hooks : Hooks) (session : Session) : list Middleware :=
  map snd (filter (λ h, h.1 session = true) hooks).

(** Lines 256 to 262: the cleanup. The listeners of 'after-middleware' and
    the [_update] of an observed row belong to the collaborators; they are
    recorded as calls. *)
Definition cleanup (counter : N) (st : State) : State :=
  let st := set_live st.(_middlewareCounter) (st.(_middlewareSet) ∖ {[counter]})
              (act (SetDelete counter) st) in
  let st := set_world (call (Emit "after-middleware")) (act EmitAfterMiddleware st) in
  let st := if st.(world).(session).(s_user) is Some _
            then set_world (call UpdateUser) (act FlushUser st) else st in
  let st := if st.(world).(session).(s_group) is Some _
            then set_world (call UpdateGroup) (act FlushGroup st) else st in
  st.

(** [n++] on a number that holds a natural number: the sum is exact below
    2^53. From there to 2^54 the doubles are the even numbers and [n + 1]
    lies midway between two of them: it is rounded to the one whose
    significand is even. From 2^54 on [n + 1] is rounded back to [n]. *)
Definition increment (n : N) : N :=
  if (n <? 2 ^ 53)%N then (n + 1)%N
  else if (n <? 2 ^ 54)%N && N.odd (n / 2) then (n + 2)%N
  else n.

(** Lines 223 to 232: the preparation. *)
Definition prepare (st : State) : N * State :=
  let counter := st.(_middlewareCounter) in
  (counter,
   {| world := st.(world);
      _middlewareCounter := increment counter;
      _middlewareSet := {[counter]} ∪ st.(_middlewareSet);
      index := 0; stack := []; pushed := [];
      trace := st.(trace) ++ [SetAdd counter] |}).

(** [_applyMiddlewares(session)]; [st.(world).(session)] is the session and
    [lastCall] the frame of the call [next()] of line 254. The result is
    the outcome of the promise that [_applyMiddlewares] returns: when
    [await next()] throws, the rest of the function does not run. *)
Definition _applyMiddlewares (hooks : Hooks) (lastCall : jsstring)
    (st : State) : Settled * State :=
  let '(counter, st) := prepare st in
  let middlewares := snapshot hooks st.(world).(session) in
  match next counter push (invoke counter middlewares 0) (Some lastCall) None
          st with
  | (Fulfilled _, st') => (Fulfilled Undefined, cleanup counter st')
  | (Rejected e, st') => (Rejected e, st')
  end.

(** The actions of the chain itself, as opposed to those of the
    preparation and of the cleanup. *)
Definition chain_action (a : Action) : Prop :=
  match a with
  | Invoke _ | Warn _ => True
  | _ => False
  end.

(** The trace grows by actions of the chain only, the live set and the
    counter are left alone, and the cursor does not go back. *)
Definition grows (st st' : State) : Prop :=
  (∃ body, st'.(trace) = st.(trace) ++ body ∧ Forall chain_action body) ∧
  st'.(_middlewareSet) = st.(_middlewareSet) ∧
  st'.(_middlewareCounter) = st.(_middlewareCounter) ∧
  st.(index) ≤ st'.(index).

(** The actions of the cleanup of a dispatch, by the rows that are attached
    to its session at the end. *)
Definition cleanup_actions (counter : N) (s : Session) : list Action :=
  [SetDelete counter; EmitAfterMiddleware]
    ++ (if s.(s_user) is Some _ then [FlushUser] else [])
    ++ (if s.(s_group) is Some _ then [FlushGroup] else []).

End Dispatcher.

(** ** The addressing matchers of [App] *)
Module Matchers.

(** [string | string[]] *)
Inductive StringOrArray : Type :=
| OneString (s : jsstring)
| Array (l : list jsstring).

(** The options read by the constructor; [None] is an absent option. *)
Record AppOptions : Type := {
  o_prefix : option StringOrArray;
  o_nickname : option StringOrArray;
}.

(** A bot of [server.bots]: [selfId] is [None] while it is undefined, and
    [_get] tells whether the bot has a sender. *)
Record Bot : Type := {
  bot_selfId : option N;
  _get : bool;
}.

(** [bot.selfId] as a condition: undefined and 0 are falsy. *)
Definition has_selfId (bot : Bot) : bool :=
  match bot.(bot_selfId) with
  | Some n => negb (n =? 0)%N
  | None => false
  end.

(** Line 97. *)
Definition nicknames (options : AppOptions) : list jsstring :=
  match options.(o_nickname) with
  | Some (Array l) => l
  | Some (OneString s) => if s is [] then [] else [s]
  | None => []
  end.

(** Line 98: [prefix || ''] is the prefix itself or the empty string. *)
Definition prefixes (options : AppOptions) : list jsstring :=
  match options.(o_prefix) with
  | Some (Array l) => l
  | Some (OneString s) => [s]
  | None => [[]]
  end.

(** [[,，]] *)
Definition isComma (c : char) : bool := ((c =? 0x2C) || (c =? 0xFF0C))%N.

(** Line 99: prefix [@?], suffix [([,，]\s*|\s+)]. *)
Definition nameRE (options : AppOptions) : RegExp :=
  createLeadingRE (nicknames options)
    (Opt (Lit (str "@")))
    (Capture (Alt (Seq (Class isComma) (Star isSpace)) (Plus isSpace))).

(** Line 100. *)
Definition prefixRE (options : AppOptions) : RegExp :=
  createLeadingRE (prefixes options) Empty Empty.

(** Lines 137 to 139. *)
Definition selfIds (bots : list Bot) : list jsstring :=
  map (λ bot, Number.toString (default 0%N bot.(bot_selfId)))
    (filter (λ bot, has_selfId bot && bot.(_get) = true) bots).

(** [prepare]: prefix [\[CQ:at,qq=], suffix [\]\s*]. *)
Definition prepare (bots : list Bot) : RegExp :=
  createLeadingRE (selfIds bots)
    (Lit (str "[CQ:at,qq="))
    (Seq (Lit (str "]")) (Star isSpace)).

(** [capture[0]] *)
Definition whole (capture : list jsstring) : jsstring :=
  default [] (head capture).

(** Lines 162 to 183 of [_preprocess]: [message] is the trimmed and
    simplified text. [_atMeRE] is undefined until [prepare] has run, and
    [match(undefined)] matches with the empty pattern. *)
Definition strip (_atMeRE : option RegExp) (_nameRE _prefixRE : RegExp)
    (type : MessageType) (message : jsstring) : Parsed :=
  let atMe := false in
  let nickname := [] in
  let prefix := None in
  let '(atMe, nickname, message) :=
    match (if type is private then None
           else match_ message (default Empty _atMeRE)) with
    | Some capture =>
        (true, whole capture, slice_from (length (whole capture)) message)
    | None => (atMe, nickname, message)
    end in
  let '(nickname, message) :=
    match match_ message _nameRE with
    | Some capture =>
        if (length (whole capture) =? 0)%nat then (nickname, message)
        else (whole capture, slice_from (length (whole capture)) message)
    | None => (nickname, message)
    end in
  let '(prefix, message) :=
    match match_ message _prefixRE with
    | Some capture =>
        (Some (whole capture), slice_from (length (whole capture)) message)
    | None => (prefix, message)
    end in
  {| atMe := atMe; nickname := nickname; prefix := prefix; message := message |}.

End Matchers.

Import Matchers.

(** ** [App._preprocess] *)
Module Preprocess.

(** What [_preprocess] uses of the modules that are not part of these
    sources: koishi-utils, [Context], [Session], [Command] and the
    database. The listeners behind [emit] and [serialize] are given by what
    they answer. *)
Record Collaborators : Type := {
  simplify : jsstring → jsstring;
  (** [this.parse(message, session, next, true)]: the resolved command
      line, [None] when there is none. *)
  parse : jsstring → Session → option Argv;
  (** The fields that the listeners of 'before-attach-group' and
      'before-attach-user' add to the set. *)
  before_attach_group : Session → gset string → gset string;
  before_attach_user : Session → gset string → gset string;
  (** Whether a listener of 'attach-group', 'attach-user' returns a truthy
      value to [serialize]. *)
  attach_group : Session → bool;
  attach_user : Session → bool;
  (** The rows that the storage holds. *)
  getGroup : N → gset string → Group;
  getUser : N → gset string → User;
  (** [Group.Flag.ignore] and [User.Flag.ignore]. *)
  Group_Flag_ignore : Z;
  User_Flag_ignore : Z;
  (** [command.execute(argv)]: what it does to the world and the outcome of
      its promise. *)
  execute : Argv → World → Settled * World;
}.

(** The fields of [App] that [_preprocess] reads. *)
Record App : Type := {
  _atMeRE : option RegExp;
  _nameRE : RegExp;
  _prefixRE : RegExp;
  database : bool;              (* whether [this.database] is set *)
}.

(** [ToInt32], and [a & b] on numbers that are integers. *)
Definition ToInt32 (z : Z) : Z :=
  let m := (z mod 2 ^ 32)%Z in
  if (2 ^ 31 <=? m)%Z then (m - 2 ^ 32)%Z else m.

Definition bitand (a b : Z) : Z := Z.land (ToInt32 a) (ToInt32 b).

Definition set_parsed (p : Parsed) (s : Session) : Session :=
  {| s_message := s.(s_message); messageType := s.(messageType);
     selfId := s.(selfId); groupId := s.(groupId); userId := s.(userId);
     s_parsed := Some p; s_argv := s.(s_argv);
     s_user := s.(s_user); s_group := s.(s_group) |}.

Definition set_argv (argv : option Argv) (s : Session) : Session :=
  {| s_message := s.(s_message); messageType := s.(messageType);
     selfId := s.(selfId); groupId := s.(groupId); userId := s.(userId);
     s_parsed := s.(s_parsed); s_argv := argv;
     s_user := s.(s_user); s_group := s.(s_group) |}.

Definition set_group (g : Group) (s : Session) : Session :=
  {| s_message := s.(s_message); messageType := s.(messageType);
     selfId := s.(selfId); groupId := s.(groupId); userId := s.(userId);
     s_parsed := s.(s_parsed); s_argv := s.(s_argv);
     s_user := s.(s_user); s_group := Some g |}.

Definition set_user (u : User) (s : Session) : Session :=
  {| s_message := s.(s_message); messageType := s.(messageType);
     selfId := s.(selfId); groupId := s.(groupId); userId := s.(userId);
     s_parsed := s.(s_parsed); s_argv := s.(s_argv);
     s_user := Some u; s_group := s.(s_group) |}.

(** Modelled from the spec: [session.ts] is not among the sources.
    [session.observeGroup(fields)] and [session.observeUser(fields)] load the
    row from the storage ("observe(entityKind, requiredColumns) -> row") and
    attach it to the session ("lazily-attached user record, lazily-attached
    group record"). *)
Definition observeGroup (C : Collaborators) (fields : gset string) (w : World)
    : World :=
  set_session (λ s, set_group (C.(getGroup) s.(groupId) fields) s)
    (call (ObserveGroup fields) w).

Definition observeUser (C : Collaborators) (fields : gset string) (w : World)
    : World :=
  set_session (λ s, set_user (C.(getUser) s.(userId) fields) s)
    (call (ObserveUser fields) w).

(** [return] in an [async] function. *)
Definition quiet : Middleware := Done (ReturnsPromise (Fulfilled Undefined)).

(** Lines 216 to 220: the command dispatch trigger. *)
Definition trigger (C : Collaborators) (lastCall : jsstring) : Middleware :=
  Do (call (Parallelize "attach"))
    (Get (λ w,
       match w.(session).(s_argv) with
       | None => Next (Some lastCall) None (λ r, Done (ReturnsPromise r))
       | Some argv =>
           Do (λ w, (C.(execute) argv (call (Execute argv) w)).2)
             (Done (ReturnsPromise
                      (C.(execute) argv (call (Execute argv) w)).1))
       end)).

(** Lines 204 to 213: the user row. *)
Definition attach_user_row (C : Collaborators) (k : Middleware) : Middleware :=
  Get (λ w,
    let userFields := C.(before_attach_user) w.(session) {["flag"]} in
    let user := C.(getUser) w.(session).(userId) userFields in
    Do (λ w, observeUser C userFields (call (Emit "before-attach-user") w))
      (Do (call (Serialize "attach-user"))
        (Get (λ w,
           if C.(attach_user) w.(session) then quiet
           else if negb (bitand user.(u_flag) C.(User_Flag_ignore) =? 0)%Z
           then quiet
           else k)))).

(** Lines 190 to 202: the group row. *)
Definition attach_group_row (C : Collaborators) (atMe : bool) (k : Middleware)
    : Middleware :=
  Get (λ w,
    let groupFields :=
      C.(before_attach_group) w.(session) {["flag"; "assignee"]} in
    let group := C.(getGroup) w.(session).(groupId) groupFields in
    Do (λ w, observeGroup C groupFields (call (Emit "before-attach-group") w))
      (Do (call (Serialize "attach-group"))
        (Get (λ w,
           if C.(attach_group) w.(session) then quiet
           else if negb (bitand group.(g_flag) C.(Group_Flag_ignore) =? 0)%Z
           then quiet
           else if negb (group.(assignee) =? w.(session).(selfId))%N
                     && negb atMe
           then quiet
           else k)))).

(** Lines 162 to 183, from the session. *)
Definition address (this : App) (C : Collaborators) (session : Session)
    : Parsed :=
  strip this.(_atMeRE) this.(_nameRE) this.(_prefixRE)
    session.(messageType) (C.(simplify) (trim session.(s_message))).

(** [_preprocess(session, next)]; [lastCall] is the frame of its call of
    [next]. *)
Definition _preprocess (this : App) (C : Collaborators) (lastCall : jsstring)
    : Middleware :=
  Get (λ w,
    let session := w.(session) in
    let parsed := address this C session in
    Do (set_session (set_parsed parsed))
      (Do (set_session (λ s, set_argv (C.(parse) parsed.(message) s) s))
        (if this.(database) then
           if session.(messageType) is group then
             attach_group_row C parsed.(atMe)
               (attach_user_row C (trigger C lastCall))
           else attach_user_row C (trigger C lastCall)
         else trigger C lastCall))).

(** Whether the user row was asked for. *)
Definition observes_user (cs : list Call) : bool :=
  existsb (λ c, if c is ObserveUser _ then true else false) cs.

(** The session after lines 186 and 187. *)
Definition parsed_session (this : App) (C : Collaborators) (s : Session)
    : Session :=
  let s1 := set_parsed (address this C s) s in
  set_argv (C.(parse) (address this C s).(message) s1) s1.

(** The fields of the group row that line 194 asks for, and the row. *)
Definition group_fields (this : App) (C : Collaborators) (s : Session)
    : gset string :=
  C.(before_attach_group) (parsed_session this C s) {["flag"; "assignee"]}.

Definition group_row (this : App) (C : Collaborators) (s : Session) : Group :=
  C.(getGroup) s.(groupId) (group_fields this C s).

End Preprocess.

(** ** [App.getSelfIds]

    [getSelfIds] is [async]: a call runs up to its [await], and goes on when
    the promise settles; the closures of line 125 run up to the [await] of
    [getLoginInfo] and go on when the transport answers. The runs of the
    event loop are the lists of the events below. *)
Module SelfIds.

Inductive PromiseState : Type :=
| Pending
| Resolved
| Failed (e : Value).

(** The promise made on line 125, with a number that tells the promises
    apart. *)
Record Promise : Type := {
  promise_id : nat;
  promise_state : PromiseState;
}.

(** What a call of [getSelfIds] returns to its caller. *)
Inductive Answer : Type :=
| Ids (ids : list (option N))   (* [bots.map(bot => bot.selfId)] *)
| Raised (e : Value).

Record Server : Type := {
  bots : list Bot;                        (* [this.server.bots] *)
  _getSelfIdsPromise : option Promise;
  _atMeRE : option RegExp;
  created : nat;                          (* promises made so far *)
  loginCalls : list nat;                  (* the calls of [getLoginInfo], by bot *)
  inflight : list nat;                    (* those not yet answered *)
  waiting : list (nat * nat * list nat);  (* caller, promise awaited, its [bots] *)
  answered : list (nat * Answer);         (* caller and what it got *)
}.

Inductive Event : Type :=
| CallGetSelfIds (caller : nat)
| LoginInfo (i : nat) (userId : N)        (* [getLoginInfo] of bot [i] resolves *)
| LoginError (i : nat) (e : Value).       (* [getLoginInfo] of bot [i] rejects *)

(** Line 123: the bots with a sender, by their position in [server.bots]. *)
Fixpoint with_get (bs : list Bot) (i0 : nat) : list nat :=
  match bs with
  | [] => []
  | bot :: bs' => (if bot.(_get) then [i0] else []) ++ with_get bs' (S i0)
  end.

(** Lines 125 to 127, up to the [await]: the bots, among [idx], whose
    [getLoginInfo] is called. *)
Definition needs_login (bs : list Bot) (i : nat) : bool :=
  match bs !! i with
  | Some bot => negb (has_selfId bot || negb bot.(_get))
  | None => false
  end.

Definition logins (bs : list Bot) (idx : list nat) : list nat :=
  filter (λ i, needs_login bs i = true) idx.

(** Line 133. *)
Definition ids (bs : list Bot) (idx : list nat) : list (option N) :=
  map (λ i, bs !! i ≫= bot_selfId) idx.

Definition set_selfId (userId : N) (bot : Bot) : Bot :=
  {| bot_selfId := Some userId; _get := bot.(_get) |}.

(** The callers that await promise [p] go on. *)
Definition resume (p : nat) (answer : list nat → Answer)
    (ws : list (nat * nat * list nat)) : list (nat * Answer) :=
  map (λ w, (w.1.1, answer w.2)) (filter (λ w, w.1.2 = p) ws).

Definition still_waiting (p : nat) (ws : list (nat * nat * list nat))
    : list (nat * nat * list nat) :=
  filter (λ w, w.1.2 ≠ p) ws.

Definition getSelfIds (caller : nat) (s : Server) : Server :=
  let bots_ := with_get s.(bots) 0 in
  (* lines 124 to 131 *)
  let s :=
    match s.(_getSelfIdsPromise) with
    | Some _ => s
    | None =>
        let called := logins s.(bots) bots_ in
        {| bots := s.(bots);
           _getSelfIdsPromise :=
             Some {| promise_id := s.(created);
                     promise_state := if called is [] then Resolved else Pending |};
           _atMeRE := s.(_atMeRE);
           created := S s.(created);
           loginCalls := s.(loginCalls) ++ called;
           inflight := s.(inflight) ++ called;
           waiting := s.(waiting);
           answered := s.(answered) |}
    end in
  (* lines 132 and 133 *)
  match s.(_getSelfIdsPromise) with
  | Some {| promise_id := p; promise_state := Pending |} =>
      {| bots := s.(bots); _getSelfIdsPromise := s.(_getSelfIdsPromise);
         _atMeRE := s.(_atMeRE); created := s.(created);
         loginCalls := s.(loginCalls); inflight := s.(inflight);
         waiting := s.(waiting) ++ [(caller, p, bots_)];
         answered := s.(answered) |}
  | Some {| promise_state := Resolved |} =>
      {| bots := s.(bots); _getSelfIdsPromise := s.(_getSelfIdsPromise);
         _atMeRE := s.(_atMeRE); created := s.(created);
         loginCalls := s.(loginCalls); inflight := s.(inflight);
         waiting := s.(waiting);
         answered := s.(answered) ++ [(caller, Ids (ids s.(bots) bots_))] |}
  | Some {| promise_state := Failed e |} =>
      {| bots := s.(bots); _getSelfIdsPromise := s.(_getSelfIdsPromise);
         _atMeRE := s.(_atMeRE); created := s.(created);
         loginCalls := s.(loginCalls); inflight := s.(inflight);
         waiting := s.(waiting);
         answered := s.(answered) ++ [(caller, Raised e)] |}
  | None => s
  end.

(** Lines 128 and 129, and the promise of [Promise.all] once every closure
    has returned. *)
Definition loginInfo (i : nat) (userId : N) (s : Server) : Server :=
  if bool_decide (i ∈ s.(inflight)) then
    let bots' := alter (set_selfId userId) i s.(bots) in
    let inflight' := filter (λ j, j ≠ i) s.(inflight) in
    match s.(_getSelfIdsPromise) with
    | Some {| promise_id := p; promise_state := Pending |} =>
        if inflight' is [] then
          {| bots := bots';
             _getSelfIdsPromise :=
               Some {| promise_id := p; promise_state := Resolved |};
             _atMeRE := Some (prepare bots');
             created := s.(created); loginCalls := s.(loginCalls);
             inflight := inflight';
             waiting := still_waiting p s.(waiting);
             answered := s.(answered) ++ resume p (λ idx, Ids (ids bots' idx)) s.(waiting) |}
        else
          {| bots := bots'; _getSelfIdsPromise := s.(_getSelfIdsPromise);
             _atMeRE := Some (prepare bots');
             created := s.(created); loginCalls := s.(loginCalls);
             inflight := inflight';
             waiting := s.(waiting); answered := s.(answered) |}
    | _ =>
        {| bots := bots'; _getSelfIdsPromise := s.(_getSelfIdsPromise);
           _atMeRE := Some (prepare bots');
           created := s.(created); loginCalls := s.(loginCalls);
           inflight := inflight';
           waiting := s.(waiting); answered := s.(answered) |}
    end
  else s.

(** [getLoginInfo] rejects: the closure throws at line 127, and the promise
    of [Promise.all] rejects if it is still pending. *)
Definition loginError (i : nat) (e : Value) (s : Server) : Server :=
  if bool_decide (i ∈ s.(inflight)) then
    let inflight' := filter (λ j, j ≠ i) s.(inflight) in
    match s.(_getSelfIdsPromise) with
    | Some {| promise_id := p; promise_state := Pending |} =>
        {| bots := s.(bots);
           _getSelfIdsPromise :=
             Some {| promise_id := p; promise_state := Failed e |};
           _atMeRE := s.(_atMeRE);
           created := s.(created); loginCalls := s.(loginCalls);
           inflight := inflight';
           waiting := still_waiting p s.(waiting);
           answered := s.(answered) ++ resume p (λ _, Raised e) s.(waiting) |}
    | _ =>
        {| bots := s.(bots); _getSelfIdsPromise := s.(_getSelfIdsPromise);
           _atMeRE := s.(_atMeRE);
           created := s.(created); loginCalls := s.(loginCalls);
           inflight := inflight';
           waiting := s.(waiting); answered := s.(answered) |}
    end
  else s.

Definition step (s : Server) (ev : Event) : Server :=
  match ev with
  | CallGetSelfIds caller => getSelfIds caller s
  | LoginInfo i userId => loginInfo i userId s
  | LoginError i e => loginError i e s
  end.

Definition run (evs : list Event) (s : Server) : Server :=
  foldl step s evs.

(** An [App] on which [getSelfIds] has not been called. *)
Definition fresh (bs : list Bot) : Server :=
  {| bots := bs; _getSelfIdsPromise := None; _atMeRE := None; created := 0;
     loginCalls := []; inflight := []; waiting := []; answered := [] |}.

(** How often [getLoginInfo] of bot [i] has been called. *)
Definition calls_of (i : nat) (s : Server) : nat :=
  length (filter (λ j, j = i) s.(loginCalls)).

Definition is_call (ev : Event) : bool :=
  if ev is CallGetSelfIds _ then true else false.

(** Whether [getSelfIds] is called in a run. *)
Definition called (evs : list Event) : bool := existsb is_call evs.

(** The bots whose identity is to be resolved when [getSelfIds] is first
    called. *)
Definition unresolved (bs : list Bot) : list nat := logins bs (with_get bs 0).

(** What holds of the app during a run from [fresh bs]: before
    [getSelfIds] is called nothing has changed; afterwards there is the one
    promise, every caller that waits awaits it, and [getLoginInfo] has been
    called for the bots that were unresolved. *)
Definition invariant (bs : list Bot) (was_called : bool) (s : Server) : Prop :=
  if was_called then
    (∃ p, s.(_getSelfIdsPromise) = Some p ∧ p.(promise_id) = 0) ∧
    s.(created) = 1 ∧
    s.(loginCalls) = unresolved bs ∧
    (∀ w, w ∈ s.(waiting) → w.1.2 = 0)
  else s = fresh bs.

End SelfIds.

(** ** The help plugin: the two hooks of [apply] *)
Module Help.

(** Modelled from the spec: [command.ts] is not among the sources.
    [cmd.option(rawName, description, config)] adds an option definition to
    the node ("option definitions (each with authority requirement, hidden
    flag, ...)"). *)
Definition option_ (rawName description : jsstring) (config : OptionConfig)
    (cmd : Command) : Command :=
  {| name := cmd.(name); _action := cmd.(_action);
     _examples := cmd.(_examples);
     _options := cmd.(_options) ++
       [{| rawName := rawName; description := description; config := config |}] |}.

Definition set_examples (l : list jsstring) (cmd : Command) : Command :=
  {| name := cmd.(name); _action := cmd.(_action);
     _examples := Some l; _options := cmd.(_options) |}.

(** The description of the help option, as code units. *)
Definition help_description : jsstring :=
  [0x663E; 0x793A; 0x6B64; 0x4FE1; 0x606F]%N.

(** Lines 51 to 54: the listener of 'new-command'. *)
Definition new_command (cmd : Command) : Command :=
  option_ (str "-h, --help") help_description {| hidden := true |}
    (set_examples [] cmd).

(** [options.help] *)
Definition help_option (argv : Argv) : Value :=
  default Undefined (argv.(options) !! "help").

(** Lines 57 to 65: the hook of 'before-command'. It returns [true], or
    nothing. [app.execute] is a call to the context. *)
Definition before_command (argv : Argv) (w : World) : Value * World :=
  if argv.(command).(_action) && negb (truthy (help_option argv))
  then (Undefined, w)
  else (Bool true,
        call (AppExecute (str "help") [argv.(command).(name)]) w).

(** The listeners that [apply] adds to the hooks of the app. [on] appends
    a listener and [before] puts it in front. *)
Record Listeners : Type := {
  on_new_command : list (Command → Command);
  on_before_command : list (Argv → World → Value * World);
}.

(** Lines 50 to 65 of [apply]. *)
Definition apply (app : Listeners) : Listeners :=
  {| on_new_command := app.(on_new_command) ++ [new_command];
     on_before_command := before_command :: app.(on_before_command) |}.

(** Modelled from the spec: the constructor of [Command] is not among the
    sources. "A 'new command registered' notification, fired once per
    command node creation": the listeners run, in order, on the new
    node. *)
Definition create (app : Listeners) (cmd : Command) : Command :=
  foldl (λ c listener, listener c) cmd app.(on_new_command).

End Help.

(** ** Sample inputs, for the examples below *)
Module Samples.

Definition ping : Command :=
  {| name := str "ping"; _action := true; _examples := Some [];
     _options := [] |}.

Definition ping_help : Argv :=
  {| command := ping; args := []; options := {["help" := Bool true]} |}.

Definition ping_plain : Argv :=
  {| command := ping; args := []; options := ∅ |}.

Definition session0 : Session :=
  {| s_message := str "ping"; messageType := private; selfId := 111;
     groupId := 0; userId := 5; s_parsed := None; s_argv := None;
     s_user := None; s_group := None |}.

Definition world0 : World := {| session := session0; calls := [] |}.

Definition state0 : State :=
  {| world := world0; _middlewareCounter := 0; _middlewareSet := ∅;
     index := 0; stack := []; pushed := []; trace := [] |}.

Definition always : Context := λ _, true.

(** [(session, next) => next()] *)
Definition pass : Middleware :=
  Next (Some (str "    at pass (plugin.js:3:10)")) None
    (λ r, Done (ReturnsPromise r)).

(** [() => { throw 'boom' }] *)
Definition throwing : Middleware := Done (Throws (Str (str "boom"))).

(** [async () => { throw 'boom' }] *)
Definition rejecting : Middleware :=
  Done (ReturnsPromise (Rejected (Str (str "boom")))).

(** [() => {}]: it does not call its continuation. *)
Definition silent : Middleware := Done (Returns Undefined).

(** [(session, next) => Promise.resolve().then(next)]: the continuation is
    called from the job queue, with no frame of a caller below it. *)
Definition then_next : Middleware :=
  Next None None (λ r, Done (ReturnsPromise r)).

Definition collaborators : Preprocess.Collaborators :=
  {| Preprocess.simplify := id;
     Preprocess.parse := λ message _,
       if startsWith (str "ping") message then Some ping_plain else None;
     Preprocess.before_attach_group := λ _ fields, fields;
     Preprocess.before_attach_user := λ _ fields, fields;
     Preprocess.attach_group := λ _, false;
     Preprocess.attach_user := λ _, false;
     Preprocess.getGroup := λ _ _, {| g_flag := 0; assignee := 222 |};
     Preprocess.getUser := λ _ _, {| u_flag := 0 |};
     Preprocess.Group_Flag_ignore := 1;
     Preprocess.User_Flag_ignore := 1;
     Preprocess.execute := λ _ w, (Fulfilled Undefined, call (Send (str "pong")) w) |}.

(** An app with two bots, 111 and 222, whose identities are known. *)
Definition two_bots : list Bot :=
  [{| bot_selfId := Some 111%N; _get := true |};
   {| bot_selfId := Some 222%N; _get := true |}].

Definition no_options : AppOptions := {| o_prefix := None; o_nickname := None |}.

Definition app_with_database : Preprocess.App :=
  {| Preprocess._atMeRE := Some (prepare two_bots);
     Preprocess._nameRE := nameRE no_options;
     Preprocess._prefixRE := prefixRE no_options;
     Preprocess.database := true |}.

(** A group message that bot 111 receives and that mentions bot 222. *)
Definition state_at_222 : State :=
  {| world :=
       {| session :=
            {| s_message := str "[CQ:at,qq=222] hi"; messageType := group;
               selfId := 111; groupId := 7; userId := 5; s_parsed := None;
               s_argv := None; s_user := None; s_group := None |};
          calls := [] |};
     _middlewareCounter := 0; _middlewareSet := ∅;
     index := 0; stack := []; pushed := []; trace := [] |}.

(** The session of [state0] with the command 'ping' resolved. *)
Definition state_ping : State :=
  {| world :=
       {| session := Preprocess.set_argv (Some ping_plain) session0;
          calls := [] |};
     _middlewareCounter := 0; _middlewareSet := ∅;
     index := 0; stack := []; pushed := []; trace := [] |}.

(** A group message without any addressing, received by bot 111 in a group
    that is assigned to bot 222. *)
Definition state_group_hello : State :=
  {| world :=
       {| session :=
            {| s_message := str "hello"; messageType := group;
               selfId := 111; groupId := 7; userId := 5; s_parsed := None;
               s_argv := None; s_user := None; s_group := None |};
          calls := [] |};
     _middlewareCounter := 0; _middlewareSet := ∅;
     index := 0; stack := []; pushed := []; trace := [] |}.

Definition options_dot : AppOptions :=
  {| o_prefix := Some (OneString (str "."));
     o_nickname := Some (OneString (str "koishi")) |}.

(** A bot whose identity is configured, and one whose identity is not. *)
Definition bot_111 : Bot := {| bot_selfId := Some 111%N; _get := true |}.
Definition bot_unknown : Bot := {| bot_selfId := None; _get := true |}.

Definition line219 : jsstring :=
  str "    at App._preprocess (app.ts:219:32)".

Definition line254 : jsstring :=
  str "    at App._applyMiddlewares (app.ts:254:11)".

End Samples.

(** ** The order of the invocations *)
Module Order.

(** The positions of the middlewares that a trace invokes, in order. *)
Definition invoked (tr : list Action) : list nat :=
  omap (λ a, if a is Invoke i then Some i else None) tr.

(** A middleware that makes no call of its continuation. *)
Inductive direct {F : Type} : Prog F → Prop :=
| direct_Done (c : Completion) : direct (Done c)
| direct_Do (f : World → World) (k : Prog F) : direct k → direct (Do f k)
| direct_Get (k : World → Prog F) : (∀ w, direct (k w)) → direct (Get k).

(** Since the trace was [base], the invocations have gone up, and have
    stayed below [bound]. *)
Definition in_order (base : list Action) (bound : nat) (st : State) : Prop :=
  ∃ body, st.(trace) = base ++ body ∧
          StronglySorted lt (invoked body) ∧
          Forall (λ i, i < bound) (invoked body).

(** [(session, next) => { next(); next(); return next(fallback) }] *)
Definition thrice (fallback : Fallback) : Middleware :=
  Next (Some (str "    at thrice (plugin.js:3:3)")) None (λ _,
  Next (Some (str "    at thrice (plugin.js:4:3)")) None (λ _,
  Next (Some (str "    at thrice (plugin.js:5:10)")) (Some fallback)
    (λ r, Done (ReturnsPromise r)))).

(** [next => session.$send('nothing handled this')] *)
Definition last_resort : Fallback :=
  Do (call (Send (str "nothing handled this"))) (Done (Returns Undefined)).

(** A state in which the cursor of the dispatch with token 0 has gone past
    the end of its one-element array. *)
Definition state_past_end : State :=
  {| world := Samples.world0; _middlewareCounter := 1; _middlewareSet := {[0%N]};
     index := 2; stack := []; pushed := []; trace := [SetAdd 0%N; Invoke 0] |}.

End Order.

(** ** Addressing: auxiliary notions *)
Module Address.

(** The decimal digits, of which the text of a bot identity consists. *)
Definition isDigit (c : char) : bool := ((48 <=? c) && (c <=? 57))%N.

(** The text of an at-mention of the bot [id]: [[CQ:at,qq=id]]. *)
Definition mention (id : jsstring) : jsstring :=
  str "[CQ:at,qq=" ++ id ++ str "]".

(** The white space that [trimStart] removes. *)
Definition leading_space (s : jsstring) : jsstring :=
  take (length s - length (trimStart s)) s.

Definition dots : AppOptions :=
  {| o_prefix := Some (Array [str "."; str ".."]); o_nickname := None |}.

End Address.

(** ** Runs of [getSelfIds]: auxiliary notions *)
Module Logins.
Import SelfIds.

Definition pending (s : Server) : Prop :=
  ∃ p, s.(_getSelfIdsPromise) =
         Some {| promise_id := p; promise_state := Pending |}.

Definition failed (e : Value) (s : Server) : Prop :=
  ∃ p, s.(_getSelfIdsPromise) =
         Some {| promise_id := p; promise_state := Failed e |}.

(** The callers of [getSelfIds] in a run, in the order of their calls. *)
Definition callers (evs : list Event) : list nat :=
  omap (λ ev, if ev is CallGetSelfIds caller then Some caller else None) evs.

(** The callers that have an answer, and those that wait for one. *)
Definition answered_callers (s : Server) : list nat := s.(answered).*1.
Definition waiting_callers (s : Server) : list nat :=
  (λ w : nat * nat * list nat, w.1.1) <$> s.(waiting).

(** While the promise is pending a call of [getLoginInfo] is outstanding
    and the callers that wait await that promise; otherwise nobody
    waits. *)
Definition settled (s : Server) : Prop :=
  match s.(_getSelfIdsPromise) with
  | Some {| promise_id := p; promise_state := Pending |} =>
      s.(inflight) ≠ [] ∧ ∀ w, w ∈ s.(waiting) → w.1.2 = p
  | Some _ => s.(waiting) = []
  | None => s.(waiting) = [] ∧ s.(inflight) = []
  end.

(** The identity of bot [i], if it has one. *)
Definition identity (bs : list Bot) (i : nat) : option N :=
  bs !! i ≫= bot_selfId.

(** What holds of the bots during a run from [fresh bs]: the senders are
    those of [bs]; a bot with a sender has an identity or, while the
    promise is pending, an outstanding call of [getLoginInfo]; a caller
    that waits has the senders of [bs] as its [bots]; and a list of
    identities that was given as an answer names every bot with a
    sender. *)
Definition complete (bs : list Bot) (s : Server) : Prop :=
  _get <$> s.(bots) = _get <$> bs ∧
  (∀ w, w ∈ s.(waiting) → w.2 = with_get bs 0) ∧
  (∀ i, i ∈ s.(inflight) → i ∈ with_get bs 0) ∧
  match s.(_getSelfIdsPromise) with
  | Some {| promise_state := Pending |} =>
      ∀ i, i ∈ with_get bs 0 →
        is_Some (identity s.(bots) i) ∨ i ∈ s.(inflight)
  | Some {| promise_state := Resolved |} =>
      ∀ i, i ∈ with_get bs 0 → is_Some (identity s.(bots) i)
  | _ => True
  end ∧
  (∀ caller l, (caller, Ids l) ∈ s.(answered) →
     Forall is_Some l ∧ length l = length (filter (λ b, b.(_get) = true) bs)).

End Logins.

(** ** The way to the command trigger: auxiliary notions *)
Module Entry.
Import Preprocess.

(** The calls by which [_preprocess] loads and announces the rows. *)
Definition loading (c : Call) : bool :=
  match c with
  | Emit _ | Serialize _ | ObserveGroup _ | ObserveUser _ => true
  | _ => false
  end.

(** The user row is attached and its ignore bit is clear. *)
Definition user_passes (C : Collaborators) (s : Session) : Prop :=
  ∃ u, s.(s_user) = Some u ∧ bitand u.(u_flag) C.(User_Flag_ignore) = 0%Z.

(** The group row is attached, its ignore bit is clear, and the receiving
    bot is its assignee or was mentioned. *)
Definition group_passes (C : Collaborators) (s : Session) : Prop :=
  ∃ g p, s.(s_group) = Some g ∧ s.(s_parsed) = Some p ∧
         bitand g.(g_flag) C.(Group_Flag_ignore) = 0%Z ∧
         (g.(assignee) = s.(selfId) ∨ p.(atMe) = true).

(** A continuation that does nothing. *)
Definition idle : NextFunction Fallback :=
  λ _ _ st, (Fulfilled Undefined, st).

(** The fields of the user row that line 207 asks for, and the row, for a
    message that does not come from a group. *)
Definition user_fields (this : App) (C : Collaborators) (s : Session)
    : gset string :=
  C.(before_attach_user) (parsed_session this C s) {["flag"]}.

Definition user_row (this : App) (C : Collaborators) (s : Session) : User :=
  C.(getUser) s.(userId) (user_fields this C s).

(** A storage in which every user is ignored. *)
Definition ignoring : Collaborators :=
  {| simplify := id;
     parse := λ _ _, None;
     before_attach_group := λ _ fields, fields;
     before_attach_user := λ _ fields, fields;
     attach_group := λ _, false;
     attach_user := λ _, false;
     getGroup := λ _ _, {| g_flag := 0; assignee := 111 |};
     getUser := λ _ _, {| u_flag := 5 |};
     Group_Flag_ignore := 1;
     User_Flag_ignore := 1;
     execute := λ _ w, (Fulfilled Undefined, w) |}.

End Entry.

(** ** The listener of 'parse' (lines 106 to 114 of the constructor) *)
Module ParseListener.

(** What the listener uses of the modules that are not among the sources:
    [String.prototype.toLowerCase], the commands registered in
    [app._commandMap] and [command.parse]. [R] is the type of the parsed
    command line. *)
Record Registry (R : Type) : Type := {
  toLowerCase : jsstring → jsstring;
  _commandMap : gmap jsstring Command;
  command_parse : Command → jsstring → R;
}.

Arguments toLowerCase {R} _ _.
Arguments _commandMap {R} _.
Arguments command_parse {R} _ _ _.

(** [app._commandMap[key]]. The map is an object literal, so a key that is
    not a command of its own may still be a property of
    [Object.prototype]; the values of these are truthy and have no [parse]
    method. *)
Inductive Property : Type :=
| Own (command : Command)
| Inherited
| Absent.

Definition Object_prototype : list jsstring :=
  [str "constructor"; str "__proto__"; str "hasOwnProperty";
   str "isPrototypeOf"; str "propertyIsEnumerable"; str "toLocaleString";
   str "toString"; str "valueOf"; str "__defineGetter__";
   str "__defineSetter__"; str "__lookupGetter__"; str "__lookupSetter__"].

Definition get (map : gmap jsstring Command) (key : jsstring) : Property :=
  match map !! key with
  | Some command => Own command
  | None =>
      if bool_decide (key ∈ Object_prototype) then Inherited else Absent
  end.

(** What the listener evaluates to. *)
Inductive Outcome (R : Type) : Type :=
| NoCommand                               (* [return], and [if (!command) return] *)
| Found (command : Command) (result : R)  (* [{ command, ...result }] *)
| TypeError.                              (* [command.parse] is not a function *)

Arguments NoCommand {R}.
Arguments Found {R} command result.
Arguments TypeError {R}.

(** [message.split(/\s/, 1)[0]]: the text before the first white space. *)
Fixpoint first_word (s : jsstring) : jsstring :=
  match s with
  | c :: s' => if isSpace c then [] else c :: first_word s'
  | [] => []
  end.

(** [name.lastIndexOf(c)], with [None] for the result -1. *)
Fixpoint lastIndexOf (c : char) (s : jsstring) : option nat :=
  match s with
  | a :: s' =>
      match lastIndexOf c s' with
      | Some i => Some (S i)
      | None => if (a =? c)%N then Some 0 else None
      end
  | [] => None
  end.

(** [name.slice(index + 1)] with [index = name.lastIndexOf('/')]. *)
Definition leaf (name : jsstring) : jsstring :=
  slice_from (if lastIndexOf 0x2F%N name is Some index then index + 1 else 0)
    name.

Definition listener {R : Type} (reg : Registry R) (message : jsstring)
    (parsed : Parsed) (type : MessageType) (forced : bool) : Outcome R :=
  if forced
     && (if parsed.(prefix) is None then true else false)
     && (if parsed.(nickname) is [] then true else false)
     && (if type is private then false else true)
  then NoCommand
  else
    let name := first_word message in
    match get reg.(_commandMap) (reg.(toLowerCase) (leaf name)) with
    | Own command =>
        Found command
          (reg.(command_parse) command
             (trimStart (slice_from (length name) message)))
    | Inherited => TypeError
    | Absent => NoCommand
    end.

(** A registry with the command [ping], whose parser keeps the text. *)
Definition registry (ping : Command) : Registry jsstring :=
  {| toLowerCase := λ s, s;
     _commandMap := {[ str "ping" := ping ]};
     command_parse := λ _ text, text |}.

End ParseListener.

(** ** [Command.prototype.example] of the help plugin *)
Module Examples.
Import Help.

(** Lines 40 to 43: [this._examples.push(example); return this]. [None] is
    the TypeError of [push] on a node whose [_examples] is undefined. *)
Definition example (e : jsstring) (cmd : Command) : option Command :=
  match cmd.(_examples) with
  | Some l => Some (set_examples (l ++ [e]) cmd)
  | None => None
  end.

(** [cmd.example(e1).example(e2)...] *)
Definition examples (es : list jsstring) (cmd : Command) : option Command :=
  foldl (λ c e, c ≫= example e) (Some cmd) es.

(** A node that was created before the plugin was applied. *)
Definition early : Command :=
  {| name := str "early"; _action := true; _examples := None;
     _options := [] |}.

Definition no_listeners : Listeners :=
  {| on_new_command := []; on_before_command := [] |}.

End Examples.

(** ** Dispatches that log nothing: auxiliary notions *)
Module Quiet.
Import Dispatcher.

(** A middleware of which no run ends in an exception: whatever its
    continuation answers, it returns a value or a promise. [PF] is the same
    condition on the fallbacks it passes. *)
Inductive never_throws {F : Type} (PF : F → Prop) : Prog F → Prop :=
| nt_Done (c : Completion) :
    (∀ e, c ≠ Throws e) → never_throws PF (Done c)
| nt_Do (f : World → World) (k : Prog F) :
    never_throws PF k → never_throws PF (Do f k)
| nt_Get (k : World → Prog F) :
    (∀ w, never_throws PF (k w)) → never_throws PF (Get k)
| nt_Next (lastCall : option jsstring) (fallback : option F)
    (k : Settled → Prog F) :
    (∀ f, fallback = Some f → PF f) →
    (∀ r, never_throws PF (k r)) →
    never_throws PF (Next lastCall fallback k).

Definition fallback_never_throws : Fallback → Prop :=
  never_throws (λ _ : Empty_set, True).

Definition middleware_never_throws : Middleware → Prop :=
  never_throws fallback_never_throws.

Definition no_warning (a : Action) : Prop :=
  match a with
  | Warn _ => False
  | _ => True
  end.

(** The token of the dispatch is live, the pushed fallbacks do not throw,
    and nothing has been logged since the trace was [base]. *)
Definition calm (counter : N) (base : list Action) (st : State) : Prop :=
  counter ∈ st.(_middlewareSet) ∧
  Forall fallback_never_throws st.(pushed) ∧
  ∃ body, st.(trace) = base ++ body ∧ Forall no_warning body.

(** A middleware that passes a fallback and hands on a rejection. *)
Definition handing_on (fallback : Fallback) : Middleware :=
  Next (Some (str "    at handing_on (plugin.ts:3:9)")) (Some fallback)
    (λ r, Done (ReturnsPromise r)).

End Quiet.

(** ** The middleware stack: auxiliary notions *)
Module Trail.

(** A line of the middleware stack of a warning. *)
Definition entry (site : jsstring) : jsstring :=
  str "
  - " ++ site.

(** The frame of a call from a named function, and of one from the top
    level of a module, as V8 prints them. *)
Definition named_frame (fn site : jsstring) : jsstring :=
  fn ++ str "(" ++ site ++ str ")".

Definition plain_frame (site : jsstring) : jsstring :=
  str "    at " ++ site.

End Trail.

(** ** Fallbacks: auxiliary notions *)
Module Fallbacks.
Import Order.

(** A middleware that calls its continuation once, from a frame of its
    own and without a fallback, and does not call it again. *)
Inductive passing {F : Type} : Prog F → Prop :=
| passing_Next (lastCall : jsstring) (k : Settled → Prog F) :
    (∀ r, direct (k r)) → passing (Next (Some lastCall) None k)
| passing_Do (f : World → World) (k : Prog F) :
    passing k → passing (Do f k)
| passing_Get (k : World → Prog F) :
    (∀ w, passing (k w)) → passing (Get k).

(** A middleware that calls its continuation once, from a frame of its
    own and with the fallback [fb], and does not call it again. *)
Inductive offering {F : Type} (fb : F) : Prog F → Prop :=
| offering_Next (lastCall : jsstring) (k : Settled → Prog F) :
    (∀ r, direct (k r)) → offering fb (Next (Some lastCall) (Some fb) k)
| offering_Do (f : World → World) (k : Prog F) :
    offering fb k → offering fb (Do f k)
| offering_Get (k : World → Prog F) :
    (∀ w, offering fb (k w)) → offering fb (Get k).

(** The dispatch with token [counter] is at cursor [i], [fs] are the
    fallbacks pushed, and [l] the positions invoked so far. *)
Definition at_cursor (counter : N) (fs : list Fallback) (i : nat)
    (l : list nat) (st : State) : Prop :=
  counter ∈ st.(_middlewareSet) ∧ st.(pushed) = fs ∧ st.(index) = i ∧
  invoked st.(trace) = l.

End Fallbacks.

(** * Properties *)

(** ** Strings and patterns *)
Section StringFacts.

Lemma startsWith_prefix p s : startsWith p s = true ↔ ∃ r, s = p ++ r.
Proof.
  revert s; induction p as [|a p IH]; intros s; simpl.
  - split; [eauto | done].
  - destruct s as [|b s]; simpl.
    + split; [done | intros [r Hr]; discriminate].
    + rewrite andb_true_iff, N.eqb_eq, IH. split.
      * intros [-> [r ->]]. eauto.
      * intros [r Hr]. injection Hr as -> ->. eauto.
Qed.

Lemma startsWith_nil_l (s : jsstring) : startsWith [] s = true.
Proof. by destruct s. Qed.

Lemma star_sound (p : char → bool) (s : jsstring) :
  ∀ pos caps (k : Cont) x,
    star p pos s caps k = Some x →
    ∃ m rest, s = m ++ rest ∧ Forall (λ c, p c = true) m ∧
              k (pos + length m) rest caps = Some x.
Proof.
  induction s as [|c s IH]; intros pos caps k x; simpl.
  - intros H. exists [], []. by rewrite Nat.add_0_r.
  - destruct (p c) eqn:Hc.
    + destruct (star p (S pos) s caps k) as [y|] eqn:E.
      * intros [= ->]. destruct (IH _ _ _ _ E) as (m & rest & -> & Hm & Hk).
        exists (c :: m), rest. split_and!; [done | by constructor |].
        simpl. by rewrite Nat.add_succ_r.
      * intros H. exists [], (c :: s). by rewrite Nat.add_0_r.
    + intros H. exists [], (c :: s). by rewrite Nat.add_0_r.
Qed.

(** The matcher finds only what the pattern can match. *)
Lemma matchK_sound (r : RegExp) :
  ∀ pos s caps (k : Cont) x,
    matchK r pos s caps k = Some x →
    ∃ m rest caps', s = m ++ rest ∧ Matches r pos m rest ∧
                    k (pos + length m) rest caps' = Some x.
Proof.
  induction r as [| l | p | r1 IH1 r2 IH2 | r1 IH1 r2 IH2 | r1 IH1 | p | p
                  | r1 IH1 | |];
    intros pos s caps k x; simpl.
  - intros H. exists [], s, caps. rewrite Nat.add_0_r. by repeat constructor.
  - destruct (startsWith l s) eqn:E; [| done].
    apply startsWith_prefix in E as [rest ->]. rewrite drop_app_length.
    intros H. exists l, rest, caps. by repeat constructor.
  - destruct s as [|c s]; [done |]. destruct (p c) eqn:Hc; [| done].
    intros H. exists [c], s, caps. simpl. rewrite Nat.add_1_r.
    split_and!; [done | by constructor | done].
  - intros H. apply IH1 in H as (m1 & rest1 & caps1 & -> & H1 & H).
    apply IH2 in H as (m2 & rest2 & caps2 & -> & H2 & H).
    exists (m1 ++ m2), rest2, caps2.
    rewrite length_app, Nat.add_assoc, <- app_assoc.
    split_and!; [done | by constructor | done].
  - destruct (matchK r1 pos s caps k) as [y|] eqn:E.
    + intros [= ->]. apply IH1 in E as (m & rest & caps' & -> & H1 & H).
      exists m, rest, caps'. split_and!; [done | by apply M_AltL | done].
    + intros H. apply IH2 in H as (m & rest & caps' & -> & H2 & H).
      exists m, rest, caps'. split_and!; [done | by apply M_AltR | done].
  - destruct (matchK r1 pos s caps k) as [y|] eqn:E.
    + intros [= ->]. apply IH1 in E as (m & rest & caps' & -> & H1 & H).
      exists m, rest, caps'. split_and!; [done | by apply M_OptSome | done].
    + intros H. exists [], s, caps. rewrite Nat.add_0_r.
      split_and!; [done | apply M_OptNone | done].
  - intros H. apply star_sound in H as (m & rest & -> & Hm & H).
    exists m, rest, caps. split_and!; [done | by constructor | done].
  - destruct s as [|c s]; [done |]. destruct (p c) eqn:Hc; [| done].
    intros H. apply star_sound in H as (m & rest & -> & Hm & H).
    exists (c :: m), rest, caps. simpl. rewrite <- Nat.add_succ_comm.
    split_and!; [done | by repeat constructor | done].
  - intros H. apply IH1 in H as (m & rest & caps' & -> & H1 & H).
    eexists m, rest, _. split_and!; [done | by constructor | exact H].
  - destruct (pos =? 0)%nat eqn:E; [| done]. apply Nat.eqb_eq in E as ->.
    intros H. exists [], s, caps. by repeat constructor.
  - destruct s; [| done]. intros H. exists [], [], caps.
    rewrite Nat.add_0_r. by repeat constructor.
Qed.

End StringFacts.

(** ** The help plugin *)
Section HelpFacts.
Import Help Samples.

Lemma create_apply (app : Listeners) (cmd : Command) :
  create (apply app) cmd = new_command (create app cmd).
Proof. unfold create, apply; simpl. by rewrite foldl_app. Qed.

(** C10: once [apply] has run, a command node that is created goes through
    the listener of 'new-command': its list of examples is empty and the
    option '-h, --help' is registered on it, hidden. This holds whatever
    listeners were registered before. *)
Theorem new_command_initialises (app : Listeners) (cmd : Command) :
  (create (apply app) cmd).(_examples) = Some [] ∧
  {| rawName := str "-h, --help"; description := help_description;
     config := {| hidden := true |} |} ∈ (create (apply app) cmd).(_options) ∧
  (create (apply app) cmd).(name) = (create app cmd).(name).
Proof.
  rewrite create_apply. unfold new_command, option_, set_examples; simpl.
  split_and!; [done | | done].
  apply elem_of_app. right. apply list_elem_of_singleton. done.
Qed.

(** C9: the hook of 'before-command'. When the command has no action, or
    the option [help] is set, it calls [app.execute] for the command 'help'
    with the name of the command as the only argument and returns [true];
    otherwise it returns nothing and leaves the world as it is. *)
Theorem before_command_redirects_to_help (argv : Argv) (w : World) :
  (argv.(command).(_action) = false ∨ truthy (help_option argv) = true →
     before_command argv w =
       (Bool true, call (AppExecute (str "help") [argv.(command).(name)]) w)) ∧
  (argv.(command).(_action) = true ∧ truthy (help_option argv) = false →
     before_command argv w = (Undefined, w)).
Proof.
  unfold before_command. split.
  - intros [-> | ->]; [done |]. by rewrite andb_false_r.
  - by intros [-> ->].
Qed.

Lemma before_command_redirects_to_help_witness :
  before_command ping_help world0 =
    (Bool true, call (AppExecute (str "help") [str "ping"]) world0) ∧
  before_command ping_plain world0 = (Undefined, world0).
Proof.
  split.
  - apply (proj1 (before_command_redirects_to_help ping_help world0)).
    right. reflexivity.
  - apply (proj2 (before_command_redirects_to_help ping_plain world0)).
    split; reflexivity.
Defined.

End HelpFacts.

(** ** [createLeadingRE] on an empty list *)
Section EmptyList.

(** A message that is not empty is not matched by [/^$/]. *)
Lemma createLeadingRE_nil_nonempty (prefix suffix : RegExp) (c : char)
    (s : jsstring) :
  match_ (c :: s) (createLeadingRE [] prefix suffix) = None.
Proof.
  unfold match_, createLeadingRE; simpl.
  assert (H : ∀ (t : jsstring) (pos : nat),
             search (Seq Bol Eol) (S pos) t = None).
  { induction t as [|a t IH]; intros pos; simpl; [done | apply IH]. }
  by rewrite H.
Qed.

(** C7: for an empty list of patterns [createLeadingRE] returns [/^$/],
    and that pattern matches the empty message, with an empty match. So the
    matcher of an empty list does match a message; with no bot identity
    known yet, an empty group message counts as an at-mention. *)
Theorem createLeadingRE_nil_matches_empty_message (prefix suffix : RegExp) :
  match_ [] (createLeadingRE [] prefix suffix) = Some [[]] ∧
  (strip (Some (prepare [])) (nameRE {| o_prefix := None; o_nickname := None |})
     (prefixRE {| o_prefix := Some (Array []); o_nickname := None |})
     group []) =
    {| atMe := true; nickname := []; prefix := Some []; message := [] |}.
Proof. split; reflexivity. Qed.

End EmptyList.

(** ** The continuation [next] *)
Section Continuation.
Import Dispatcher Samples.

Lemma trail_live (lastCall : jsstring) (st : State) :
  (trail lastCall st).(_middlewareSet) = st.(_middlewareSet) ∧
  (trail lastCall st).(world) = st.(world) ∧
  (trail lastCall st).(index) = st.(index) ∧
  (trail lastCall st).(pushed) = st.(pushed) ∧
  (trail lastCall st).(trace) = st.(trace) ∧
  (trail lastCall st).(_middlewareCounter) = st.(_middlewareCounter).
Proof. unfold trail. by destruct (index st =? 0)%nat. Qed.

(** C1: when the token of a dispatch is no longer in the live set, a call
    of its continuation from a caller that has a stack frame raises the
    error 'isolated next function detected', which the [catch] block logs,
    and invokes nothing. A call from a caller without a frame, as the
    reaction of a promise is, does not get that far once the cursor has
    left 0, as it has after the first call of the dispatch: [lastCall] is
    undefined, [lastCall.match] throws outside the [try] statement, and the
    promise of the call rejects with that TypeError. Nothing is invoked, but
    the stale call is not detected and nothing is logged. *)
Theorem stale_next_without_a_frame_is_not_reported {F : Type} (counter : N)
    (push : F → State → State)
    (invoke : nat → State → option (Completion * State))
    (fallback : option F) (st : State) :
  counter ∉ st.(_middlewareSet) → st.(index) ≠ 0 →
  next counter push invoke None fallback st = (Rejected undefined_match, st) ∧
  ∀ frame,
    next counter push invoke (Some frame) fallback st =
      (Fulfilled Undefined,
       act (Warn (st.(world).(session).(s_message) ++ [0x0A%N]
                  ++ slice_to (isolated_header ++ frame)
                       (indexOf frame (isolated_header ++ frame))
                  ++ str "Middleware stack:" ++ (trail frame st).(stack)))
         (trail frame st)).
Proof.
  intros Hstale Hindex. split.
  - unfold next. apply Nat.eqb_neq in Hindex. by rewrite Hindex.
  - intros frame.
    destruct (trail_live frame st) as (Hset & Hw & _).
    unfold next, guarded, try_block.
    rewrite bool_decide_true by (by rewrite Hset).
    unfold catch_block. cbn [isNativeError new_Error default from_option].
    by rewrite Hw.
Qed.

End Continuation.

(** ** The chain of middlewares *)
Section Chain.
Import Dispatcher Samples.

Lemma stale_next_without_a_frame_is_not_reported_witness :
  let st := (_applyMiddlewares [(always, pass)] line254 state0).2 in
  (0%N ∉ st.(_middlewareSet)) ∧ st.(index) = 2 ∧
  next 0%N push (invoke 0%N [pass] 0) None None st =
    (Rejected undefined_match, st) ∧
  next 0%N push (invoke 0%N [pass] 0)
    (Some (str "    at Timeout._onTimeout (plugin.js:9:5)")) None st =
    (Fulfilled Undefined,
     act (Warn (str "ping
Error: isolated next function detected
    at next (app.ts)
Middleware stack:
  - plugin.js:9:5
  - plugin.js:3:10"))
       (trail (str "    at Timeout._onTimeout (plugin.js:9:5)") st)).
Proof.
  assert (H : 0%N ∉ (_applyMiddlewares [(always, pass)] line254 state0).2.(_middlewareSet)).
  { vm_compute. intros H. discriminate H. }
  assert (Hi : (_applyMiddlewares [(always, pass)] line254 state0).2.(index) ≠ 0)
    by (vm_compute; discriminate).
  destruct (stale_next_without_a_frame_is_not_reported 0%N push
              (invoke 0%N [pass] 0) None _ H Hi) as [Hnone Hsome].
  split; [exact H |]. split; [reflexivity |]. split; [exact Hnone |].
  etrans; [apply Hsome |]. vm_compute. reflexivity.
Defined.

Lemma snapshot_cons_true (ctx : Context) (m : Middleware) (rest : Hooks)
    (s : Session) :
  ctx s = true → snapshot ((ctx, m) :: rest) s = m :: snapshot rest s.
Proof. intros H. unfold snapshot. by rewrite filter_cons_True. Qed.

(** The first call of [next], in the state that the preparation leaves. *)
Lemma next_first (counter : N) (m : Middleware) (ms : list Middleware)
    (lastCall : jsstring) (st : State) :
  st.(index) = 0 → counter ∈ st.(_middlewareSet) →
  next counter push (invoke counter (m :: ms) 0) (Some lastCall) None st =
    match exec m (next counter push (invoke counter ms 1))
            (act (Invoke 0) (set_index 1 st)) with
    | (Returns v, st') => (Fulfilled v, st')
    | (ReturnsPromise p, st') => (p, st')
    | (Throws error, st') =>
        (Fulfilled Undefined, catch_block (Some lastCall) error st')
    end.
Proof.
  intros Hi Hlive. unfold next at 1, guarded, trail, try_block. rewrite Hi.
  simpl.
  rewrite bool_decide_false by (intros H; by apply H).
  rewrite Hi. reflexivity.
Qed.

(** A middleware that throws: the [catch] block logs the error, the
    promise of [next] is fulfilled and the cleanup runs. *)
Lemma thrown_error_is_caught (e : Value) (rest : Hooks) (lastCall : jsstring)
    (st : State) :
  _applyMiddlewares ((always, Done (Throws e)) :: rest) lastCall st =
    (Fulfilled Undefined,
     cleanup st.(_middlewareCounter)
       (catch_block (Some lastCall) e
          (act (Invoke 0) (set_index 1 (prepare st).2)))).
Proof.
  unfold _applyMiddlewares, prepare. cbv beta iota zeta.
  rewrite snapshot_cons_true by done.
  rewrite next_first;
    [| done | simpl; apply elem_of_union_l; by apply elem_of_singleton].
  reflexivity.
Qed.

(** C2: a middleware whose promise rejects. The promise is returned from the
    [try] block without being awaited there, so the [catch] block does not
    run: nothing is logged, the promise of [next] rejects, [await next()]
    throws in [_applyMiddlewares], the cleanup is skipped (the token stays in
    the live set) and the promise of [_applyMiddlewares] rejects. *)
Theorem rejected_promise_escapes_the_catch (e : Value) (rest : Hooks)
    (lastCall : jsstring) (st : State) :
  _applyMiddlewares ((always, Done (ReturnsPromise (Rejected e))) :: rest)
    lastCall st =
  (Rejected e,
   {| world := st.(world);
      _middlewareCounter := increment st.(_middlewareCounter);
      _middlewareSet := {[st.(_middlewareCounter)]} ∪ st.(_middlewareSet);
      index := 1; stack := []; pushed := [];
      trace := st.(trace) ++ [SetAdd st.(_middlewareCounter); Invoke 0] |}).
Proof.
  unfold _applyMiddlewares, prepare. cbv beta iota zeta.
  rewrite snapshot_cons_true by done.
  rewrite next_first;
    [| done | simpl; apply elem_of_union_l; by apply elem_of_singleton].
  simpl. unfold act; simpl. by rewrite <- app_assoc.
Qed.

(** A dispatch in which the second middleware throws: the warning carries
    the message, the error and the trail of the calls of [next]. *)
Example thrown_error_trace :
  (_applyMiddlewares [(always, pass); (always, throwing); (always, silent)]
     line254 state0).2.(trace) =
  [SetAdd 0%N; Invoke 0; Invoke 1;
   Warn (str "ping
Error: boom
    at next (app.ts)
Middleware stack:
  - plugin.js:3:10");
   SetDelete 0%N; EmitAfterMiddleware].
Proof. reflexivity. Qed.

(** *** [invoke] is the indexing of [middlewares] *)

(** The element at the cursor is the one that is invoked. *)
Lemma invoke_at (counter : N) (ms : list Middleware) :
  ∀ i0 j m st, ms !! j = Some m →
    invoke counter ms i0 (i0 + j) st =
      Some (exec m
              (next counter push (invoke counter (drop (S j) ms) (S (i0 + j))))
              (act (Invoke (i0 + j)) st)).
Proof.
  induction ms as [|m' ms IH]; intros i0 j m st Hj; [done |].
  destruct j as [|j]; simpl in *.
  - injection Hj as ->. by rewrite Nat.add_0_r, Nat.eqb_refl.
  - rewrite (proj2 (Nat.eqb_neq _ _)) by lia.
    rewrite <- Nat.add_succ_comm. by apply IH.
Qed.

Lemma invoke_pushed_at (counter : N) (fs : list Fallback) :
  ∀ i0 j f st, fs !! j = Some f →
    invoke_pushed counter fs i0 (i0 + j) st =
      Some (exec f
              (next counter no_push
                 (invoke_pushed counter (drop (S j) fs) (S (i0 + j))))
              (act (Invoke (i0 + j)) st)).
Proof.
  induction fs as [|f' fs IH]; intros i0 j f st Hj; [done |].
  destruct j as [|j]; simpl in *.
  - injection Hj as ->. by rewrite Nat.add_0_r, Nat.eqb_refl.
  - rewrite (proj2 (Nat.eqb_neq _ _)) by lia.
    rewrite <- Nat.add_succ_comm. by apply IH.
Qed.

Lemma invoke_pushed_none (counter : N) (fs : list Fallback) :
  ∀ i0 j st, length fs ≤ j → invoke_pushed counter fs i0 (i0 + j) st = None.
Proof.
  induction fs as [|f fs IH]; intros i0 j st Hj; [done |].
  simpl in *. destruct j as [|j]; [lia |].
  rewrite (proj2 (Nat.eqb_neq _ _)) by lia.
  rewrite <- Nat.add_succ_comm. apply IH. lia.
Qed.

(** Behind the snapshot come the pushed elements. *)
Lemma invoke_past (counter : N) (ms : list Middleware) :
  ∀ i0 j st,
    invoke counter ms i0 (i0 + length ms + j) st =
      invoke_pushed counter st.(pushed) (i0 + length ms)
        (i0 + length ms + j) st.
Proof.
  induction ms as [|m ms IH]; intros i0 j st; simpl.
  - by rewrite Nat.add_0_r.
  - rewrite (proj2 (Nat.eqb_neq _ _)) by lia.
    rewrite <- !Nat.add_succ_comm. apply IH.
Qed.

(** There is one closure [next]: the continuation of a later element does
    what the continuation of the first one does, once the cursor has passed
    the elements between them. *)
Lemma invoke_skip (counter : N) (ms : list Middleware) :
  ∀ n i0 i st, n ≤ length ms → i0 + n ≤ i →
    invoke counter ms i0 i st = invoke counter (drop n ms) (i0 + n) i st.
Proof.
  induction ms as [|m ms IH]; intros n i0 i st Hn Hi.
  - destruct n; simpl in *; [by rewrite Nat.add_0_r | lia].
  - destruct n as [|n]; simpl in *; [by rewrite Nat.add_0_r |].
    rewrite (proj2 (Nat.eqb_neq _ _)) by lia.
    rewrite <- Nat.add_succ_comm. apply IH; lia.
Qed.

(** *** What a run of the chain can do to the state *)

Lemma grows_refl (st : State) : grows st st.
Proof.
  split; [| done]. exists []. by rewrite app_nil_r.
Qed.

Lemma grows_trans (st1 st2 st3 : State) :
  grows st1 st2 → grows st2 st3 → grows st1 st3.
Proof.
  intros [(b1 & H1 & F1) (S1 & C1 & I1)] [(b2 & H2 & F2) (S2 & C2 & I2)].
  split; [| split_and!; [congruence | congruence | lia]].
  exists (b1 ++ b2). split.
  - by rewrite H2, H1, app_assoc.
  - by apply Forall_app.
Qed.

Lemma grows_act (a : Action) (st : State) :
  chain_action a → grows st (act a st).
Proof.
  intros Ha. split; [| done]. exists [a]. split; [done |].
  by apply Forall_singleton.
Qed.

Lemma grows_same (st st' : State) :
  st'.(trace) = st.(trace) →
  st'.(_middlewareSet) = st.(_middlewareSet) →
  st'.(_middlewareCounter) = st.(_middlewareCounter) →
  st.(index) ≤ st'.(index) →
  grows st st'.
Proof.
  intros Ht Hs Hc Hi. split; [| done]. exists []. by rewrite app_nil_r.
Qed.

Lemma grows_trail (lastCall : jsstring) (st : State) :
  grows st (trail lastCall st).
Proof.
  destruct (trail_live lastCall st) as (? & _ & Hi & _ & ? & ?).
  apply grows_same; try done. by rewrite Hi.
Qed.

Lemma exec_grows {F : Type} (p : Prog F) (next : NextFunction F) :
  (∀ lastCall fallback st, grows st (next lastCall fallback st).2) →
  ∀ st, grows st (exec p next st).2.
Proof.
  intros Hnext. induction p as [c | f k IH | k IH | lc fb k IH]; intros st; simpl.
  - apply grows_refl.
  - eapply grows_trans; [| apply IH]. by apply grows_same.
  - apply IH.
  - specialize (Hnext lc fb st). destruct (next lc fb st) as [r st1].
    eapply grows_trans; [exact Hnext | apply IH].
Qed.

Lemma try_block_grows {F : Type} (counter : N) (push : F → State → State)
    (invoke : nat → State → option (Completion * State)) :
  (∀ f st, grows st (push f st)) →
  (∀ i st r, invoke i st = Some r → grows st r.2) →
  ∀ lastCall fallback st,
    grows st (try_block counter push invoke lastCall fallback st).2.
Proof.
  intros Hpush Hinv lastCall fallback st.
  unfold try_block. case_bool_decide; [apply grows_refl |].
  set (st1 := match fallback with Some f => push f st | None => st end).
  assert (H1 : grows st st1).
  { subst st1. destruct fallback; [apply Hpush | apply grows_refl]. }
  eapply grows_trans; [exact H1 |].
  destruct (invoke (index st1) (set_index (S (index st1)) st1)) as [r|] eqn:E.
  - eapply grows_trans; [| exact (Hinv _ _ _ E)].
    apply grows_same; simpl; try done. lia.
  - apply grows_same; simpl; try done. lia.
Qed.

Lemma next_grows {F : Type} (counter : N) (push : F → State → State)
    (invoke : nat → State → option (Completion * State)) :
  (∀ f st, grows st (push f st)) →
  (∀ i st r, invoke i st = Some r → grows st r.2) →
  ∀ lastCall fallback st,
    grows st (next counter push invoke lastCall fallback st).2.
Proof.
  intros Hpush Hinv lastCall fallback st.
  assert (Hguarded : ∀ s, grows s (guarded counter push invoke lastCall fallback s).2).
  { intros s. unfold guarded.
    pose proof (try_block_grows counter push invoke Hpush Hinv lastCall
                  fallback s) as Htry.
    destruct (try_block counter push invoke lastCall fallback s)
      as [[v | p | e] st1]; simpl in *; try exact Htry.
    eapply grows_trans; [exact Htry |]. by apply grows_act. }
  unfold next. destruct lastCall as [frame|].
  - eapply grows_trans; [apply grows_trail | apply Hguarded].
  - destruct (index st =? 0)%nat; [apply Hguarded | apply grows_refl].
Qed.

Lemma invoke_pushed_grows (counter : N) (fs : list Fallback) :
  ∀ i0 i st r, invoke_pushed counter fs i0 i st = Some r → grows st r.2.
Proof.
  induction fs as [|f fs IH]; intros i0 i st r; simpl; [done |].
  destruct (i =? i0)%nat; [| apply IH].
  intros [= <-]. eapply grows_trans; [by apply (grows_act (Invoke i)) |].
  apply exec_grows. apply next_grows; [intros [] | apply IH].
Qed.

Lemma invoke_grows (counter : N) (ms : list Middleware) :
  ∀ i0 i st r, invoke counter ms i0 i st = Some r → grows st r.2.
Proof.
  induction ms as [|m ms IH]; intros i0 i st r; simpl.
  - apply invoke_pushed_grows.
  - destruct (i =? i0)%nat; [| apply IH].
    intros [= <-]. eapply grows_trans; [by apply (grows_act (Invoke i)) |].
    apply exec_grows. apply next_grows; [| apply IH].
    intros f s. by apply grows_same.
Qed.

(** *** The cleanup *)

Lemma cleanup_trace (counter : N) (st : State) :
  (cleanup counter st).(trace) =
    st.(trace) ++ cleanup_actions counter (cleanup counter st).(world).(session) ∧
  (cleanup counter st).(world).(session) = st.(world).(session) ∧
  (cleanup counter st).(_middlewareSet) = st.(_middlewareSet) ∖ {[counter]}.
Proof.
  destruct st as [[[m t sid gid uid pa ar u g] cs] c live i k p tr].
  unfold cleanup, cleanup_actions.
  destruct u, g; simpl; rewrite <- ?app_assoc; done.
Qed.

(** C3: the cleanup of a dispatch runs once when the promise of the chain
    is fulfilled, and not at all when it rejects. In every dispatch the
    token is added and the chain runs, with no step of a cleanup among its
    actions. When the chain ran to its end, was cut short by a middleware,
    or stopped at an error that the continuation caught, the promise is
    fulfilled: the token is deleted, 'after-middleware' is emitted and each
    attached row is flushed, once, and the token has left the live set.
    When the promise of the chain rejects, nothing follows the actions of
    the chain and the token stays in the live set. The dispatch rejects for
    a middleware whose promise rejects, and for one that hands its
    continuation to a promise, where the continuation finds no frame of a
    caller. *)
Theorem cleanup_is_skipped_when_the_dispatch_rejects :
  (∀ (hooks : Hooks) (lastCall : jsstring) (st : State),
     let c := st.(_middlewareCounter) in
     let r := _applyMiddlewares hooks lastCall st in
     ∃ body,
       Forall chain_action body ∧
       match r.1 with
       | Fulfilled v =>
           v = Undefined ∧
           r.2.(trace) =
             st.(trace) ++ [SetAdd c] ++ body
               ++ cleanup_actions c r.2.(world).(session) ∧
           c ∉ r.2.(_middlewareSet)
       | Rejected _ =>
           r.2.(trace) = st.(trace) ++ [SetAdd c] ++ body ∧
           c ∈ r.2.(_middlewareSet)
       end) ∧
  (let r := _applyMiddlewares [(always, rejecting)] line254 state0 in
   r.1 = Rejected (Str (str "boom")) ∧
   r.2.(trace) = [SetAdd 0%N; Invoke 0] ∧
   r.2.(_middlewareSet) = {[0%N]}) ∧
  (let r := _applyMiddlewares [(always, then_next); (always, silent)]
              line254 state0 in
   r.1 = Rejected undefined_match ∧
   r.2.(trace) = [SetAdd 0%N; Invoke 0] ∧
   r.2.(_middlewareSet) = {[0%N]}).
Proof.
  split; [| by split_and!].
  intros hooks lastCall st c r. unfold r, _applyMiddlewares.
  destruct (prepare st) as [counter st1] eqn:Eprep.
  assert (counter = c) as -> by (by inversion Eprep).
  assert (Hst1 : st1.(trace) = st.(trace) ++ [SetAdd c] ∧
                 st1.(_middlewareSet) = {[c]} ∪ st.(_middlewareSet))
    by (by inversion Eprep).
  destruct Hst1 as (Htr1 & Hset1).
  set (inv := invoke c (snapshot hooks (session (world st1))) 0).
  assert (Hg : grows st1 (next c push inv (Some lastCall) None st1).2).
  { apply next_grows; [intros f s; by apply grows_same | apply invoke_grows]. }
  destruct (next c push inv (Some lastCall) None st1) as [[v | e] st2];
    simpl in *; destruct Hg as [(body & Hbody & Hchain) (Hset & _)];
    exists body; (split; [exact Hchain |]).
  - destruct (cleanup_trace c st2) as (Htr & Hsess & Hlive).
    split_and!; [done | |].
    + rewrite Htr, Hbody, Htr1. by rewrite <- !app_assoc.
    + rewrite Hlive. intros [_ H]%elem_of_difference.
      apply H. by apply elem_of_singleton.
  - split.
    + rewrite Hbody, Htr1. by rewrite <- !app_assoc.
    + rewrite Hset, Hset1. apply elem_of_union_l. by apply elem_of_singleton.
Qed.

End Chain.

(** ** The command dispatch trigger *)
Section Trigger.
Import Dispatcher Preprocess Samples.

(** C4: the trigger (lines 216 to 220), run with any continuation [next], in
    any state. With a command resolved, [command.execute] is called and its
    promise returned; the continuation has no part in the result, and when
    the trigger is an element of a chain, the chain invokes nothing after
    it. With no command resolved, the trigger calls the continuation, once
    and without a fallback, and returns its promise. *)
Theorem trigger_executes_or_continues (C : Collaborators)
    (lastCall : jsstring) (st : State) :
  (∀ argv, st.(world).(session).(s_argv) = Some argv →
     let w := call (Execute argv) (call (Parallelize "attach") st.(world)) in
     (∀ (next : NextFunction Fallback),
        exec (trigger C lastCall) next st =
          (ReturnsPromise (C.(execute) argv w).1,
           set_world (λ _, (C.(execute) argv w).2) st)) ∧
     (∀ counter ms i,
        invoke counter (trigger C lastCall :: ms) i i st =
          Some (ReturnsPromise (C.(execute) argv w).1,
                set_world (λ _, (C.(execute) argv w).2) (act (Invoke i) st)))) ∧
  (st.(world).(session).(s_argv) = None →
     ∀ (next : NextFunction Fallback),
       exec (trigger C lastCall) next st =
         (ReturnsPromise
            (next (Some lastCall) None
               (set_world (call (Parallelize "attach")) st)).1,
          (next (Some lastCall) None
             (set_world (call (Parallelize "attach")) st)).2)).
Proof.
  split.
  - intros argv Hargv w. split.
    + intros next. simpl. rewrite Hargv. reflexivity.
    + intros counter ms i. simpl. rewrite Nat.eqb_refl, Hargv. reflexivity.
  - intros Hargv next. simpl. rewrite Hargv. simpl.
    by destruct (next (Some lastCall) None _).
Qed.

(** Without a database every session reaches the trigger, with the parsed
    address and the resolved command stored in it. *)
Lemma preprocess_reaches_trigger (this : App) (C : Collaborators)
    (lastCall : jsstring) (next : NextFunction Fallback) (st : State) :
  this.(database) = false →
  exec (_preprocess this C lastCall) next st =
    exec (trigger C lastCall) next
      (set_world (set_session (λ _, parsed_session this C st.(world).(session)))
         st).
Proof.
  intros Hdb. unfold _preprocess. simpl. rewrite Hdb. reflexivity.
Qed.

(** The message 'ping' with the command resolved: the command answers and
    the second middleware is not invoked. *)
Example ping_is_executed :
  let app := {| _atMeRE := None; _nameRE := nameRE no_options;
                _prefixRE := prefixRE no_options; database := false |} in
  let r := _applyMiddlewares
             [(always, _preprocess app collaborators line219); (always, pass)]
             line254 state0 in
  r.1 = Fulfilled Undefined ∧
  r.2.(trace) = [SetAdd 0%N; Invoke 0; SetDelete 0%N; EmitAfterMiddleware] ∧
  r.2.(world).(calls) =
    [Parallelize "attach"; Execute ping_plain; Send (str "pong");
     Emit "after-middleware"].
Proof. split_and!; reflexivity. Qed.

Lemma trigger_executes_or_continues_witness :
  (∀ next : NextFunction Fallback,
     exec (trigger collaborators line219) next state_ping =
       (ReturnsPromise (Fulfilled Undefined),
        set_world
          (λ _, call (Send (str "pong"))
                  (call (Execute ping_plain)
                     (call (Parallelize "attach") state_ping.(world))))
          state_ping)) ∧
  (∀ next : NextFunction Fallback,
     exec (trigger collaborators line219) next state0 =
       (ReturnsPromise
          (next (Some line219) None
             (set_world (call (Parallelize "attach")) state0)).1,
        (next (Some line219) None
           (set_world (call (Parallelize "attach")) state0)).2)).
Proof.
  split.
  - exact (proj1 (proj1 (trigger_executes_or_continues collaborators line219
                           state_ping) ping_plain eq_refl)).
  - exact (proj2 (trigger_executes_or_continues collaborators line219 state0)
             eq_refl).
Defined.

End Trigger.

(** ** The attachment gate *)
Section Gate.
Import Dispatcher Preprocess Samples.

Lemma ToInt32_testbit (a : Z) (k : Z) :
  (0 ≤ k < 32)%Z → Z.testbit (ToInt32 a) k = Z.testbit a k.
Proof.
  intros Hk. unfold ToInt32.
  assert (Hm : Z.testbit (a mod 2 ^ 32) k = Z.testbit a k)
    by (apply Z.mod_pow2_bits_low; lia).
  destruct (2 ^ 31 <=? a mod 2 ^ 32)%Z; [| exact Hm].
  rewrite <- Hm.
  replace (a mod 2 ^ 32 - 2 ^ 32)%Z with (a mod 2 ^ 32 + (-1) * 2 ^ 32)%Z by lia.
  rewrite <- (Z.mod_pow2_bits_low _ 32 k) by lia.
  rewrite Z_mod_plus_full.
  apply Z.mod_pow2_bits_low; lia.
Qed.

(** [flag & mask] is not 0 when [mask] is bit [k] and [flag] has it. *)
Lemma bitand_bit (flag : Z) (k : Z) :
  (0 ≤ k < 32)%Z → Z.testbit flag k = true → bitand flag (2 ^ k) ≠ 0%Z.
Proof.
  intros Hk Hbit Hzero.
  assert (H : Z.testbit (bitand flag (2 ^ k)) k = true).
  { unfold bitand. rewrite Z.land_spec, !ToInt32_testbit by lia.
    rewrite Hbit, Z.pow2_bits_true by lia. done. }
  rewrite Hzero in H. by rewrite Z.bits_0 in H.
Qed.

Lemma preprocess_group_abort (this : App) (C : Collaborators)
    (lastCall : jsstring) (next : NextFunction Fallback) (st : State) :
  let s := st.(world).(session) in
  this.(database) = true →
  s.(messageType) = group →
  C.(attach_group) (set_group (group_row this C s) (parsed_session this C s)) = true ∨
  bitand (group_row this C s).(g_flag) C.(Group_Flag_ignore) ≠ 0%Z ∨
  ((group_row this C s).(assignee) ≠ s.(selfId) ∧ (address this C s).(atMe) = false) →
  exec (_preprocess this C lastCall) next st =
    (ReturnsPromise (Fulfilled Undefined),
     set_world (λ w,
       {| session := set_group (group_row this C s) (parsed_session this C s);
          calls := w.(calls) ++ [Emit "before-attach-group";
                                 ObserveGroup (group_fields this C s);
                                 Serialize "attach-group"] |}) st).
Proof.
  intros s Hdb Htype Hgate.
  unfold _preprocess. simpl. rewrite Hdb. fold s. rewrite Htype.
  unfold attach_group_row. simpl.
  unfold group_row, group_fields, parsed_session in *. simpl in Hgate.
  fold s.
  match goal with
  | |- exec (if ?a then _ else if ?b then _ else if ?c then _ else _) _ _ = _ =>
      assert (Hq : a = true ∨ b = true ∨ c = true)
  end.
  { destruct Hgate as [H | [H | [H1 H2]]]; [by left | right; left | right; right].
    - apply negb_true_iff, Z.eqb_neq, H.
    - apply andb_true_iff. split.
      + apply negb_true_iff, N.eqb_neq, H1.
      + by rewrite H2. }
  assert (Hend : ∀ st', exec quiet next st' = (ReturnsPromise (Fulfilled Undefined), st'))
    by done.
  repeat match goal with
         | |- context [if ?a then quiet else _] => destruct a eqn:?
         end;
    try (destruct Hq as [? | [? | ?]]; discriminate);
    rewrite Hend; f_equal; unfold set_world, observeGroup, set_session, call; simpl;
    rewrite <- !app_assoc; reflexivity.
Qed.
(** C5, as the code has it: with a database, for a group message whose
    session has no user row yet, [_preprocess] loads the group row; when its
    ignore bit is set, or when its assignee is not the receiving bot and
    the matcher has not flagged an at-mention ([atMe], which an at-mention
    of any known bot of the app sets), it returns without calling its
    continuation. The dispatch then ends with the cleanup: the user row was
    never observed and is not flushed, the group row is. *)
Theorem group_gate_aborts_before_user (this : App) (C : Collaborators)
    (ctx : Context) (rest : Hooks) (lastCall lastCall0 : jsstring)
    (st : State) (k : Z) :
  let s := st.(world).(session) in
  let c := st.(_middlewareCounter) in
  this.(database) = true →
  s.(messageType) = group →
  s.(s_user) = None →
  ctx s = true →
  C.(Group_Flag_ignore) = (2 ^ k)%Z → (0 ≤ k < 32)%Z →
  Z.testbit (group_row this C s).(g_flag) k = true ∨
  ((group_row this C s).(assignee) ≠ s.(selfId) ∧
   (address this C s).(atMe) = false) →
  ∃ st',
    _applyMiddlewares ((ctx, _preprocess this C lastCall) :: rest) lastCall0 st =
      (Fulfilled Undefined, st') ∧
    st'.(trace) =
      st.(trace) ++ [SetAdd c; Invoke 0; SetDelete c; EmitAfterMiddleware;
                     FlushGroup] ∧
    st'.(world).(calls) =
      st.(world).(calls) ++
        [Emit "before-attach-group"; ObserveGroup (group_fields this C s);
         Serialize "attach-group"; Emit "after-middleware"; UpdateGroup] ∧
    st'.(world).(session).(s_user) = None ∧
    st'.(world).(session).(s_group) = Some (group_row this C s) ∧
    st'.(index) = 1.
Proof.
  intros s c Hdb Htype Huser Hctx Hmask Hk Hgate.
  unfold _applyMiddlewares, prepare. cbv beta iota zeta.
  rewrite snapshot_cons_true by exact Hctx.
  rewrite next_first;
    [| done | simpl; apply elem_of_union_l; by apply elem_of_singleton].
  rewrite preprocess_group_abort; [| exact Hdb | exact Htype |].
  2:{ right. destruct Hgate as [Hbit | Hother]; [left | by right].
      simpl. fold s. rewrite Hmask. by apply bitand_bit. }
  eexists. split; [reflexivity |].
  unfold cleanup. simpl. fold s. rewrite Huser. simpl.
  rewrite <- !app_assoc. done.
Qed.
Lemma group_gate_aborts_before_user_witness :
  let s := state_group_hello.(world).(session) in
  ∃ st',
    _applyMiddlewares
      [(always, _preprocess app_with_database collaborators line219)]
      line254 state_group_hello = (Fulfilled Undefined, st') ∧
    st'.(trace) =
      [] ++ [SetAdd 0%N; Invoke 0; SetDelete 0%N; EmitAfterMiddleware;
             FlushGroup] ∧
    st'.(world).(calls) =
      [] ++ [Emit "before-attach-group";
             ObserveGroup (group_fields app_with_database collaborators s);
             Serialize "attach-group"; Emit "after-middleware"; UpdateGroup] ∧
    st'.(world).(session).(s_user) = None ∧
    st'.(world).(session).(s_group) =
      Some (group_row app_with_database collaborators s) ∧
    st'.(index) = 1.
Proof.
  apply (group_gate_aborts_before_user app_with_database collaborators always
           [] line219 line254 state_group_hello 0);
    [reflexivity | reflexivity | reflexivity | reflexivity | reflexivity
    | lia |].
  right. split; [vm_compute; discriminate | vm_compute; reflexivity].
Defined.

(** C5 as stated fails: bot 111 receives a group message that mentions bot
    222, in a group assigned to bot 222. The assignee is not the receiving
    bot and the message is no at-mention of the receiving bot, but the
    matcher sets [atMe], the gate lets the message pass, and the user row is
    observed and flushed. *)
Lemma group_gate_counterexample :
  let s := state_at_222.(world).(session) in
  let st' := (_applyMiddlewares
                [(always, _preprocess app_with_database collaborators line219)]
                line254 state_at_222).2 in
  (group_row app_with_database collaborators s).(assignee) ≠ s.(selfId) ∧
  startsWith (str "[CQ:at,qq=111]") s.(s_message) = false ∧
  (address app_with_database collaborators s).(atMe) = true ∧
  observes_user st'.(world).(calls) = true ∧
  FlushUser ∈ st'.(trace).
Proof.
  split_and!; try (vm_compute; done).
  vm_compute. repeat constructor.
Qed.

End Gate.

(** ** The addressing matchers *)
Section Addressing.
Import Samples.

Lemma search_Bol_later (r : RegExp) (s : jsstring) :
  ∀ pos, search (Seq Bol r) (S pos) s = None.
Proof.
  induction s as [|c s IH]; intros pos; simpl; [done | apply IH].
Qed.

Lemma alternatives_literal (ps : list jsstring) (pos : nat) (m rest : jsstring) :
  ps ≠ [] → Matches (alternatives (map escapeRegex ps)) pos m rest → m ∈ ps.
Proof.
  induction ps as [|p ps IH]; [done |]. intros _.
  destruct ps as [|p' ps]; simpl.
  - inversion 1; subst. by left.
  - inversion 1; subst.
    + match goal with H : Matches (escapeRegex _) _ _ _ |- _ =>
        inversion H; subst end. by left.
    + right. by apply IH.
Qed.

(** A match of a pattern of [createLeadingRE] starts at the beginning of the
    text, with what the prefix fragment matches, one of the patterns and
    what the suffix fragment matches. *)
Lemma createLeadingRE_match (ps : list jsstring) (prefix suffix : RegExp)
    (s : jsstring) (capture : list jsstring) :
  ps ≠ [] →
  match_ s (createLeadingRE ps prefix suffix) = Some capture →
  ∃ m1 pat m3 rest,
    s = m1 ++ pat ++ m3 ++ rest ∧ pat ∈ ps ∧
    Matches prefix 0 m1 (pat ++ m3 ++ rest) ∧
    Matches suffix (length m1 + length pat) m3 rest.
Proof.
  intros Hps. unfold match_, createLeadingRE.
  destruct ps as [|p ps]; [done |].
  set (re := Seq Bol (Seq prefix (Seq (Capture _) suffix))).
  assert (Hsearch : ∀ x, search re 0 s = Some x →
            ∃ y, matchK re 0 s [] (λ e _ caps, Some (e, caps)) = Some y).
  { intros x. destruct s as [|c s]; simpl;
      destruct (matchK _ _ _ _ _) as [[e caps]|]; eauto; try done.
    subst re. by rewrite search_Bol_later. }
  destruct (search re 0 s) as [x|] eqn:E; [| done]. intros _.
  destruct (Hsearch x eq_refl) as [y Hy].
  apply matchK_sound in Hy as (m & rest & _ & -> & Hm & _).
  subst re.
  inversion Hm as [| | | ? ? ? mb m' ? Hb H' | | | | | | | | |]; subst.
  inversion Hb; subst. simpl in *.
  inversion H' as [| | | ? ? ? m1 m'' ? H1 H'' | | | | | | | | |]; subst.
  inversion H'' as [| | | ? ? ? pat m3 ? Hpat H3 | | | | | | | | |]; subst.
  inversion Hpat; subst.
  exists m1, pat, m3, rest. rewrite <- !app_assoc in *.
  split_and!; [done | | done |].
  - eapply alternatives_literal; [| eassumption]. done.
  - exact H3.
Qed.

Lemma leading_nil_none (prefix suffix : RegExp) (s : jsstring) :
  s ≠ [] → match_ s (createLeadingRE [] prefix suffix) = None.
Proof.
  destruct s as [|c s]; [done |]. intros _. apply createLeadingRE_nil_nonempty.
Qed.

Lemma prefixRE_no_match (options : AppOptions) (s : jsstring) :
  s ≠ [] →
  (∀ p, p ∈ prefixes options → startsWith p s = false) →
  match_ s (prefixRE options) = None.
Proof.
  intros Hs Hnone. unfold prefixRE.
  destruct (prefixes options) as [|p ps] eqn:Eps; [by apply leading_nil_none |].
  destruct (match_ s _) as [capture|] eqn:E; [exfalso | done].
  apply createLeadingRE_match in E as (m1 & pat & m3 & rest & -> & Hpat & H1 & _);
    [| done].
  inversion H1; subst. simpl in Hnone.
  specialize (Hnone pat Hpat).
  assert (startsWith pat (pat ++ m3 ++ rest) = true)
    by (apply startsWith_prefix; eauto).
  congruence.
Qed.

Lemma nameRE_no_match (options : AppOptions) (s : jsstring) :
  s ≠ [] →
  (∀ n, n ∈ nicknames options →
     startsWith n s = false ∧ startsWith (str "@" ++ n) s = false) →
  match_ s (nameRE options) = None.
Proof.
  intros Hs Hnone. unfold nameRE.
  destruct (nicknames options) as [|n ns] eqn:Ens; [by apply leading_nil_none |].
  destruct (match_ s _) as [capture|] eqn:E; [exfalso | done].
  apply createLeadingRE_match in E as (m1 & pat & m3 & rest & -> & Hpat & H1 & _);
    [| done].
  destruct (Hnone pat Hpat) as [Hplain Hat].
  inversion H1 as [| | | | | | ? ? ? ? Hlit | | | | | |]; subst.
  - inversion Hlit; subst.
    assert (startsWith (str "@" ++ pat) (str "@" ++ pat ++ m3 ++ rest) = true)
      by (apply startsWith_prefix; exists (m3 ++ rest); by rewrite <- !app_assoc).
    congruence.
  - assert (startsWith pat ([] ++ pat ++ m3 ++ rest) = true)
      by (apply startsWith_prefix; eauto).
    congruence.
Qed.

(** The text of an at-mention of the bot [id]. *)
Lemma atMeRE_no_match (bots : list Bot) (s : jsstring) :
  s ≠ [] →
  (∀ id, id ∈ selfIds bots →
     startsWith (str "[CQ:at,qq=" ++ id ++ str "]") s = false) →
  match_ s (prepare bots) = None.
Proof.
  intros Hs Hnone. unfold prepare.
  destruct (selfIds bots) as [|i ids] eqn:Eids; [by apply leading_nil_none |].
  destruct (match_ s _) as [capture|] eqn:E; [exfalso | done].
  apply createLeadingRE_match in E as (m1 & pat & m3 & rest & -> & Hpat & H1 & H3);
    [| done].
  specialize (Hnone pat Hpat).
  inversion H1; subst.
  inversion H3 as [| | | ? ? ? mb ms ? Hb _ | | | | | | | | |]; subst.
  inversion Hb; subst.
  assert (startsWith (str "[CQ:at,qq=" ++ pat ++ str "]")
            (str "[CQ:at,qq=" ++ pat ++ (str "]" ++ ms) ++ rest) = true)
    by (apply startsWith_prefix; exists (ms ++ rest); by rewrite <- !app_assoc).
  congruence.
Qed.

(** The prefix step when no prefix is configured: the pattern is built from
    the empty prefix, which every text begins with. *)
Lemma absent_prefix_step (options : AppOptions) (s : jsstring) :
  options.(o_prefix) = None →
  match_ s (prefixRE options) = Some [[]; []].
Proof.
  intros H. unfold prefixRE, prefixes. rewrite H. by destruct s.
Qed.

(** C6, as the code has it: the nickname and prefix matchers are built from
    the nicknames and from the prefixes; an absent prefix counts as the list
    of the empty prefix, which every message begins with. Take a message
    that is not empty, that is private or, with the at-mention pattern that
    [prepare] builds from the known bot identities, begins with no
    at-mention of a known bot, and that begins with no nickname, with or
    without [@] before it. When it begins with no prefix of the list, it is
    left as it is, with [atMe] false, an empty [nickname] and [prefix] null;
    when no prefix is configured, it is left as it is with [atMe] false, an
    empty [nickname] and the empty string as [prefix]. *)
Theorem unaddressed_message_is_unchanged (_atMeRE : option RegExp)
    (bots : list Bot) (options : AppOptions) (type : MessageType)
    (message : jsstring) :
  message ≠ [] →
  (type = private ∨
   (_atMeRE = Some (prepare bots) ∧
    ∀ id, id ∈ selfIds bots →
      startsWith (str "[CQ:at,qq=" ++ id ++ str "]") message = false)) →
  (∀ n, n ∈ nicknames options →
     startsWith n message = false ∧
     startsWith (str "@" ++ n) message = false) →
  ((∀ p, p ∈ prefixes options → startsWith p message = false) →
   strip _atMeRE (nameRE options) (prefixRE options) type message =
     {| atMe := false; nickname := []; prefix := None; message := message |}) ∧
  (options.(o_prefix) = None →
   strip _atMeRE (nameRE options) (prefixRE options) type message =
     {| atMe := false; nickname := []; prefix := Some [];
        message := message |}).
Proof.
  intros Hne Hat Hname. unfold strip.
  assert (Hat' : (if type is private then None
                  else match_ message (default Empty _atMeRE)) = None).
  { destruct Hat as [-> | [-> Hat]]; [done |].
    destruct type; [done | |]; by apply atMeRE_no_match. }
  rewrite Hat', nameRE_no_match by done. split.
  - intros Hprefix. by rewrite prefixRE_no_match.
  - intros Habsent. by rewrite absent_prefix_step.
Qed.

Lemma unaddressed_message_is_unchanged_witness :
  strip (Some (prepare two_bots)) (nameRE options_dot) (prefixRE options_dot)
    group (str "hello") =
    {| atMe := false; nickname := []; prefix := None;
       message := str "hello" |} ∧
  strip None (nameRE no_options) (prefixRE no_options) private (str "hello") =
    {| atMe := false; nickname := []; prefix := Some [];
       message := str "hello" |}.
Proof.
  split.
  - apply (unaddressed_message_is_unchanged (Some (prepare two_bots)) two_bots
             options_dot group (str "hello")).
    + discriminate.
    + right. split; [reflexivity |].
      intros id Hid. apply list_elem_of_In in Hid. vm_compute in Hid.
      destruct Hid as [<- | [<- | []]]; reflexivity.
    + intros n Hn. apply list_elem_of_In in Hn. vm_compute in Hn.
      destruct Hn as [<- | []]; split; reflexivity.
    + intros p Hp. apply list_elem_of_In in Hp. vm_compute in Hp.
      destruct Hp as [<- | []]; reflexivity.
  - apply (unaddressed_message_is_unchanged None [] no_options private
             (str "hello")).
    + discriminate.
    + by left.
    + intros n Hn. apply list_elem_of_In in Hn. vm_compute in Hn.
      destruct Hn.
    + reflexivity.
Defined.

(** C6 as stated fails: with no prefix and no nickname configured, the
    prefix matcher is built from the empty prefix, and a message gets the
    prefix [''], not null. *)
Lemma unaddressed_message_counterexample :
  no_options.(o_prefix) = None ∧ no_options.(o_nickname) = None ∧
  strip (Some (prepare [])) (nameRE no_options) (prefixRE no_options)
    private (str "hello") =
    {| atMe := false; nickname := []; prefix := Some [];
       message := str "hello" |}.
Proof. split_and!; reflexivity. Qed.

End Addressing.

(** ** The resolution of the bot identities *)
Section Identities.
Import SelfIds Samples.

Lemma run_cons (ev : Event) (evs : list Event) (s : Server) :
  run (ev :: evs) s = run evs (step s ev).
Proof. reflexivity. Qed.

Lemma elem_of_still_waiting (p : nat) (ws : list (nat * nat * list nat))
    (w : nat * nat * list nat) :
  w ∈ still_waiting p ws → w ∈ ws.
Proof. unfold still_waiting. rewrite list_elem_of_filter. tauto. Qed.

Lemma invariant_step (bs : list Bot) (c : bool) (s : Server) (ev : Event) :
  invariant bs c s → invariant bs (c || is_call ev) (step s ev).
Proof.
  destruct c; simpl.
  - intros ([p [Hp Hid]] & Hcreated & Hcalls & Hwait).
    destruct p as [pid pstate]; simpl in Hid; subst pid.
    destruct ev as [caller | i userId | i e]; simpl.
    + unfold getSelfIds. rewrite Hp; simpl; rewrite Hp.
      destruct pstate; simpl; (split; [eauto |]); split_and!; try done.
      intros w [Hw | Hw]%elem_of_app; [by apply Hwait |].
      apply list_elem_of_singleton in Hw. by subst w.
    + unfold loginInfo. case_bool_decide; [| by eauto 10].
      rewrite Hp. destruct pstate; simpl;
        try destruct (filter _ (inflight s)); simpl;
        (split; [eauto |]); split_and!; try done.
      intros w Hw%elem_of_still_waiting. by apply Hwait.
    + unfold loginError. case_bool_decide; [| by eauto 10].
      rewrite Hp. destruct pstate; simpl;
        (split; [eauto |]); split_and!; try done.
      intros w Hw%elem_of_still_waiting. by apply Hwait.
  - intros ->. destruct ev as [caller | i userId | i e]; simpl; [| done | done].
    unfold getSelfIds; simpl. fold (unresolved bs).
    destruct (unresolved bs) eqn:E; simpl; (split; [eauto |]);
      split_and!; try done.
    + intros w Hw. by apply elem_of_nil in Hw.
    + intros w Hw. apply list_elem_of_singleton in Hw. by subst w.
Qed.

Lemma invariant_run (bs : list Bot) (evs : list Event) :
  ∀ c s, invariant bs c s → invariant bs (c || called evs) (run evs s).
Proof.
  induction evs as [|ev evs IH]; intros c s Hs.
  - by rewrite orb_false_r.
  - rewrite run_cons. unfold called; simpl. rewrite orb_assoc.
    apply IH. by apply invariant_step.
Qed.

Lemma filter_eq_with_get (bs : list Bot) (i : nat) :
  ∀ i0, filter (λ j, j = i) (with_get bs i0) =
        if bool_decide (i0 ≤ i) && (if bs !! (i - i0) is Some bot then bot.(_get) else false)
        then [i] else [].
Proof.
  induction bs as [|bot bs IH]; intros i0; simpl.
  - by rewrite andb_false_r.
  - rewrite filter_app, IH.
    destruct (decide (i0 = i)) as [-> | Hne].
    + rewrite Nat.sub_diag; simpl.
      rewrite (bool_decide_false (S i ≤ i)) by lia.
      rewrite (bool_decide_true (i ≤ i)) by lia. simpl.
      destruct (_get bot); simpl; [| done].
      rewrite filter_cons_True by done. by rewrite filter_nil.
    + assert (Hfirst : filter (λ j, j = i) (if _get bot then [i0] else []) = []).
      { destruct (_get bot); [| done].
        rewrite filter_cons_False by done. by rewrite filter_nil. }
      rewrite Hfirst; simpl.
      destruct (decide (i0 ≤ i)) as [Hle | Hgt].
      * rewrite (bool_decide_true (S i0 ≤ i)), (bool_decide_true (i0 ≤ i)) by lia.
        replace (i - i0) with (S (i - S i0)) by lia. done.
      * by rewrite (bool_decide_false (S i0 ≤ i)), (bool_decide_false (i0 ≤ i)) by lia.
Qed.

Lemma filter_eq_filter {A : Type} `{EqDecision A} (P : A → Prop)
    `{∀ x, Decision (P x)} (i : A) (l : list A) :
  filter (λ j, j = i) (filter P l) =
    if decide (P i) then filter (λ j, j = i) l else [].
Proof.
  induction l as [|x l IH]; simpl.
  - by destruct (decide (P i)).
  - destruct (decide (P x)) as [Hx | Hx].
    + rewrite (filter_cons_True P) by done.
      destruct (decide (x = i)) as [-> | Hne].
      * rewrite !(filter_cons_True (λ j, j = i)) by done.
        rewrite IH. by destruct (decide (P i)).
      * rewrite !(filter_cons_False (λ j, j = i)) by done. apply IH.
    + rewrite (filter_cons_False P) by done. rewrite IH.
      destruct (decide (P i)) as [Hi | Hi]; [| done].
      rewrite filter_cons_False; [done |]. by intros ->.
Qed.

(** [getLoginInfo] is called once for a bot that has a sender and no
    identity, and not at all for another bot. *)
Lemma count_unresolved (bs : list Bot) (i : nat) :
  length (filter (λ j, j = i) (unresolved bs)) =
    if needs_login bs i then 1 else 0.
Proof.
  unfold unresolved, logins. rewrite filter_eq_filter, filter_eq_with_get.
  rewrite (bool_decide_true (0 ≤ i)) by lia. rewrite Nat.sub_0_r. simpl.
  unfold needs_login. destruct (bs !! i) as [bot|]; simpl.
  - destruct (has_selfId bot), (_get bot); simpl; try case_decide; done.
  - try case_decide; done.
Qed.

(** C8, as the code has it: in every run of the event loop from an app on
    which [getSelfIds] has not been called, whatever calls of [getSelfIds]
    and answers of the transport it consists of, there is at most one
    promise, every caller that waits awaits that promise, and
    [getLoginInfo] has been called exactly once for each bot that had a
    sender and no identity when [getSelfIds] was first called, and never
    for a bot whose identity was known. In particular a second call that
    comes before any answer joins the first one: both wait for the same
    promise and no further [getLoginInfo] is issued. *)
Theorem one_login_call_per_unresolved_bot (bs : list Bot) (evs : list Event) :
  (run evs (fresh bs)).(created) ≤ 1 ∧
  (∀ i, calls_of i (run evs (fresh bs)) =
          if called evs && needs_login bs i then 1 else 0) ∧
  (∀ w, w ∈ (run evs (fresh bs)).(waiting) → w.1.2 = 0) ∧
  (∀ a b, unresolved bs ≠ [] →
     (run [CallGetSelfIds a; CallGetSelfIds b] (fresh bs)).(waiting) =
       [(a, 0, with_get bs 0); (b, 0, with_get bs 0)] ∧
     (run [CallGetSelfIds a; CallGetSelfIds b] (fresh bs)).(inflight) =
       unresolved bs).
Proof.
  pose proof (invariant_run bs evs false (fresh bs) eq_refl) as Hinv.
  simpl in Hinv. split_and!.
  - destruct (called evs); simpl in Hinv.
    + destruct Hinv as (_ & -> & _). lia.
    + rewrite Hinv. simpl. lia.
  - intros i. unfold calls_of. destruct (called evs); simpl in *.
    + destruct Hinv as (_ & _ & -> & _). apply count_unresolved.
    + by rewrite Hinv.
  - intros w. destruct (called evs); simpl in *.
    + destruct Hinv as (_ & _ & _ & Hw). apply Hw.
    + rewrite Hinv. simpl. by intros ?%elem_of_nil.
  - intros a b Hne. unfold unresolved in *. unfold run; simpl.
    unfold getSelfIds; simpl.
    destruct (logins bs (with_get bs 0)) as [|n l]; [done |]. done.
Qed.

(** Two calls and then the answer of the transport: one call of
    [getLoginInfo], and both callers get the same list. *)
Example joined_calls :
  let s := run [CallGetSelfIds 7; CallGetSelfIds 8; LoginInfo 0 333%N]
             (fresh [bot_unknown; bot_111]) in
  s.(loginCalls) = [0] ∧
  s.(answered) = [(7, Ids [Some 333%N; Some 111%N]);
                  (8, Ids [Some 333%N; Some 111%N])] ∧
  s.(waiting) = [] ∧ s.(created) = 1.
Proof. split_and!; reflexivity. Qed.

(** C8 as stated fails for a bot whose identity is configured: two calls of
    [getSelfIds] make no call of its [getLoginInfo]. *)
Lemma one_login_call_counterexample :
  calls_of 0 (run [CallGetSelfIds 0; CallGetSelfIds 1] (fresh [bot_111])) = 0.
Proof. reflexivity. Qed.

Lemma one_login_call_per_unresolved_bot_witness :
  calls_of 0 (run [CallGetSelfIds 0; CallGetSelfIds 1; LoginInfo 0 333%N]
                (fresh [bot_unknown; bot_111])) = 1 ∧
  calls_of 1 (run [CallGetSelfIds 0; CallGetSelfIds 1; LoginInfo 0 333%N]
                (fresh [bot_unknown; bot_111])) = 0 ∧
  (run [CallGetSelfIds 7; CallGetSelfIds 8] (fresh [bot_unknown; bot_111])).(waiting) =
    [(7, 0, [0; 1]); (8, 0, [0; 1])].
Proof.
  pose proof (one_login_call_per_unresolved_bot [bot_unknown; bot_111]
                [CallGetSelfIds 0; CallGetSelfIds 1; LoginInfo 0 333%N])
    as (_ & Hcalls & _ & Htwo).
  split_and!.
  - exact (Hcalls 0).
  - exact (Hcalls 1).
  - apply (Htwo 7 8). discriminate.
Defined.

End Identities.

(** ** The order of the invocations *)
Section InvocationOrder.
Import Dispatcher Order Samples.

Lemma invoked_app (a b : list Action) : invoked (a ++ b) = invoked a ++ invoked b.
Proof. apply omap_app. Qed.

Lemma sorted_snoc (l : list nat) (i : nat) :
  StronglySorted lt l → Forall (λ j, j < i) l → StronglySorted lt (l ++ [i]).
Proof.
  induction 1 as [|x l Hl IH Hx]; intros Hi; simpl.
  - repeat constructor.
  - apply Forall_cons in Hi as [Hxi Hi]. constructor; [by apply IH |].
    apply Forall_app. split; [done | by apply Forall_singleton].
Qed.

Lemma in_order_weaken (base : list Action) (b b' : nat) (st st' : State) :
  in_order base b st → b ≤ b' → st'.(trace) = st.(trace) →
  in_order base b' st'.
Proof.
  intros (body & Ht & Hs & Hb) Hle Htr. exists body. rewrite Htr.
  split_and!; [done | done |].
  eapply Forall_impl; [exact Hb |]. simpl. intros; lia.
Qed.

Lemma in_order_warn (base : list Action) (b : nat) (text : jsstring)
    (st : State) :
  in_order base b st → in_order base b (act (Warn text) st).
Proof.
  intros (body & Ht & Hs & Hb). exists (body ++ [Warn text]). simpl.
  rewrite Ht, app_assoc, invoked_app. simpl. by rewrite app_nil_r.
Qed.

Lemma in_order_invoke (base : list Action) (i : nat) (st : State) :
  in_order base i st → in_order base (S i) (act (Invoke i) st).
Proof.
  intros (body & Ht & Hs & Hb). exists (body ++ [Invoke i]). simpl.
  rewrite Ht, app_assoc, invoked_app. simpl.
  split_and!; [done | by apply sorted_snoc |].
  apply Forall_app. split.
  - eapply Forall_impl; [exact Hb |]. simpl. intros; lia.
  - apply Forall_singleton. lia.
Qed.

Lemma exec_in_order {F : Type} (base : list Action) (p : Prog F)
    (next : NextFunction F) :
  (∀ lastCall fallback st,
     in_order base st.(index) st →
     in_order base (next lastCall fallback st).2.(index)
       (next lastCall fallback st).2) →
  ∀ st, in_order base st.(index) st →
        in_order base (exec p next st).2.(index) (exec p next st).2.
Proof.
  intros Hnext. induction p as [c | f k IH | k IH | lc fb k IH];
    intros st Hst; simpl.
  - done.
  - apply IH. by eapply in_order_weaken.
  - by apply IH.
  - specialize (Hnext lc fb st Hst). destruct (next lc fb st) as [r st1].
    by apply IH.
Qed.

Lemma next_in_order {F : Type} (base : list Action) (counter : N)
    (push : F → State → State)
    (invoke : nat → State → option (Completion * State)) :
  (∀ f st, (push f st).(trace) = st.(trace) ∧ (push f st).(index) = st.(index)) →
  (∀ i st r, in_order base i st → st.(index) = S i → invoke i st = Some r →
     in_order base r.2.(index) r.2) →
  ∀ lastCall fallback st,
    in_order base st.(index) st →
    in_order base (next counter push invoke lastCall fallback st).2.(index)
      (next counter push invoke lastCall fallback st).2.
Proof.
  intros Hpush Hinv lastCall fallback st Hst.
  assert (Hguarded : ∀ s, in_order base s.(index) s →
            in_order base (guarded counter push invoke lastCall fallback s).2.(index)
              (guarded counter push invoke lastCall fallback s).2);
    last first.
  { unfold next. destruct lastCall as [frame|].
    - apply Hguarded.
      destruct (trail_live frame st) as (_ & _ & Hi & _ & Ht & _).
      rewrite Hi. by eapply in_order_weaken.
    - destruct (index st =? 0)%nat; [by apply Hguarded | done]. }
  clear st Hst.
  intros st Hst. unfold guarded, try_block. case_bool_decide; simpl.
  { by apply in_order_warn. }
  set (st1 := match fallback with Some f => push f st | None => st end).
  assert (H1 : st1.(trace) = st.(trace) ∧ st1.(index) = st.(index)).
  { subst st1. destruct fallback; [apply Hpush | done]. }
  destruct H1 as [Htr Hidx].
  assert (H2 : in_order base (index st1) (set_index (S (index st1)) st1)).
  { rewrite Hidx. by eapply in_order_weaken. }
  destruct (invoke (index st1) (set_index (S (index st1)) st1))
    as [[c st2]|] eqn:E.
  - pose proof (Hinv _ _ _ H2 eq_refl E) as H3. simpl in H3.
    destruct c as [v | p | e]; simpl; [done | done |].
    by apply in_order_warn.
  - simpl. eapply in_order_weaken; [exact H2 | lia | done].
Qed.

Lemma invoke_pushed_in_order (base : list Action) (counter : N)
    (fs : list Fallback) :
  ∀ i0 i st r, in_order base i st → st.(index) = S i →
    invoke_pushed counter fs i0 i st = Some r →
    in_order base r.2.(index) r.2.
Proof.
  induction fs as [|f fs IH]; intros i0 i st r Hst Hi; simpl; [done |].
  destruct (i =? i0)%nat; [| by apply IH].
  intros [= <-]. apply exec_in_order.
  - apply next_in_order; [intros [] | apply IH].
  - simpl. rewrite Hi. by apply in_order_invoke.
Qed.

Lemma invoke_in_order (base : list Action) (counter : N)
    (ms : list Middleware) :
  ∀ i0 i st r, in_order base i st → st.(index) = S i →
    invoke counter ms i0 i st = Some r →
    in_order base r.2.(index) r.2.
Proof.
  induction ms as [|m ms IH]; intros i0 i st r Hst Hi; simpl.
  - by apply invoke_pushed_in_order.
  - destruct (i =? i0)%nat; [| by apply IH].
    intros [= <-]. apply exec_in_order.
    + apply next_in_order; [done | apply IH].
    + simpl. rewrite Hi. by apply in_order_invoke.
Qed.

Lemma invoked_cleanup_actions (counter : N) (s : Session) :
  invoked (cleanup_actions counter s) = [].
Proof. unfold cleanup_actions. by destruct (s_user s), (s_group s). Qed.

(** X1: in every dispatch, whatever the middlewares do with their
    continuation, the positions at which [_applyMiddlewares] invokes
    middlewares go strictly up: the middlewares run in the order of the
    array and none of them runs twice. *)
Theorem middlewares_run_in_order (hooks : Hooks) (lastCall : jsstring)
    (st : State) :
  ∃ body,
    (_applyMiddlewares hooks lastCall st).2.(trace) = st.(trace) ++ body ∧
    StronglySorted lt (invoked body) ∧
    NoDup (invoked body).
Proof.
  unfold _applyMiddlewares, prepare. cbv beta iota zeta.
  set (c := _middlewareCounter st).
  set (st1 := {| world := world st; _middlewareCounter := increment c;
                 _middlewareSet := {[c]} ∪ _middlewareSet st; index := 0;
                 stack := []; pushed := [];
                 trace := trace st ++ [SetAdd c] |}).
  assert (H1 : in_order (trace st ++ [SetAdd c]) (index st1) st1).
  { exists []. simpl. rewrite app_nil_r. repeat constructor. }
  pose proof (next_in_order (trace st ++ [SetAdd c]) c push
                (invoke c (snapshot hooks (session (world st1))) 0)
                (λ f s, conj eq_refl eq_refl)
                (invoke_in_order _ c _ 0) (Some lastCall) None st1 H1) as H2.
  destruct (next c push _ (Some lastCall) None st1) as [r st2]; simpl in *.
  destruct H2 as (body & Ht & Hs & _).
  assert (Hnodup : NoDup (invoked body)).
  { clear -Hs. induction Hs as [|x l Hl IH Hx]; constructor; [| done].
    intros Hin. eapply Forall_forall in Hx; [| exact Hin]. lia. }
  destruct r as [v | e]; simpl.
  - destruct (cleanup_trace c st2) as (Htr & _ & _).
    exists ([SetAdd c] ++ body ++ cleanup_actions c (cleanup c st2).(world).(session)).
    rewrite Htr, Ht, <- !app_assoc. split; [done |].
    simpl. rewrite invoked_app, invoked_cleanup_actions, app_nil_r. done.
  - exists ([SetAdd c] ++ body). rewrite Ht, <- !app_assoc. done.
Qed.

Lemma exec_direct {F : Type} (p : Prog F) (next : NextFunction F) :
  direct p → ∀ st, ∃ w, (exec p next st).2 = set_world (λ _, w) st.
Proof.
  induction 1 as [c | f k Hk IH | k Hk IH]; intros st; simpl.
  - exists st.(world). by destruct st.
  - destruct (IH (set_world f st)) as [w ->]. by exists w.
  - apply IH.
Qed.

(** X2: a middleware that returns, throws or rejects without having called
    its continuation is the last one to run: when it is the first of the
    snapshot, the dispatch invokes position 0 and nothing else, however many
    middlewares are registered behind it. *)
Theorem short_circuit_stops_the_chain (ctx : Context) (m : Middleware)
    (rest : Hooks) (lastCall : jsstring) (st : State) :
  ctx st.(world).(session) = true →
  direct m →
  ∃ body,
    (_applyMiddlewares ((ctx, m) :: rest) lastCall st).2.(trace) =
      st.(trace) ++ body ∧
    invoked body = [0] ∧
    (_applyMiddlewares ((ctx, m) :: rest) lastCall st).2.(index) = 1.
Proof.
  intros Hctx Hm. unfold _applyMiddlewares, prepare. cbv beta iota zeta.
  rewrite snapshot_cons_true by exact Hctx.
  rewrite next_first;
    [| done | simpl; apply elem_of_union_l; by apply elem_of_singleton].
  match goal with
  | |- context [exec m ?nx ?s] =>
      destruct (exec_direct m nx Hm s) as [w Hw];
      destruct (exec m nx s) as [c st2]
  end.
  simpl in Hw. subst st2.
  set (c0 := _middlewareCounter st).
  assert (Hclean : ∀ st2 extra,
            trace st2 = trace st ++ [SetAdd c0; Invoke 0] ++ extra →
            invoked extra = [] → index st2 = 1 →
            ∃ body, trace (cleanup c0 st2) = trace st ++ body ∧
                    invoked body = [0] ∧ index (cleanup c0 st2) = 1).
  { intros st2 extra Ht Hex Hi.
    destruct (cleanup_trace c0 st2) as (Htr & _ & _).
    eexists. rewrite Htr, Ht, <- !app_assoc. split; [reflexivity |].
    split.
    - simpl. by rewrite invoked_app, Hex, invoked_cleanup_actions.
    - destruct st2 as [[[? ? ? ? ? ? ? u g] ?] ? ? ? ? ? ?]. simpl in *.
      unfold cleanup; simpl. by destruct u, g. }
  destruct c as [v | [v | e] | e]; simpl.
  - apply (Hclean _ []); simpl; [by rewrite <- app_assoc | done | done].
  - apply (Hclean _ []); simpl; [by rewrite <- app_assoc | done | done].
  - exists [SetAdd c0; Invoke 0]. simpl. by rewrite <- app_assoc.
  - unfold catch_block. eapply (Hclean _ [Warn _]); simpl;
      [by rewrite <- !app_assoc | done | done].
Qed.

Lemma short_circuit_stops_the_chain_witness :
  ∃ body,
    (_applyMiddlewares [(always, silent); (always, pass); (always, throwing)]
       line254 state0).2.(trace) = [] ++ body ∧
    invoked body = [0] ∧
    (_applyMiddlewares [(always, silent); (always, pass); (always, throwing)]
       line254 state0).2.(index) = 1.
Proof.
  apply (short_circuit_stops_the_chain always silent
           [(always, pass); (always, throwing)] line254 state0).
  - reflexivity.
  - constructor.
Defined.

End InvocationOrder.

(** ** Fallbacks that come too late, and the live set *)
Section LateFallback.
Import Dispatcher Order Samples.

Lemma invoke_none_past (counter : N) (ms : list Middleware) (i : nat)
    (st : State) :
  length ms + length st.(pushed) ≤ i → invoke counter ms 0 i st = None.
Proof.
  intros Hi.
  replace i with (0 + length ms + (i - length ms)) by lia.
  rewrite invoke_past. rewrite <- Nat.add_assoc.
  replace (length ms + (i - length ms)) with (length ms + (i - length ms)) by lia.
  rewrite Nat.add_assoc. apply invoke_pushed_none. lia.
Qed.

(** X3: once a call of [next] has found no element at the cursor, the cursor
    is past the end of the array for good, and a fallback passed to a later
    call of [next] of that dispatch never runs. While the token is live, a
    call from a caller that has a stack frame returns [undefined] and
    invokes nothing: the fallback is pushed behind the cursor. A call from a
    caller without a frame throws at [lastCall.match] before the fallback is
    pushed: its promise rejects with the TypeError and nothing changes. *)
Theorem late_fallback_never_runs (counter : N) (ms : list Middleware)
    (fallback : option Fallback) (st : State) :
  counter ∈ st.(_middlewareSet) →
  length ms + length st.(pushed) < st.(index) →
  (∀ frame,
     let r := next counter push (invoke counter ms 0) (Some frame) fallback st in
     r.1 = Fulfilled Undefined ∧
     r.2.(trace) = st.(trace) ∧
     r.2.(world) = st.(world) ∧
     r.2.(pushed) = st.(pushed) ++ (if fallback is Some f then [f] else []) ∧
     length ms + length r.2.(pushed) < r.2.(index)) ∧
  next counter push (invoke counter ms 0) None fallback st =
    (Rejected undefined_match, st).
Proof.
  intros Hlive Hgap. split.
  - intros frame. unfold next, guarded.
    destruct (trail_live frame st) as (Hset & Hw & Hi & Hp & Ht & _).
    unfold try_block. rewrite bool_decide_false by (rewrite Hset; tauto).
    set (st0 := trail frame st) in *.
    set (st1 := match fallback with Some f => push f st0 | None => st0 end).
    assert (H1 : st1.(index) = st.(index) ∧ st1.(trace) = st.(trace) ∧
                 st1.(world) = st.(world) ∧
                 st1.(pushed) =
                   st.(pushed) ++ (if fallback is Some f then [f] else [])).
    { subst st1. destruct fallback; simpl; rewrite ?Hp, ?app_nil_r; done. }
    destruct H1 as (Hi1 & Ht1 & Hw1 & Hp1).
    rewrite invoke_none_past.
    + simpl. rewrite Hp1, length_app. split_and!; try done.
      destruct fallback; simpl; lia.
    + simpl. rewrite Hp1, length_app. destruct fallback; simpl; lia.
  - unfold next. destruct (index st =? 0)%nat eqn:E; [| done].
    apply Nat.eqb_eq in E. lia.
Qed.

Lemma late_fallback_never_runs_witness :
  (let r := next 0%N push (invoke 0%N [thrice last_resort] 0)
              (Some (str "    at thrice (plugin.js:5:10)")) (Some last_resort)
              state_past_end in
   r.1 = Fulfilled Undefined ∧
   r.2.(trace) = state_past_end.(trace) ∧
   r.2.(world) = state_past_end.(world) ∧
   r.2.(pushed) = [] ++ [last_resort] ∧
   length [thrice last_resort] + length r.2.(pushed) < r.2.(index)) ∧
  next 0%N push (invoke 0%N [thrice last_resort] 0) None (Some last_resort)
    state_past_end = (Rejected undefined_match, state_past_end).
Proof.
  destruct (late_fallback_never_runs 0%N [thrice last_resort]
              (Some last_resort) state_past_end) as [Hframe Hnone].
  - vm_compute. reflexivity.
  - simpl. lia.
  - split; [apply Hframe | exact Hnone].
Defined.

(** The middleware [thrice] alone: its third call comes too late, the
    fallback is pushed and nothing is sent. *)
Example late_fallback_dispatch :
  let r := _applyMiddlewares [(always, thrice last_resort)] line254 state0 in
  r.1 = Fulfilled Undefined ∧
  invoked r.2.(trace) = [0] ∧
  r.2.(pushed) = [last_resort] ∧
  r.2.(world).(calls) = [Emit "after-middleware"].
Proof. split_and!; reflexivity. Qed.

(** X4: a dispatch changes the live set by its own token only, and the
    token is out of the set when [_applyMiddlewares] is through unless the
    promise of the chain has rejected: then the token stays live. *)
Theorem dispatch_touches_its_token_only (hooks : Hooks) (lastCall : jsstring)
    (st : State) :
  let r := _applyMiddlewares hooks lastCall st in
  (∀ t, t ≠ st.(_middlewareCounter) →
     (t ∈ r.2.(_middlewareSet) ↔ t ∈ st.(_middlewareSet))) ∧
  (st.(_middlewareCounter) ∈ r.2.(_middlewareSet) ↔ ∃ e, r.1 = Rejected e).
Proof.
  unfold _applyMiddlewares, prepare. cbv beta iota zeta.
  set (c := _middlewareCounter st).
  set (st1 := {| world := world st; _middlewareCounter := increment c;
                 _middlewareSet := {[c]} ∪ _middlewareSet st; index := 0;
                 stack := []; pushed := [];
                 trace := trace st ++ [SetAdd c] |}).
  pose proof (next_grows c push
                (invoke c (snapshot hooks (session (world st1))) 0)
                (λ f s, grows_same s (push f s) eq_refl eq_refl eq_refl
                          (Nat.le_refl _))
                (invoke_grows c _ 0) (Some lastCall) None st1) as Hg.
  destruct (next c push _ (Some lastCall) None st1) as [r st2]; simpl in *.
  destruct Hg as (_ & Hset & _). simpl in Hset.
  destruct r as [v | e]; simpl.
  - destruct (cleanup_trace c st2) as (_ & _ & ->). rewrite Hset. split.
    + intros t Ht. rewrite elem_of_difference, elem_of_union, !elem_of_singleton.
      tauto.
    + rewrite elem_of_difference, elem_of_singleton. split; [tauto |].
      intros [e He]. discriminate.
  - rewrite Hset. split.
    + intros t Ht. rewrite elem_of_union, elem_of_singleton. tauto.
    + rewrite elem_of_union, elem_of_singleton. split; [eauto | tauto].
Qed.

End LateFallback.

(** ** More about the addressing matchers *)
Section Stripping.
Import Address Samples.

Lemma match_Empty (s : jsstring) : match_ s Empty = Some [[]].
Proof. by destruct s. Qed.

(** What a pattern that begins with [^] matches is a leading part of the
    text. *)
Lemma match_Bol_prefix (r : RegExp) (s : jsstring) (capture : list jsstring) :
  match_ s (Seq Bol r) = Some capture →
  ∃ rest, s = whole capture ++ rest ∧
          slice_from (length (whole capture)) s = rest.
Proof.
  unfold match_.
  assert (Hs : ∀ x, search (Seq Bol r) 0 s = Some x →
            ∃ m rest caps, s = m ++ rest ∧ x = (0, length m, caps)).
  { intros x Hx.
    assert (Hm : ∃ y, matchK (Seq Bol r) 0 s [] (λ e _ caps, Some (e, caps)) = Some y
                      ∧ x = (0, y.1, y.2)).
    { destruct s as [|c s]; simpl in *;
        destruct (matchK r 0 _ [] _) as [[e caps]|]; try done.
      - injection Hx as <-. eauto.
      - injection Hx as <-. eauto.
      - by rewrite search_Bol_later in Hx. }
    destruct Hm as ([e caps] & Hy & ->).
    apply matchK_sound in Hy as (m & rest & caps' & -> & _ & [= <- <-]).
    by exists m, rest, caps'. }
  destruct (search (Seq Bol r) 0 s) as [x|]; [| done].
  destruct (Hs x eq_refl) as (m & rest & caps & -> & ->).
  intros [= <-]. exists rest. unfold whole, slice_from; simpl.
  rewrite Nat.sub_0_r, drop_0, take_app_length, drop_app_length. done.
Qed.

Lemma createLeadingRE_Bol (ps : list jsstring) (prefix suffix : RegExp) :
  ∃ r, createLeadingRE ps prefix suffix = Seq Bol r.
Proof. destruct ps; simpl; eauto. Qed.

Lemma leading_prefix (ps : list jsstring) (prefix suffix : RegExp)
    (s : jsstring) (capture : list jsstring) :
  match_ s (createLeadingRE ps prefix suffix) = Some capture →
  ∃ rest, s = whole capture ++ rest ∧
          slice_from (length (whole capture)) s = rest.
Proof.
  destruct (createLeadingRE_Bol ps prefix suffix) as [r ->].
  apply match_Bol_prefix.
Qed.

(** X5: the matcher only takes text off the front. The trimmed text is what
    the at-mention step took, what the nickname step took, the prefix and
    the remaining message, in this order; [nickname] holds what the
    nickname step took or else what the at-mention step took, and nothing
    is taken by the at-mention step unless [atMe] is set. *)
Theorem strip_takes_a_leading_part (bots : option (list Bot))
    (options : AppOptions) (type : MessageType) (s : jsstring) :
  let p := strip (prepare <$> bots) (nameRE options) (prefixRE options) type s in
  ∃ mentioned named,
    s = mentioned ++ named ++ default [] p.(prefix) ++ p.(message) ∧
    p.(nickname) = (if named is [] then mentioned else named) ∧
    (p.(atMe) = false → mentioned = []).
Proof.
  unfold strip.
  assert (H1 : match (if type is private then None
                      else match_ s (default Empty (prepare <$> bots))) with
               | Some capture =>
                   ∃ rest, s = whole capture ++ rest ∧
                           slice_from (length (whole capture)) s = rest
               | None => True
               end).
  { destruct type; [done | |];
      (destruct bots as [bs|]; simpl;
       [destruct (match_ s (prepare bs)) eqn:E; [| done];
        by apply leading_prefix in E
       | rewrite match_Empty; exists s; done]). }
  destruct (if type is private then None else _) as [c1|].
  - destruct H1 as (s1 & Hs & ->).
    destruct (match_ s1 (nameRE options)) as [c2|] eqn:E2.
    + apply leading_prefix in E2 as (s2 & Hs1 & Hd2).
      destruct (length (whole c2) =? 0)%nat eqn:El.
      * apply Nat.eqb_eq, nil_length_inv in El. rewrite El in *. simpl in Hs1.
        subst s2.
        destruct (match_ s1 (prefixRE options)) as [c3|] eqn:E3; simpl.
        -- apply leading_prefix in E3 as (s3 & Hs3 & ->).
           exists (whole c1), []. simpl. split_and!; [congruence | done | done].
        -- exists (whole c1), []. simpl. split_and!; [congruence | done | done].
      * rewrite Hd2.
        assert (Hne : whole c2 ≠ []).
        { intros H0. rewrite H0 in El. discriminate. }
        destruct (match_ s2 (prefixRE options)) as [c3|] eqn:E3; simpl.
        -- apply leading_prefix in E3 as (s3 & Hs3 & ->).
           exists (whole c1), (whole c2).
           split_and!; [congruence | by destruct (whole c2) | done].
        -- exists (whole c1), (whole c2).
           split_and!; [congruence | by destruct (whole c2) | done].
    + destruct (match_ s1 (prefixRE options)) as [c3|] eqn:E3; simpl.
      * apply leading_prefix in E3 as (s3 & Hs3 & ->).
        exists (whole c1), []. simpl. split_and!; [congruence | done | done].
      * exists (whole c1), []. simpl. split_and!; [congruence | done | done].
  - destruct (match_ s (nameRE options)) as [c2|] eqn:E2.
    + apply leading_prefix in E2 as (s2 & Hs1 & Hd2).
      destruct (length (whole c2) =? 0)%nat eqn:El.
      * apply Nat.eqb_eq, nil_length_inv in El. rewrite El in *. simpl in Hs1.
        subst s2.
        destruct (match_ s (prefixRE options)) as [c3|] eqn:E3; simpl.
        -- apply leading_prefix in E3 as (s3 & Hs3 & ->).
           exists [], []. simpl. split_and!; [congruence | done | done].
        -- exists [], []. simpl. split_and!; [congruence | done | done].
      * rewrite Hd2.
        assert (Hne : whole c2 ≠ []).
        { intros H0. rewrite H0 in El. discriminate. }
        destruct (match_ s2 (prefixRE options)) as [c3|] eqn:E3; simpl.
        -- apply leading_prefix in E3 as (s3 & Hs3 & ->).
           exists [], (whole c2). simpl.
           split_and!; [congruence | by destruct (whole c2) | done].
        -- exists [], (whole c2). simpl.
           split_and!; [congruence | by destruct (whole c2) | done].
    + destruct (match_ s (prefixRE options)) as [c3|] eqn:E3; simpl.
      * apply leading_prefix in E3 as (s3 & Hs3 & ->).
        exists [], []. simpl. split_and!; [congruence | done | done].
      * exists [], []. simpl. split_and!; [congruence | done | done].
Qed.

End Stripping.

(** ** The prefix step: ordered alternation *)
Section Prefixes.
Import Address Samples.

(** With a continuation that accepts everything, an alternation of literal
    patterns takes the first one, in the order of the list, that the text
    starts with. *)
Lemma alternatives_first (ps : list jsstring) :
  ps ≠ [] →
  ∀ pos s caps (k : Cont),
    (∀ a b c, k a b c ≠ None) →
    matchK (alternatives (map escapeRegex ps)) pos s caps k =
    match List.find (λ p, startsWith p s) ps with
    | Some p => k (pos + length p) (drop (length p) s) caps
    | None => None
    end.
Proof.
  induction ps as [|p ps IH]; [done |]. intros _ pos s caps k Hk.
  destruct ps as [|p' ps].
  - simpl. by destruct (startsWith p s).
  - change (alternatives (map escapeRegex (p :: p' :: ps)))
      with (Alt (Lit p) (alternatives (map escapeRegex (p' :: ps)))).
    cbn [matchK List.find].
    destruct (startsWith p s).
    + destruct (k _ _ caps) eqn:E; [done | by apply Hk in E].
    + by apply IH.
Qed.

Lemma prefix_step (options : AppOptions) (s : jsstring) :
  prefixes options ≠ [] →
  match_ s (prefixRE options) =
  (λ p, [p; p]) <$> List.find (λ p, startsWith p s) (prefixes options).
Proof.
  intros Hps. unfold prefixRE, createLeadingRE, match_.
  destruct (prefixes options) as [|p0 ps] eqn:Eps; [done |].
  set (alts := alternatives (map escapeRegex (p0 :: ps))).
  assert (Hm : matchK (Seq Bol (Seq Empty (Seq (Capture alts) Empty))) 0 s []
                 (λ e _ caps, Some (e, caps)) =
               (λ p, (length p, [p])) <$>
                 List.find (λ p, startsWith p s) (p0 :: ps)).
  { cbn [matchK Nat.eqb]. unfold alts. rewrite alternatives_first; [| done..].
    destruct (List.find _ _) as [p|] eqn:Ef; [| done]. simpl.
    apply find_some in Ef as [_ Hp]. apply startsWith_prefix in Hp as [r ->].
    by rewrite Nat.sub_0_r, take_app_length. }
  destruct s as [|c s]; cbn [search]; rewrite Hm;
    destruct (List.find _ _) as [p|] eqn:Ef; simpl; try done.
  - apply find_some in Ef as [_ Hp]. apply startsWith_prefix in Hp as [r Hr].
    rewrite Nat.sub_0_r, Hr, take_app_length. done.
  - apply find_some in Ef as [_ Hp]. apply startsWith_prefix in Hp as [r Hr].
    rewrite Nat.sub_0_r, Hr, take_app_length. done.
  - by rewrite search_Bol_later.
Qed.

(** What the prefix step does to the text [s] it is given, for every list
    of prefixes: [None] for no match. *)
Lemma prefix_step_seen (options : AppOptions) (s : jsstring) :
  s ≠ [] →
  match match_ s (prefixRE options) with
  | Some capture =>
      List.find (λ p, startsWith p s) (prefixes options) = Some (whole capture) ∧
      whole capture ++ slice_from (length (whole capture)) s = s
  | None => List.find (λ p, startsWith p s) (prefixes options) = None
  end.
Proof.
  intros Hs. destruct (prefixes options) as [|p0 ps] eqn:Eps.
  - unfold prefixRE. rewrite Eps, leading_nil_none; done.
  - rewrite prefix_step by congruence. rewrite Eps.
    destruct (List.find _ _) as [p|] eqn:Ef; [| done]. simpl. split; [done |].
    apply find_some in Ef as [_ Hp]. apply startsWith_prefix in Hp as [r ->].
    unfold slice_from. by rewrite drop_app_length.
Qed.

(** X6: the prefixes are tried in the order in which they are configured.
    The text that the prefix step looks at is the prefix it finds followed
    by the remaining message; unless that text is empty, the prefix found is
    the first configured prefix that the text starts with, and null when it
    starts with none. *)
Theorem first_listed_prefix_wins (_atMeRE : option RegExp) (_nameRE : RegExp)
    (options : AppOptions) (type : MessageType) (s : jsstring) :
  let p := strip _atMeRE _nameRE (prefixRE options) type s in
  let seen := default [] p.(prefix) ++ p.(message) in
  seen ≠ [] →
  p.(prefix) = List.find (λ x, startsWith x seen) (prefixes options).
Proof.
  assert (Hstep : ∀ s2,
    let r := match match_ s2 (prefixRE options) with
             | Some capture =>
                 (Some (whole capture),
                  slice_from (length (whole capture)) s2)
             | None => (None, s2)
             end in
    default [] r.1 ++ r.2 ≠ [] →
    r.1 = List.find (λ x, startsWith x (default [] r.1 ++ r.2)) (prefixes options)).
  { intros s2. destruct (decide (s2 = [])) as [-> | Hs2].
    - destruct (match_ [] (prefixRE options)) as [c|] eqn:E; simpl; [| done].
      apply leading_prefix in E as (rest & Hnil & ->).
      symmetry in Hnil. apply app_eq_nil in Hnil as [-> ->]. done.
    - pose proof (prefix_step_seen options s2 Hs2) as H.
      destruct (match_ s2 (prefixRE options)) as [c|]; simpl.
      + destruct H as [Hf Hw]. by rewrite Hw, Hf.
      + by rewrite H. }
  unfold strip.
  destruct (if type is private then None else _) as [c1|];
    destruct (match_ _ _nameRE) as [c2|];
    try destruct (length (whole c2) =? 0)%nat;
    match goal with
    | |- context [match_ ?s2 (prefixRE options)] =>
        specialize (Hstep s2); simpl in Hstep;
        destruct (match_ s2 (prefixRE options)); simpl in *; exact Hstep
    end.
Qed.

Lemma first_listed_prefix_wins_witness :
  let p := strip (Some (prepare two_bots)) (nameRE dots) (prefixRE dots) group
             (str "..help") in
  default [] p.(prefix) ++ p.(message) ≠ [] ∧
  p.(prefix) = Some (str ".") ∧ p.(message) = str ".help".
Proof.
  assert (Hne : default []
            (strip (Some (prepare two_bots)) (nameRE dots) (prefixRE dots) group
               (str "..help")).(prefix) ++
          (strip (Some (prepare two_bots)) (nameRE dots) (prefixRE dots) group
               (str "..help")).(message) ≠ []) by (vm_compute; discriminate).
  split; [exact Hne |]. split; [| by vm_compute].
  rewrite (first_listed_prefix_wins (Some (prepare two_bots)) (nameRE dots) dots
             group (str "..help") Hne).
  by vm_compute.
Defined.

(** X7: once the empty prefix is among the configured ones, as it is when
    no prefix is configured at all, no message is left without a prefix:
    [prefix] is one of the configured prefixes and never null. *)
Theorem empty_prefix_matches_every_message (_atMeRE : option RegExp)
    (_nameRE : RegExp) (options : AppOptions) (type : MessageType)
    (s : jsstring) :
  [] ∈ prefixes options →
  ∃ x, (strip _atMeRE _nameRE (prefixRE options) type s).(prefix) = Some x ∧
       x ∈ prefixes options.
Proof.
  intros Hin.
  assert (Hstep : ∀ s2, ∃ x, match_ s2 (prefixRE options) = Some [x; x] ∧
                             x ∈ prefixes options).
  { intros s2. rewrite prefix_step by (intros E; rewrite E in Hin; inversion Hin).
    destruct (List.find (λ p, startsWith p s2) (prefixes options)) as [x|] eqn:Ef.
    - exists x. split; [done |]. apply find_some in Ef as [Hx _].
      by apply list_elem_of_In.
    - exfalso. apply list_elem_of_In in Hin.
      by pose proof (find_none _ _ Ef _ Hin). }
  unfold strip.
  destruct (if type is private then None else _) as [c1|];
    destruct (match_ _ _nameRE) as [c2|];
    try destruct (length (whole c2) =? 0)%nat;
    match goal with
    | |- context [match_ ?s2 (prefixRE options)] =>
        destruct (Hstep s2) as (x & -> & Hx); exists x; by split
    end.
Qed.

Lemma empty_prefix_matches_every_message_witness :
  ∃ x, (strip (Some (prepare two_bots)) (nameRE no_options)
          (prefixRE no_options) group (str "hello")).(prefix) = Some x ∧
       x ∈ prefixes no_options.
Proof.
  apply (empty_prefix_matches_every_message (Some (prepare two_bots))
           (nameRE no_options) no_options group (str "hello")).
  apply list_elem_of_here.
Defined.

End Prefixes.

(** ** The at-mention step *)
Section Mentions.
Import Address Samples.

Lemma uint_digits (d : Decimal.uint) :
  Forall (λ c, isDigit c = true) (str (NilEmpty.string_of_uint d)).
Proof. induction d; simpl; by constructor. Qed.

Lemma decimal_digits (n : N) : Forall (λ c, isDigit c = true) (decimal n).
Proof. apply uint_digits. Qed.

Lemma trimStart_split (s : jsstring) : s = leading_space s ++ trimStart s.
Proof.
  unfold leading_space. induction s as [|c s IH]; [done |]. simpl.
  destruct (isSpace c); simpl.
  - assert (length (trimStart s) ≤ length s).
    { clear. induction s as [|c s IH]; simpl; [done |].
      destruct (isSpace c); simpl; lia. }
    replace (S (length s) - length (trimStart s))
      with (S (length s - length (trimStart s))) by lia.
    simpl. by rewrite <- IH.
  - by rewrite Nat.sub_diag.
Qed.

(** A greedy star before a continuation that accepts everything takes all
    the leading characters of the class. *)
Lemma star_greedy (s : jsstring) :
  ∀ pos caps (k : Cont),
    (∀ a b c, k a b c ≠ None) →
    star isSpace pos s caps k =
    k (pos + length (leading_space s)) (trimStart s) caps.
Proof.
  unfold leading_space.
  induction s as [|c s IH]; intros pos caps k Hk; simpl.
  - by rewrite Nat.add_0_r.
  - destruct (isSpace c) eqn:Hc.
    + rewrite IH by done.
      assert (length (trimStart s) ≤ length s).
      { clear. induction s as [|c s IH]; simpl; [done |].
        destruct (isSpace c); simpl; lia. }
      replace (S (length s) - length (trimStart s))
        with (S (length s - length (trimStart s))) by lia.
      simpl. rewrite !length_take.
      replace (pos + S _) with (S pos + (length s - length (trimStart s)) `min` length s)
        by lia.
      destruct (k _ _ caps) eqn:E; [done | by apply Hk in E].
    + by rewrite Nat.sub_diag, Nat.add_0_r.
Qed.

Lemma digits_no_bracket (s : jsstring) :
  Forall (λ c, isDigit c = true) s → Forall (λ c, c ≠ 93%N) s.
Proof.
  intros H. eapply Forall_impl; [exact H |]. intros c Hc ->. discriminate.
Qed.

Lemma strip_zeros_left_no_bracket (s : jsstring) :
  Forall (λ c, c ≠ 93%N) s → Forall (λ c, c ≠ 93%N) (Number.strip_zeros_left s).
Proof.
  induction 1 as [|c s Hc Hs IH]; simpl; [done |].
  destruct (c =? 48)%N; [done | by constructor].
Qed.

(** No closing bracket is written in a number, in either of its forms. *)
Lemma toString_no_bracket (n : N) : Forall (λ c, c ≠ 93%N) (Number.toString n).
Proof.
  unfold Number.toString. destruct (n <? 2 ^ 53)%N.
  { apply digits_no_bracket, decimal_digits. }
  cbv zeta. destruct (length _ <=? 21)%nat.
  { apply digits_no_bracket, decimal_digits. }
  unfold Number.exponent_form.
  pose proof (digits_no_bracket _ (decimal_digits (Number.shortest n))) as Hds.
  assert (Hsig : Forall (λ c, c ≠ 93%N)
            (reverse (Number.strip_zeros_left (reverse (decimal (Number.shortest n)))))).
  { apply Forall_reverse, strip_zeros_left_no_bracket, Forall_reverse, Hds. }
  repeat apply Forall_app_2.
  - by apply Forall_take.
  - destruct (1 <? length _)%nat; [| done].
    apply Forall_app_2; [by repeat constructor | by apply Forall_drop].
  - by repeat constructor.
  - apply digits_no_bracket, decimal_digits.
Qed.

Lemma toString_small (n : N) : (n < 2 ^ 53)%N → Number.toString n = decimal n.
Proof.
  intros Hn. unfold Number.toString.
  by replace (n <? 2 ^ 53)%N with true by (symmetry; by apply N.ltb_lt).
Qed.

Lemma bracket_prefix (a b : jsstring) (x y : jsstring) :
  Forall (λ c, c ≠ 93%N) a → Forall (λ c, c ≠ 93%N) b →
  a ++ x = b ++ 93%N :: y →
  ∃ d, b = a ++ d.
Proof.
  intros Ha. revert b. induction Ha as [|a0 a Ha0 Ha IH]; intros b Hb E.
  - eauto.
  - destruct b as [|b0 b]; simpl in E.
    + injection E as -> _. congruence.
    + injection E as -> E. inversion Hb; subst.
      destruct (IH b) as [d ->]; eauto.
Qed.

(** The alternation of the identities, before a continuation that refuses
    a text that goes on with anything but the closing bracket: the identity
    that is followed by the closing bracket is the one that is taken. *)
Lemma alternatives_mention (ids : list jsstring) (id rest : jsstring) :
  Forall (Forall (λ c, c ≠ 93%N)) ids →
  id ∈ ids →
  ∀ pos caps (k : Cont),
    (∀ c t a cs, c ≠ 93%N → k a (c :: t) cs = None) →
    k (pos + length id) (str "]" ++ rest) caps ≠ None →
    matchK (alternatives (map escapeRegex ids)) pos (id ++ str "]" ++ rest) caps k
    = k (pos + length id) (str "]" ++ rest) caps.
Proof.
  induction ids as [|i ids IH]; intros Hids Hin pos caps k Hdigit Hk;
    [by apply elem_of_nil in Hin |].
  inversion Hids as [|? ? Hi Hids']; subst.
  assert (Hid : Forall (λ c, c ≠ 93%N) id)
    by (rewrite Forall_forall in Hids; by apply Hids).
  assert (Hhead : matchK (Lit i) pos (id ++ str "]" ++ rest) caps k =
                  if decide (i = id)
                  then k (pos + length id) (str "]" ++ rest) caps
                  else None).
  { cbn [matchK]. destruct (startsWith i _) eqn:Es.
    - apply startsWith_prefix in Es as [r Hr].
      destruct (bracket_prefix i id r rest Hi Hid (eq_sym Hr))
        as [d ->].
      rewrite <- !app_assoc in Hr. apply app_inv_head in Hr.
      rewrite <- app_assoc, drop_app_length.
      destruct d as [|c d].
      + rewrite app_nil_r. by rewrite decide_True.
      + rewrite decide_False.
        * apply Hdigit. apply Forall_app in Hid as [_ Hd]. by inversion Hd.
        * intros E. apply (f_equal length) in E. rewrite length_app in E.
          simpl in E. lia.
    - rewrite decide_False; [done |]. intros ->.
      assert (startsWith id (id ++ str "]" ++ rest) = true)
        by (apply startsWith_prefix; eauto).
      rewrite Es in H. discriminate. }
  destruct ids as [|i' ids].
  - apply list_elem_of_singleton in Hin as ->.
    change (alternatives (map escapeRegex [i])) with (Lit i).
    by rewrite Hhead, decide_True.
  - change (alternatives (map escapeRegex (i :: i' :: ids)))
      with (Alt (Lit i) (alternatives (map escapeRegex (i' :: ids)))).
    cbn [matchK].
    change (if startsWith i (id ++ str "]" ++ rest)
            then k (pos + length i) (drop (length i) (id ++ str "]" ++ rest)) caps
            else None)
      with (matchK (Lit i) pos (id ++ str "]" ++ rest) caps k).
    rewrite Hhead. destruct (decide (i = id)) as [-> | Hne].
    + destruct (k _ _ caps); [done | by destruct Hk].
    + apply IH; try done.
      apply elem_of_cons in Hin as [-> | Hin]; [done | exact Hin].
Qed.

End Mentions.

Section KnownMention.
Import Address Samples.

Lemma elem_of_selfIds (bots : list Bot) (bot : Bot) :
  bot ∈ bots → has_selfId bot = true → bot.(_get) = true →
  Number.toString (default 0%N bot.(bot_selfId)) ∈ selfIds bots.
Proof.
  intros Hin Hid Hget. unfold selfIds.
  apply (list_elem_of_fmap_2 (λ b, Number.toString (default 0%N b.(bot_selfId)))).
  apply list_elem_of_filter. split; [| done].
  rewrite Hid, Hget. done.
Qed.

Lemma selfIds_no_bracket (bots : list Bot) :
  Forall (Forall (λ c, c ≠ 93%N)) (selfIds bots).
Proof.
  unfold selfIds. apply Forall_fmap, Forall_forall. intros b _.
  apply toString_no_bracket.
Qed.

(** What the at-mention pattern matches in a text that begins with a mention
    of one of the identities: the mention and the white space after it, with
    the identity as the captured group. *)
Lemma mention_step (bots : list Bot) (id rest : jsstring) :
  id ∈ selfIds bots →
  match_ (mention id ++ rest) (prepare bots) =
  Some [mention id ++ leading_space rest; id].
Proof.
  intros Hin. pose proof (selfIds_no_bracket bots) as Hdigits.
  unfold prepare, createLeadingRE.
  destruct (selfIds bots) as [|i0 ids] eqn:Eids; [by apply elem_of_nil in Hin |].
  set (alts := alternatives (map escapeRegex (i0 :: ids))).
  set (pre := str "[CQ:at,qq=").
  assert (Hs : mention id ++ rest = pre ++ id ++ str "]" ++ rest).
  { unfold mention. by rewrite <- ?app_assoc. }
  assert (Hm : matchK
            (Seq Bol (Seq (Lit pre)
               (Seq (Capture alts) (Seq (Lit (str "]")) (Star isSpace)))))
            0 (mention id ++ rest) [] (λ e _ caps, Some (e, caps)) =
          Some (length (mention id ++ leading_space rest), [id])).
  { rewrite Hs. cbn [matchK Nat.eqb].
    assert (Hpre : startsWith pre (pre ++ id ++ str "]" ++ rest) = true)
      by (apply startsWith_prefix; eauto).
    rewrite Hpre, drop_app_length. unfold alts.
    rewrite alternatives_mention; [| done | done | |].
    - cbn [matchK startsWith]. 
      change (startsWith (str "]") (str "]" ++ rest)) with true.
      cbv iota. change (drop (length (str "]")) (str "]" ++ rest)) with rest.
      rewrite star_greedy by done. f_equal. f_equal.
      + unfold mention. rewrite !length_app. simpl. lia.
      + replace (0 + length pre + length id - (0 + length pre)) with (length id)
          by lia.
        by rewrite take_app_length.
    - intros c t a cs Hc. cbn [matchK].
      change (startsWith (str "]") (c :: t)) with ((93 =? c)%N && true).
      destruct (93 =? c)%N eqn:E; [apply N.eqb_eq in E; congruence | done].
    - cbn [matchK].
      change (startsWith (str "]") (str "]" ++ rest)) with true.
      cbv iota. rewrite star_greedy; done. }
  unfold match_.
  assert (Hsearch : search
            (Seq Bol (Seq (Lit pre)
               (Seq (Capture alts) (Seq (Lit (str "]")) (Star isSpace)))))
            0 (mention id ++ rest) =
          Some (0, length (mention id ++ leading_space rest), [id])).
  { destruct (mention id ++ rest); cbn [search]; by rewrite Hm. }
  rewrite Hsearch, Nat.sub_0_r, drop_0.
  replace (mention id ++ rest)
    with ((mention id ++ leading_space rest) ++ trimStart rest)
    by (by rewrite <- app_assoc, <- trimStart_split).
  by rewrite take_app_length.
Qed.

(** X8: once [prepare] has built the at-mention pattern from the bots, a
    mention of one of them at the beginning of a message that is not private
    is recognised, for a bot whose identity is below 2^53 and so is written
    in the pattern with the decimal digits of the mention. [atMe] is set, the
    mention is taken off together with the white space after it, and the
    nickname and prefix steps see the rest exactly as they see it in a
    private message; [nickname] holds the mention unless the nickname step
    finds a name. *)
Theorem known_mention_is_recognised (bots : list Bot) (bot : Bot)
    (_nameRE _prefixRE : RegExp) (type : MessageType) (rest : jsstring) :
  bot ∈ bots → has_selfId bot = true → bot.(_get) = true →
  (default 0%N bot.(bot_selfId) < 2 ^ 53)%N →
  type ≠ private →
  let id := decimal (default 0%N bot.(bot_selfId)) in
  let p := strip (Some (prepare bots)) _nameRE _prefixRE type
             (mention id ++ rest) in
  let q := strip (Some (prepare bots)) _nameRE _prefixRE private
             (trimStart rest) in
  p.(atMe) = true ∧ p.(prefix) = q.(prefix) ∧ p.(message) = q.(message) ∧
  p.(nickname) = (if q.(nickname) is []
                  then mention id ++ leading_space rest
                  else q.(nickname)).
Proof.
  intros Hin Hid Hget Hsmall Htype id.
  pose proof (elem_of_selfIds bots bot Hin Hid Hget) as Hids.
  rewrite toString_small in Hids by done. fold id in Hids.
  assert (Hstep : (if type is private then None
                   else match_ (mention id ++ rest)
                          (default Empty (Some (prepare bots)))) =
                  Some [mention id ++ leading_space rest; id]).
  { destruct type; [done | |]; simpl default; by apply mention_step. }
  assert (Hdrop : slice_from (length (mention id ++ leading_space rest))
                    (mention id ++ rest) = trimStart rest).
  { unfold slice_from.
    replace (mention id ++ rest)
      with ((mention id ++ leading_space rest) ++ trimStart rest)
      by (by rewrite <- app_assoc, <- trimStart_split).
    by rewrite drop_app_length. }
  unfold strip. rewrite Hstep. cbn [whole head default from_option].
  unfold Datatypes.id. rewrite Hdrop.
  destruct (match_ (trimStart rest) _nameRE) as [c2|].
  - destruct (length (whole c2) =? 0)%nat eqn:El.
    + destruct (match_ (trimStart rest) _prefixRE); done.
    + destruct (match_ _ _prefixRE); simpl;
        (split_and!; [done.. |]);
        destruct (whole c2); done.
  - destruct (match_ (trimStart rest) _prefixRE); done.
Qed.

Lemma known_mention_is_recognised_witness :
  let p := strip (Some (prepare two_bots)) (nameRE options_dot)
             (prefixRE options_dot) group
             (mention (str "222") ++ str "  .help") in
  p.(atMe) = true ∧ p.(prefix) = Some (str ".") ∧ p.(message) = str "help".
Proof.
  pose proof (known_mention_is_recognised two_bots
                {| bot_selfId := Some 222%N; _get := true |}
                (nameRE options_dot) (prefixRE options_dot) group
                (str "  .help")) as H.
  destruct H as (H1 & H2 & H3 & _).
  - apply list_elem_of_further, list_elem_of_here.
  - reflexivity.
  - reflexivity.
  - reflexivity.
  - discriminate.
  - split; [exact H1 |]. split.
    + etrans; [exact H2 |]. by vm_compute.
    + etrans; [exact H3 |]. by vm_compute.
Defined.

End KnownMention.

(** ** More about [getSelfIds] *)
Section LoginFailure.
Import SelfIds Logins Samples.

Lemma failed_step (e : Value) (s : Server) (ev : Event) :
  failed e s →
  failed e (step s ev) ∧ (step s ev).(loginCalls) = s.(loginCalls).
Proof.
  intros [p Hp]. destruct ev as [caller | i userId | i e']; simpl.
  - unfold getSelfIds. rewrite Hp; simpl. rewrite Hp. split; [by exists p | done].
  - unfold loginInfo. case_bool_decide; [| split; [by exists p | done]].
    rewrite Hp. split; [by exists p | done].
  - unfold loginError. case_bool_decide; [| split; [by exists p | done]].
    rewrite Hp. split; [by exists p | done].
Qed.

Lemma failed_run (e : Value) (evs : list Event) :
  ∀ s, failed e s →
       failed e (run evs s) ∧ (run evs s).(loginCalls) = s.(loginCalls).
Proof.
  induction evs as [|ev evs IH]; intros s Hs; [done |].
  rewrite run_cons. destruct (failed_step e s ev Hs) as [Hf Hc].
  destruct (IH _ Hf) as [Hf' Hc']. split; [done | congruence].
Qed.

Lemma filter_none {A : Type} (P : A → Prop) `{∀ x, Decision (P x)}
    (l : list A) :
  (∀ x, x ∈ l → ¬ P x) → filter P l = [].
Proof.
  induction l as [|x l IH]; intros Hl; [done |].
  rewrite filter_cons_False by (apply Hl; left).
  apply IH. intros y Hy. apply Hl. by right.
Qed.

Lemma filter_all {A : Type} (P : A → Prop) `{∀ x, Decision (P x)}
    (l : list A) :
  (∀ x, x ∈ l → P x) → filter P l = l.
Proof.
  induction l as [|x l IH]; intros Hl; [done |].
  rewrite filter_cons_True by (apply Hl; left).
  f_equal. apply IH. intros y Hy. apply Hl. by right.
Qed.

Lemma settled_step (s : Server) (ev : Event) :
  settled s → settled (step s ev).
Proof.
  unfold settled. intros Hs.
  destruct ev as [caller | i userId | i e]; simpl.
  - unfold getSelfIds.
    destruct (_getSelfIdsPromise s) as [[p [| |e]]|] eqn:Hp; simpl;
      rewrite ?Hp; simpl; try done.
    + destruct Hs as [Hin Hw]. split; [done |].
      intros w [H | H]%elem_of_app; [by apply Hw |].
      apply list_elem_of_singleton in H. by subst w.
    + destruct Hs as [Hw Hin]. rewrite Hw, Hin. simpl.
      destruct (logins (bots s) (with_get (bots s) 0)) as [|j l]; simpl; [done |].
      split; [done |]. intros w H. apply list_elem_of_singleton in H. by subst w.
  - unfold loginInfo. case_bool_decide as Hi; [| done].
    destruct (_getSelfIdsPromise s) as [[p [| |e]]|] eqn:Hp; simpl; try done.
    + destruct Hs as [Hin Hw].
      destruct (filter (λ j, j ≠ i) (inflight s)) as [|j l] eqn:Ef; simpl;
        rewrite ?Hp; simpl.
      * apply filter_none. intros w Hw'. specialize (Hw w Hw'). tauto.
      * done.
    + destruct Hs as [_ Hin]. rewrite Hin in Hi. by apply elem_of_nil in Hi.
  - unfold loginError. case_bool_decide as Hi; [| done].
    destruct (_getSelfIdsPromise s) as [[p [| |e']]|] eqn:Hp; simpl; try done.
    + destruct Hs as [Hin Hw].
      apply filter_none. intros w Hw'. specialize (Hw w Hw'). tauto.
    + destruct Hs as [_ Hin]. rewrite Hin in Hi. by apply elem_of_nil in Hi.
Qed.

Lemma settled_run (evs : list Event) :
  ∀ s, settled s → settled (run evs s).
Proof.
  induction evs as [|ev evs IH]; intros s Hs; [done |].
  rewrite run_cons. by apply IH, settled_step.
Qed.

Lemma settled_fresh (bs : list Bot) : settled (fresh bs).
Proof. done. Qed.

(** X9: a failed login is not retried. When [getLoginInfo] of a bot rejects
    while the promise is pending, the callers that wait are answered with
    the error, and from then on, whatever happens, every call of
    [getSelfIds] is answered with this same error at once and
    [getLoginInfo] is never called again. *)
Theorem failed_login_is_never_retried (bs : list Bot) (evs0 : list Event)
    (i : nat) (e : Value) (evs : list Event) (caller : nat) :
  let s := run evs0 (fresh bs) in
  pending s → i ∈ s.(inflight) →
  let s1 := step s (LoginError i e) in
  let s2 := run evs s1 in
  s1.(waiting) = [] ∧
  s1.(answered) = s.(answered) ++ ((λ w, (w.1.1, Raised e)) <$> s.(waiting)) ∧
  s2.(loginCalls) = s.(loginCalls) ∧
  (getSelfIds caller s2).(answered) = s2.(answered) ++ [(caller, Raised e)] ∧
  (getSelfIds caller s2).(waiting) = s2.(waiting) ∧
  (getSelfIds caller s2).(loginCalls) = s.(loginCalls).
Proof.
  intros s [p Hp] Hi s1 s2.
  pose proof (settled_run evs0 _ (settled_fresh bs)) as Hset. fold s in Hset.
  unfold settled in Hset. rewrite Hp in Hset. destruct Hset as [_ Hwait].
  assert (Hs1 : failed e s1 ∧ s1.(loginCalls) = s.(loginCalls) ∧
                s1.(waiting) = still_waiting p s.(waiting) ∧
                s1.(answered) = s.(answered) ++ resume p (λ _, Raised e) s.(waiting)).
  { unfold s1; simpl. unfold loginError. rewrite bool_decide_true by done.
    rewrite Hp. split; [by exists p | done]. }
  destruct Hs1 as (Hf & Hc & Hw & Ha).
  destruct (failed_run e evs s1 Hf) as [[p2 Hp2] Hc2]. fold s2 in Hp2, Hc2.
  assert (Hcall : (getSelfIds caller s2).(answered) =
                    s2.(answered) ++ [(caller, Raised e)] ∧
                  (getSelfIds caller s2).(waiting) = s2.(waiting) ∧
                  (getSelfIds caller s2).(loginCalls) = s2.(loginCalls)).
  { unfold getSelfIds. rewrite Hp2; simpl. by rewrite Hp2. }
  destruct Hcall as (H1 & H2 & H3).
  split_and!; try congruence.
  - rewrite Hw. apply filter_none. intros w Hw'. specialize (Hwait w Hw'). tauto.
  - rewrite Ha. f_equal. unfold resume. by rewrite filter_all.
Qed.

Lemma failed_login_is_never_retried_witness :
  let s := run [CallGetSelfIds 7] (fresh [bot_unknown; bot_111]) in
  let s2 := run [LoginInfo 1 5%N; CallGetSelfIds 8]
              (step s (LoginError 0 (Str (str "offline")))) in
  pending s ∧ 0 ∈ s.(inflight) ∧
  s2.(loginCalls) = [0] ∧
  (getSelfIds 9 s2).(answered) =
    [(7, Raised (Str (str "offline"))); (8, Raised (Str (str "offline")));
     (9, Raised (Str (str "offline")))].
Proof.
  assert (Hp : pending (run [CallGetSelfIds 7] (fresh [bot_unknown; bot_111])))
    by (by exists 0).
  assert (Hi : 0 ∈ (run [CallGetSelfIds 7] (fresh [bot_unknown; bot_111])).(inflight))
    by apply list_elem_of_here.
  split; [exact Hp |]. split; [exact Hi |].
  destruct (failed_login_is_never_retried [bot_unknown; bot_111]
              [CallGetSelfIds 7] 0 (Str (str "offline"))
              [LoginInfo 1 5%N; CallGetSelfIds 8] 9 Hp Hi)
    as (_ & _ & Hcalls & Hans & _ & _).
  split; [exact Hcalls | exact Hans].
Defined.

End LoginFailure.

Section Answers.
Import SelfIds Logins Samples.

Lemma resume_callers (p : nat) (f : list nat → Answer)
    (ws : list (nat * nat * list nat)) :
  (resume p f ws).*1 ++
    ((λ w : nat * nat * list nat, w.1.1) <$> still_waiting p ws)
  ≡ₚ (λ w : nat * nat * list nat, w.1.1) <$> ws.
Proof.
  unfold resume, still_waiting.
  rewrite <- list_fmap_compose.
  change (fst ∘ (λ w : nat * nat * list nat, (w.1.1, f w.2)))
    with (λ w : nat * nat * list nat, w.1.1).
  rewrite <- fmap_app. apply fmap_Permutation.
  apply (filter_app_complement (λ w : nat * nat * list nat, w.1.2 = p)).
Qed.

(** Each step keeps the callers: a call adds its caller to those that wait
    or to those that have an answer, and an answer of the transport moves
    callers from the former to the latter. *)
Lemma callers_step (s : Server) (ev : Event) :
  answered_callers (step s ev) ++ waiting_callers (step s ev) ≡ₚ
  (answered_callers s ++ waiting_callers s) ++ callers [ev].
Proof.
  unfold answered_callers, waiting_callers.
  destruct ev as [caller | i userId | i e]; simpl.
  - unfold getSelfIds.
    destruct (_getSelfIdsPromise s) as [[p [| |e]]|] eqn:Hp; simpl;
      rewrite ?Hp; simpl.
    + rewrite fmap_app. simpl. by rewrite app_assoc.
    + rewrite fmap_app. simpl.
      rewrite <- !app_assoc. apply Permutation_app_head, Permutation_app_comm.
    + rewrite fmap_app. simpl.
      rewrite <- !app_assoc. apply Permutation_app_head, Permutation_app_comm.
    + destruct (logins (bots s) (with_get (bots s) 0)) as [|j l]; simpl.
      * rewrite fmap_app. simpl.
        rewrite <- !app_assoc. apply Permutation_app_head, Permutation_app_comm.
      * rewrite fmap_app. simpl. by rewrite app_assoc.
  - rewrite app_nil_r. unfold loginInfo. case_bool_decide as Hi; [| done].
    destruct (_getSelfIdsPromise s) as [[p [| |e]]|] eqn:Hp; simpl; try done.
    destruct (filter (λ j, j ≠ i) (inflight s)) as [|j l] eqn:Ef; simpl; [| done].
    rewrite fmap_app, <- app_assoc. apply Permutation_app_head, resume_callers.
  - rewrite app_nil_r. unfold loginError. case_bool_decide as Hi; [| done].
    destruct (_getSelfIdsPromise s) as [[p [| |e']]|] eqn:Hp; simpl; try done.
    rewrite fmap_app, <- app_assoc. apply Permutation_app_head, resume_callers.
Qed.

Lemma callers_run (evs : list Event) :
  ∀ s, answered_callers (run evs s) ++ waiting_callers (run evs s) ≡ₚ
       (answered_callers s ++ waiting_callers s) ++ callers evs.
Proof.
  induction evs as [|ev evs IH]; intros s.
  - by rewrite app_nil_r.
  - rewrite run_cons, IH, callers_step.
    rewrite <- app_assoc. apply Permutation_app_head.
    unfold callers. simpl. by destruct ev.
Qed.

(** X10: every call of [getSelfIds] is answered once. At any moment of a
    run each caller either waits or has exactly one answer, and as soon as
    no call of [getLoginInfo] is outstanding nobody waits: the callers that
    have an answer are the callers of the run. *)
Theorem every_call_is_answered_once (bs : list Bot) (evs : list Event) :
  let s := run evs (fresh bs) in
  answered_callers s ++ waiting_callers s ≡ₚ callers evs ∧
  (s.(inflight) = [] → s.(waiting) = [] ∧ answered_callers s ≡ₚ callers evs).
Proof.
  intros s.
  assert (Hperm : answered_callers s ++ waiting_callers s ≡ₚ callers evs)
    by apply (callers_run evs (fresh bs)).
  split; [exact Hperm |]. intros Hin.
  pose proof (settled_run evs _ (settled_fresh bs)) as Hset. fold s in Hset.
  assert (Hw : s.(waiting) = []).
  { unfold settled in Hset.
    destruct (_getSelfIdsPromise s) as [[p [| |e]]|]; tauto. }
  split; [exact Hw |].
  unfold waiting_callers in Hperm. rewrite Hw in Hperm. simpl in Hperm.
  by rewrite app_nil_r in Hperm.
Qed.

Lemma every_call_is_answered_once_witness :
  let s := run [CallGetSelfIds 7; CallGetSelfIds 8; LoginInfo 0 333%N;
                CallGetSelfIds 9] (fresh [bot_unknown; bot_111]) in
  s.(inflight) = [] ∧ s.(waiting) = [] ∧ answered_callers s ≡ₚ [7; 8; 9].
Proof.
  split; [reflexivity |].
  apply (every_call_is_answered_once [bot_unknown; bot_111]
           [CallGetSelfIds 7; CallGetSelfIds 8; LoginInfo 0 333%N;
            CallGetSelfIds 9]).
  reflexivity.
Defined.

End Answers.

Section Identified.
Import SelfIds Logins Address Samples.

Lemma elem_of_with_get (bs : list Bot) (i : nat) :
  ∀ i0, i ∈ with_get bs i0 ↔
        i0 ≤ i ∧ ∃ bot, bs !! (i - i0) = Some bot ∧ bot.(_get) = true.
Proof.
  induction bs as [|b bs IH]; intros i0; simpl.
  - split; [by intros ?%elem_of_nil | by intros [_ (bot & ? & _)]].
  - rewrite elem_of_app, IH. split.
    + intros [Hi | [Hle (bot & Hbot & Hget)]].
      * destruct (_get b) eqn:Hb; [| by apply elem_of_nil in Hi].
        apply list_elem_of_singleton in Hi as ->.
        split; [lia |]. exists b. by rewrite Nat.sub_diag.
      * split; [lia |]. exists bot.
        replace (i - i0) with (S (i - S i0)) by lia. done.
    + intros [Hle (bot & Hbot & Hget)].
      destruct (decide (i = i0)) as [-> | Hne].
      * left. rewrite Nat.sub_diag in Hbot. simpl in Hbot.
        injection Hbot as ->. rewrite Hget. apply list_elem_of_here.
      * right. split; [lia |]. exists bot.
        replace (i - i0) with (S (i - S i0)) in Hbot by lia. done.
Qed.

Lemma with_get_senders (bs bs' : list Bot) :
  _get <$> bs = _get <$> bs' → ∀ i0, with_get bs i0 = with_get bs' i0.
Proof.
  revert bs'. induction bs as [|b bs IH]; intros [|b' bs'] H i0;
    try done.
  simpl in *. injection H as -> H. by rewrite (IH bs' H).
Qed.

Lemma length_with_get (bs : list Bot) :
  ∀ i0, length (with_get bs i0) = length (filter (λ b, b.(_get) = true) bs).
Proof.
  induction bs as [|b bs IH]; intros i0; [done |]. simpl.
  rewrite length_app, IH. destruct (_get b) eqn:Hb.
  - by rewrite filter_cons_True.
  - rewrite filter_cons_False; [done | by rewrite Hb].
Qed.

Lemma senders_alter (u : N) (i : nat) (bs : list Bot) :
  _get <$> alter (set_selfId u) i bs = _get <$> bs.
Proof.
  revert i. induction bs as [|b bs IH]; intros [|i]; simpl; try done.
  f_equal. apply IH.
Qed.

Lemma identity_alter (u : N) (i j : nat) (bs : list Bot) :
  identity (alter (set_selfId u) i bs) j =
    if decide (j = i) then (λ _, u) <$> bs !! i else identity bs j.
Proof.
  unfold identity. destruct (decide (j = i)) as [-> | Hne].
  - rewrite list_lookup_alter, decide_True by done. by destruct (bs !! i).
  - rewrite list_lookup_alter, decide_False; [done | by intros ->].
Qed.

Lemma identity_alter_is_Some (u : N) (i j : nat) (bs : list Bot) :
  is_Some (identity bs j) → is_Some (identity (alter (set_selfId u) i bs) j).
Proof.
  rewrite identity_alter. destruct (decide (j = i)) as [-> | Hne]; [| done].
  unfold identity. destruct (bs !! i); [by eexists | by intros [? ?]].
Qed.

Lemma ids_is_Some (bs : list Bot) (idx : list nat) :
  (∀ i, i ∈ idx → is_Some (identity bs i)) → Forall is_Some (ids bs idx).
Proof.
  intros H. unfold ids. apply Forall_fmap, Forall_forall. intros i Hi.
  by apply H.
Qed.

Lemma complete_fresh (bs : list Bot) : complete bs (fresh bs).
Proof.
  unfold complete; simpl. split_and!; try done.
  - by intros w ?%elem_of_nil.
  - by intros i ?%elem_of_nil.
  - by intros c l ?%elem_of_nil.
Qed.

Lemma complete_step (bs : list Bot) (s : Server) (ev : Event) :
  complete bs s → complete bs (step s ev).
Proof.
  intros (Hget & Hwait & Hin & Hcov & Hans).
  pose proof (with_get_senders _ _ Hget 0) as Hidx.
  assert (Hlen : ∀ l, length (ids l (with_get bs 0)) =
                      length (filter (λ b, b.(_get) = true) bs)).
  { intros l. unfold ids. by rewrite length_fmap, length_with_get. }
  destruct ev as [caller | i userId | i e]; simpl.
  - unfold getSelfIds. rewrite Hidx.
    destruct (_getSelfIdsPromise s) as [[p [| |e]]|] eqn:Hp; simpl;
      rewrite ?Hp; simpl.
    + unfold complete; simpl. rewrite ?Hp. split_and!; try done.
      intros w [H | H]%elem_of_app; [by apply Hwait |].
      apply list_elem_of_singleton in H. by subst w.
    + unfold complete; simpl. rewrite ?Hp. split_and!; try done.
      intros c l [H | H]%elem_of_app; [by eapply Hans |].
      apply list_elem_of_singleton in H. injection H as -> ->.
      split; [by apply ids_is_Some | apply Hlen].
    + unfold complete; simpl. rewrite ?Hp. split_and!; try done.
      intros c l [H | H]%elem_of_app; [by eapply Hans |].
      apply list_elem_of_singleton in H. discriminate.
    + assert (Hcases : ∀ i, i ∈ with_get bs 0 →
                is_Some (identity (bots s) i) ∨
                i ∈ logins (bots s) (with_get bs 0)).
      { intros i Hi. pose proof Hi as Hi'. rewrite <- Hidx in Hi'.
        apply elem_of_with_get in Hi' as [_ (bot & Hbot & Hb)].
        rewrite Nat.sub_0_r in Hbot.
        destruct (needs_login (bots s) i) eqn:En.
        - right. unfold logins. apply list_elem_of_filter. by rewrite En.
        - left. unfold needs_login in En. rewrite Hbot, Hb in En.
          unfold identity. rewrite Hbot. simpl. unfold has_selfId in En.
          destruct (bot_selfId bot); [by eexists | done]. }
      destruct (logins (bots s) (with_get bs 0)) as [|j l] eqn:El; simpl.
      * unfold complete; simpl. split_and!; try done.
        -- intros i Hi. rewrite app_nil_r in Hi. by apply Hin.
        -- intros i Hi. destruct (Hcases i Hi) as [? | H]; [done |].
           by apply elem_of_nil in H.
        -- intros c l [H | H]%elem_of_app; [by eapply Hans |].
           apply list_elem_of_singleton in H. injection H as -> ->.
           split; [| apply Hlen]. apply ids_is_Some.
           intros i Hi. destruct (Hcases i Hi) as [? | H]; [done |].
           by apply elem_of_nil in H.
      * unfold complete; simpl. split_and!; try done.
        -- intros w [H | H]%elem_of_app; [by apply Hwait |].
           apply list_elem_of_singleton in H. by subst w.
        -- intros i [H | H]%elem_of_app; [by apply Hin |].
           rewrite <- El in H. unfold logins in H.
           apply list_elem_of_filter in H. tauto.
        -- intros i Hi. destruct (Hcases i Hi) as [? | H]; [by left |].
           right. apply elem_of_app. by right.
  - unfold loginInfo. case_bool_decide as Hi; [| done].
    assert (Hbot : is_Some (bots s !! i)).
    { apply Hin in Hi. rewrite <- Hidx in Hi.
      apply elem_of_with_get in Hi as [_ (bot & Hbot & _)].
      rewrite Nat.sub_0_r in Hbot. by rewrite Hbot. }
    assert (Hnew : is_Some (identity (alter (set_selfId userId) i (bots s)) i)).
    { rewrite identity_alter, decide_True by done.
      destruct Hbot as [bot ->]. by eexists. }
    assert (Hin' : ∀ j, j ∈ filter (λ j, j ≠ i) (inflight s) → j ∈ with_get bs 0).
    { intros j Hj. apply list_elem_of_filter in Hj. apply Hin. tauto. }
    destruct (_getSelfIdsPromise s) as [[p [| |e]]|] eqn:Hp; simpl.
    + destruct (filter (λ j, j ≠ i) (inflight s)) as [|j0 l0] eqn:Ef; simpl.
      * assert (Hall : ∀ j, j ∈ with_get bs 0 →
                  is_Some (identity (alter (set_selfId userId) i (bots s)) j)).
        { intros j Hj. destruct (Hcov j Hj) as [H | H].
          - by apply identity_alter_is_Some.
          - destruct (decide (j = i)) as [-> | Hne]; [done |].
            exfalso. eapply (filter_nil_not_elem_of _ _ j Ef); done. }
        unfold complete; simpl. split_and!; try done.
        -- by rewrite senders_alter.
        -- intros w Hw. apply elem_of_still_waiting in Hw. by apply Hwait.
        -- intros c l [H | H]%elem_of_app; [by eapply Hans |].
           unfold resume in H. apply list_elem_of_fmap in H as (w & Hw & Hin2).
           apply list_elem_of_filter in Hin2 as [_ Hin2].
           injection Hw as -> ->. rewrite (Hwait w Hin2).
           split; [by apply ids_is_Some | apply Hlen].
      * unfold complete; simpl. rewrite ?Hp. split_and!; try done.
        -- by rewrite senders_alter.
        -- intros j Hj. destruct (Hcov j Hj) as [H | H].
           ++ left. by apply identity_alter_is_Some.
           ++ destruct (decide (j = i)) as [-> | Hne]; [by left |].
              right. rewrite <- Ef. by apply list_elem_of_filter.
    + unfold complete; simpl. rewrite ?Hp. split_and!; try done.
      * by rewrite senders_alter.
      * intros j Hj. by apply identity_alter_is_Some, Hcov.
    + unfold complete; simpl. rewrite ?Hp. split_and!; try done.
      by rewrite senders_alter.
    + unfold complete; simpl. rewrite ?Hp. split_and!; try done.
      by rewrite senders_alter.
  - unfold loginError. case_bool_decide as Hi; [| done].
    assert (Hin' : ∀ j, j ∈ filter (λ j, j ≠ i) (inflight s) → j ∈ with_get bs 0).
    { intros j Hj. apply list_elem_of_filter in Hj. apply Hin. tauto. }
    destruct (_getSelfIdsPromise s) as [[p [| |e']]|] eqn:Hp; simpl;
      unfold complete; simpl; rewrite ?Hp; split_and!; try done.
    + intros w Hw. apply elem_of_still_waiting in Hw. by apply Hwait.
    + intros c l [H | H]%elem_of_app; [by eapply Hans |].
      unfold resume in H. apply list_elem_of_fmap in H as (w & Hw & _).
      discriminate.
Qed.

Lemma complete_run (bs : list Bot) (evs : list Event) :
  ∀ s, complete bs s → complete bs (run evs s).
Proof.
  induction evs as [|ev evs IH]; intros s Hs; [done |].
  rewrite run_cons. by apply IH, complete_step.
Qed.

(** X11: a list of identities that [getSelfIds] answers with is complete:
    it has one entry for each bot with a sender, and no entry is
    undefined. *)
Theorem answers_name_every_bot (bs : list Bot) (evs : list Event)
    (caller : nat) (l : list (option N)) :
  (caller, Ids l) ∈ (run evs (fresh bs)).(answered) →
  Forall is_Some l ∧ length l = length (filter (λ b, b.(_get) = true) bs).
Proof.
  intros H.
  destruct (complete_run bs evs _ (complete_fresh bs)) as (_ & _ & _ & _ & Hans).
  by eapply Hans.
Qed.

Lemma answers_name_every_bot_witness :
  (8, Ids [Some 333%N; Some 111%N]) ∈
    (run [CallGetSelfIds 7; CallGetSelfIds 8; LoginInfo 0 333%N]
       (fresh [bot_unknown; bot_111])).(answered) ∧
  Forall is_Some [Some 333%N; Some 111%N] ∧
  length [Some 333%N; Some 111%N] =
    length (filter (λ b, b.(_get) = true) [bot_unknown; bot_111]).
Proof.
  assert (H : (8, Ids [Some 333%N; Some 111%N]) ∈
    (run [CallGetSelfIds 7; CallGetSelfIds 8; LoginInfo 0 333%N]
       (fresh [bot_unknown; bot_111])).(answered))
    by apply list_elem_of_further, list_elem_of_here.
  split; [exact H |].
  exact (answers_name_every_bot [bot_unknown; bot_111]
           [CallGetSelfIds 7; CallGetSelfIds 8; LoginInfo 0 333%N] 8
           [Some 333%N; Some 111%N] H).
Defined.

(** X12: once [getLoginInfo] has answered, the bot can be mentioned. After
    the answer for bot [i], with an identity that is not 0 and is below
    2^53, so that the pattern writes it in the decimal digits of the
    mention, the at-mention pattern is the one of the bots as they are now,
    and it matches a mention of the new identity at the beginning of a
    message, with the white space after it. *)
Theorem login_makes_the_bot_mentionable (bs : list Bot) (evs : list Event)
    (i : nat) (userId : N) (rest : jsstring) :
  let s := run evs (fresh bs) in
  i ∈ s.(inflight) → userId ≠ 0%N → (userId < 2 ^ 53)%N →
  let s' := step s (LoginInfo i userId) in
  s'.(SelfIds._atMeRE) = Some (prepare s'.(bots)) ∧
  match_ (mention (decimal userId) ++ rest) (prepare s'.(bots)) =
    Some [mention (decimal userId) ++ leading_space rest; decimal userId].
Proof.
  intros s Hi Hu Hsmall s'.
  destruct (complete_run bs evs _ (complete_fresh bs)) as (Hget & _ & Hin & _).
  fold s in Hget, Hin.
  pose proof (Hin i Hi) as Hidx.
  rewrite <- (with_get_senders _ _ Hget 0) in Hidx.
  apply elem_of_with_get in Hidx as [_ (bot & Hbot & Hb)].
  rewrite Nat.sub_0_r in Hbot.
  assert (Hs' : s'.(SelfIds._atMeRE) = Some (prepare s'.(bots)) ∧
                s'.(bots) = alter (set_selfId userId) i s.(bots)).
  { unfold s'; simpl. unfold loginInfo. rewrite bool_decide_true by done.
    destruct (_getSelfIdsPromise s) as [[p [| |e]]|]; simpl; try done.
    by destruct (filter _ (inflight s)). }
  destruct Hs' as [Hre Hbots]. split; [exact Hre |].
  apply mention_step. rewrite Hbots, <- (toString_small userId) by done.
  apply (elem_of_selfIds _ (set_selfId userId bot)).
  - apply list_elem_of_lookup. exists i.
    by rewrite list_lookup_alter, decide_True, Hbot.
  - unfold has_selfId; simpl. by apply negb_true_iff, N.eqb_neq.
  - done.
Qed.

Lemma login_makes_the_bot_mentionable_witness :
  let s := run [CallGetSelfIds 7] (fresh [bot_unknown; bot_111]) in
  let s' := step s (LoginInfo 0 333%N) in
  0 ∈ s.(inflight) ∧
  match_ (mention (str "333") ++ str " hello") (prepare s'.(bots)) =
    Some [mention (str "333") ++ str " "; str "333"].
Proof.
  assert (Hi : 0 ∈ (run [CallGetSelfIds 7] (fresh [bot_unknown; bot_111])).(inflight))
    by apply list_elem_of_here.
  split; [exact Hi |].
  apply (login_makes_the_bot_mentionable [bot_unknown; bot_111]
           [CallGetSelfIds 7] 0 333%N (str " hello") Hi).
  - discriminate.
  - reflexivity.
Defined.

End Identified.

(** ** The gates before the trigger *)
Section Entrance.
Import Preprocess Entry Samples.

Lemma user_gate (C : Collaborators) (k : Middleware)
    (next : NextFunction Fallback) (st : State) :
  ∃ u cs,
    let w' := {| session := set_user u st.(world).(session);
                 calls := st.(world).(calls) ++ cs |} in
    forallb loading cs = true ∧
    ((exec (attach_user_row C k) next st = exec k next (set_world (λ _, w') st) ∧
      bitand u.(u_flag) C.(User_Flag_ignore) = 0%Z)
     ∨ exec (attach_user_row C k) next st =
         (ReturnsPromise (Fulfilled Undefined), set_world (λ _, w') st)).
Proof.
  destruct st as [[s cs0] c live i stk p tr].
  unfold attach_user_row. cbn -[bitand].
  exists (C.(getUser) s.(userId) (C.(before_attach_user) s {["flag"]})),
    [Emit "before-attach-user";
     ObserveUser (C.(before_attach_user) s {["flag"]});
     Serialize "attach-user"].
  split; [reflexivity |].
  unfold set_world, observeUser, call, set_session. cbn -[bitand].
  rewrite <- !app_assoc. cbn [app].
  repeat match goal with
  | |- context [if ?a then quiet else _] => destruct a eqn:?
  end.
  - by right.
  - by right.
  - left. split; [done |]. by apply negb_false_iff, Z.eqb_eq in Heqb0.
Qed.

Lemma group_gate (C : Collaborators) (mentioned : bool) (k : Middleware)
    (next : NextFunction Fallback) (st : State) :
  ∃ g cs,
    let w' := {| session := set_group g st.(world).(session);
                 calls := st.(world).(calls) ++ cs |} in
    forallb loading cs = true ∧
    ((exec (attach_group_row C mentioned k) next st =
        exec k next (set_world (λ _, w') st) ∧
      bitand g.(g_flag) C.(Group_Flag_ignore) = 0%Z ∧
      (g.(assignee) = st.(world).(session).(selfId) ∨ mentioned = true))
     ∨ exec (attach_group_row C mentioned k) next st =
         (ReturnsPromise (Fulfilled Undefined), set_world (λ _, w') st)).
Proof.
  destruct st as [[s cs0] c live i stk p tr].
  unfold attach_group_row. cbn -[bitand].
  exists (C.(getGroup) s.(groupId)
            (C.(before_attach_group) s {["flag"; "assignee"]})),
    [Emit "before-attach-group";
     ObserveGroup (C.(before_attach_group) s {["flag"; "assignee"]});
     Serialize "attach-group"].
  split; [reflexivity |].
  unfold set_world, observeGroup, call, set_session. cbn -[bitand].
  rewrite <- !app_assoc. cbn [app].
  repeat match goal with
  | |- context [if ?a then quiet else _] => destruct a eqn:?
  end.
  - by right.
  - by right.
  - by right.
  - left. split_and!.
    + done.
    + by apply negb_false_iff, Z.eqb_eq in Heqb0.
    + apply andb_false_iff in Heqb1 as [H | H].
      * left. by apply negb_false_iff, N.eqb_eq in H.
      * right. by apply negb_false_iff in H.
Qed.

(** X13: with a database, [_preprocess] reaches the command trigger only
    for a session that passes the gates: the user row is attached and not
    ignored, and for a group message the group row is attached and not
    ignored and the bot is the assignee of the group or was mentioned.
    Otherwise it returns a promise of undefined without calling its
    continuation. Either way, all it has done before is to load and
    announce the rows. *)
Theorem trigger_is_reached_through_the_gates_only (this : App)
    (C : Collaborators) (lastCall : jsstring) (next : NextFunction Fallback)
    (st : State) :
  this.(database) = true →
  let r := exec (_preprocess this C lastCall) next st in
  ∃ w' cs,
    w'.(calls) = st.(world).(calls) ++ cs ∧ forallb loading cs = true ∧
    ((r = exec (trigger C lastCall) next (set_world (λ _, w') st) ∧
      user_passes C w'.(session) ∧
      (st.(world).(session).(messageType) = group →
       group_passes C w'.(session)))
     ∨ r = (ReturnsPromise (Fulfilled Undefined), set_world (λ _, w') st)).
Proof.
  intros Hdb r. unfold r, _preprocess. cbn [exec]. rewrite Hdb.
  set (st1 := set_world _ (set_world _ st)).
  assert (Hst1 : ∀ w, set_world (λ _, w) st1 = set_world (λ _, w) st) by done.
  destruct (messageType (session (world st))) eqn:Htype.
  - destruct (user_gate C (trigger C lastCall) next st1)
      as (u & cs & Hl & H); rewrite Hst1 in H.
    exists {| session := set_user u st1.(world).(session);
              calls := st1.(world).(calls) ++ cs |}, cs.
    split_and!; [done | done |]. destruct H as [[-> Hu] | ->].
    + left. split_and!; [done | by exists u | done].
    + by right.
  - destruct (group_gate C (address this C (session (world st))).(atMe)
                (attach_user_row C (trigger C lastCall)) next st1)
      as (g & cs & Hl & H); rewrite Hst1 in H.
    destruct H as [(-> & Hg & Hm) | ->].
    + set (st2 := set_world _ st).
      assert (Hst2 : ∀ w, set_world (λ _, w) st2 = set_world (λ _, w) st) by done.
      destruct (user_gate C (trigger C lastCall) next st2)
        as (u & cs' & Hl' & H); rewrite Hst2 in H.
      exists {| session := set_user u st2.(world).(session);
                calls := st2.(world).(calls) ++ cs' |}, (cs ++ cs').
      split_and!.
      * cbn. by rewrite app_assoc.
      * by rewrite forallb_app, Hl, Hl'.
      * destruct H as [[-> Hu] | ->]; [| by right].
        left. split_and!; [done | by exists u |].
        intros _. exists g. eexists. split_and!; done.
    + exists {| session := set_group g st1.(world).(session);
                calls := st1.(world).(calls) ++ cs |}, cs.
      split_and!; [done | done |]. by right.
  - destruct (user_gate C (trigger C lastCall) next st1)
      as (u & cs & Hl & H); rewrite Hst1 in H.
    exists {| session := set_user u st1.(world).(session);
              calls := st1.(world).(calls) ++ cs |}, cs.
    split_and!; [done | done |]. destruct H as [[-> Hu] | ->].
    + left. split_and!; [done | by exists u | done].
    + by right.
Qed.

Lemma trigger_is_reached_through_the_gates_only_witness :
  let r := exec (_preprocess app_with_database collaborators line219) idle
             state_group_hello in
  ∃ w' cs,
    w'.(calls) = state_group_hello.(world).(calls) ++ cs ∧
    forallb loading cs = true ∧
    ((r = exec (trigger collaborators line219) idle
            (set_world (λ _, w') state_group_hello) ∧
      user_passes collaborators w'.(session) ∧
      (state_group_hello.(world).(session).(messageType) = group →
       group_passes collaborators w'.(session)))
     ∨ r = (ReturnsPromise (Fulfilled Undefined),
            set_world (λ _, w') state_group_hello)).
Proof.
  apply (trigger_is_reached_through_the_gates_only app_with_database
           collaborators line219 idle state_group_hello).
  reflexivity.
Defined.

End Entrance.

(** ** The listener of 'parse' *)
Section Parsing.
Import ParseListener Address Samples.
Context {R : Type}.

Lemma first_word_app (ns m : jsstring) :
  Forall (λ c, isSpace c = false) ns →
  first_word (ns ++ str "/" ++ m) = ns ++ str "/" ++ first_word m.
Proof.
  induction 1 as [|c ns Hc _ IH].
  - done.
  - change ((c :: ns) ++ str "/" ++ m) with (c :: (ns ++ str "/" ++ m)).
    cbn [first_word]. by rewrite Hc, IH.
Qed.

Lemma lastIndexOf_app (c : char) (a b : jsstring) :
  is_Some (lastIndexOf c (a ++ c :: b)).
Proof.
  induction a as [|x a IH]; simpl.
  - destruct (lastIndexOf c b); [by eexists |].
    rewrite N.eqb_refl. by eexists.
  - destruct IH as [i ->]. by eexists.
Qed.

Lemma leaf_cons (x : char) (s : jsstring) :
  is_Some (lastIndexOf 0x2F%N s) → leaf (x :: s) = leaf s.
Proof. unfold leaf. cbn [lastIndexOf]. by intros [i ->]. Qed.

Lemma leaf_slash (s : jsstring) : leaf (0x2F%N :: s) = leaf s.
Proof.
  unfold leaf. cbn [lastIndexOf].
  destruct (lastIndexOf 0x2F%N s) as [i|]; [done |]. reflexivity.
Qed.

Lemma leaf_app (ns w : jsstring) : leaf (ns ++ str "/" ++ w) = leaf w.
Proof.
  induction ns as [|x ns IH]; simpl.
  - apply leaf_slash.
  - rewrite leaf_cons; [done |]. apply (lastIndexOf_app 0x2F%N ns w).
Qed.

(** X14: the segments of a name before its last slash are ignored. A
    message whose first word is prefixed with a path that ends in a slash
    is parsed as the message without the path: the same command is looked
    up, with the same arguments. *)
Theorem path_before_the_name_is_ignored (reg : Registry R)
    (ns m : jsstring) (parsed : Parsed) (type : MessageType) (forced : bool) :
  Forall (λ c, isSpace c = false) ns →
  listener reg (ns ++ str "/" ++ m) parsed type forced =
  listener reg m parsed type forced.
Proof.
  intros Hns. unfold listener.
  rewrite first_word_app by done. rewrite leaf_app.
  replace (slice_from (length (ns ++ str "/" ++ first_word m))
             (ns ++ str "/" ++ m))
    with (slice_from (length (first_word m)) m); [done |].
  unfold slice_from. rewrite !length_app, <- !drop_drop.
  by rewrite drop_app_length, (drop_app_length (str "/")).
Qed.

End Parsing.

Section ParsingSamples.
Import ParseListener Address Samples.

Lemma path_before_the_name_is_ignored_witness :
  listener (registry ping) (str "tools/net" ++ str "/" ++ str "ping  a b")
    {| atMe := false; nickname := []; prefix := Some []; message := [] |}
    group true = Found ping (str "a b").
Proof.
  rewrite (path_before_the_name_is_ignored (registry ping) (str "tools/net")
             (str "ping  a b")).
  - reflexivity.
  - repeat constructor.
Defined.

(** The listener cut short, or not, by what the matcher found. *)
Lemma listener_forced {R : Type} (reg : Registry R) (message : jsstring)
    (parsed : Parsed) (type : MessageType) :
  listener reg message parsed type true =
    if (if parsed.(prefix) is None then true else false)
       && (if parsed.(nickname) is [] then true else false)
       && (if type is private then false else true)
    then NoCommand
    else listener reg message parsed type false.
Proof. unfold listener. simpl. by destruct (_ && _ && _). Qed.

(** X15: the listener of 'parse', called with [forced] set on what the
    matcher leaves of a message that is not private and addresses nobody,
    resolves no command, whatever the first word is. The text is not empty
    and starts neither with a nickname nor with a configured prefix; the
    at-mention pattern is undefined still, or it is the one that [prepare]
    built from the bots and the text starts with no mention of them. The
    matcher leaves the text as it is, and the listener returns before any
    command is looked up. *)
Theorem unaddressed_message_resolves_no_command {R : Type}
    (reg : Registry R) (_atMeRE : option RegExp) (bots : list Bot)
    (options : AppOptions) (type : MessageType) (s : jsstring) :
  type ≠ private → s ≠ [] →
  (_atMeRE = None ∨
   (_atMeRE = Some (prepare bots) ∧
    ∀ id, id ∈ selfIds bots → startsWith (mention id) s = false)) →
  (∀ n, n ∈ nicknames options →
     startsWith n s = false ∧ startsWith (str "@" ++ n) s = false) →
  (∀ p, p ∈ prefixes options → startsWith p s = false) →
  let parsed := strip _atMeRE (nameRE options) (prefixRE options) type s in
  parsed.(message) = s ∧
  listener reg parsed.(message) parsed type true = NoCommand.
Proof.
  intros Htype Hs Hat Hname Hprefix parsed.
  assert (Hparsed : ∃ flag, parsed = {| atMe := flag; nickname := [];
                                        prefix := None; message := s |}).
  { unfold parsed, strip. destruct Hat as [-> | [-> Hat]].
    - exists true. simpl default.
      assert (Hat' : (if type is private then None else match_ s Empty) =
                     Some [[]]).
      { destruct type; [done | |]; apply match_Empty. }
      rewrite Hat'. cbn [whole head default from_option].
      unfold Datatypes.id. change (slice_from (length (@nil char)) s) with s.
      by rewrite nameRE_no_match, prefixRE_no_match.
    - exists false.
      assert (Hat' : (if type is private then None
                      else match_ s (default Empty (Some (prepare bots)))) =
                     None).
      { destruct type; [done | |]; by apply atMeRE_no_match. }
      rewrite Hat'.
      by rewrite nameRE_no_match, prefixRE_no_match. }
  destruct Hparsed as [flag ->]. split; [done |]. rewrite listener_forced.
  simpl. by destruct type.
Qed.

Lemma unaddressed_message_resolves_no_command_witness :
  let parsed := strip (Some (prepare two_bots)) (nameRE options_dot)
                  (prefixRE options_dot) group (str "ping") in
  parsed.(message) = str "ping" ∧
  listener (registry ping) parsed.(message) parsed group true = NoCommand ∧
  listener (registry ping) parsed.(message) parsed group false =
    Found ping [].
Proof.
  destruct (unaddressed_message_resolves_no_command (registry ping)
              (Some (prepare two_bots)) two_bots options_dot group
              (str "ping")) as [Hm Hl].
  - discriminate.
  - discriminate.
  - right. split; [reflexivity |]. intros id Hid. vm_compute in Hid.
    repeat (apply elem_of_cons in Hid as [-> | Hid]; [reflexivity |]).
    by apply elem_of_nil in Hid.
  - intros n Hn. vm_compute in Hn.
    repeat (apply elem_of_cons in Hn as [-> | Hn]; [by split |]).
    by apply elem_of_nil in Hn.
  - intros p Hp. vm_compute in Hp.
    repeat (apply elem_of_cons in Hp as [-> | Hp]; [reflexivity |]).
    by apply elem_of_nil in Hp.
  - split; [exact Hm |]. split; [exact Hl |]. reflexivity.
Defined.

(** X16: with the empty prefix among the configured ones, as it is when no
    prefix is configured, the forced parse is never cut short: every
    message, in a group too and whoever it addresses, is looked up as a
    command. *)
Theorem empty_prefix_opens_the_listener {R : Type} (reg : Registry R)
    (_atMeRE : option RegExp) (_nameRE : RegExp) (options : AppOptions)
    (type : MessageType) (s : jsstring) :
  [] ∈ prefixes options →
  let parsed := strip _atMeRE _nameRE (prefixRE options) type s in
  listener reg parsed.(message) parsed type true =
  listener reg parsed.(message) parsed type false.
Proof.
  intros Hin parsed.
  assert (Hstep : ∀ s2, ∃ x, match_ s2 (prefixRE options) = Some [x; x]).
  { intros s2. rewrite prefix_step by (intros E; rewrite E in Hin; inversion Hin).
    destruct (List.find (λ p, startsWith p s2) (prefixes options)) as [x|] eqn:Ef.
    - by exists x.
    - exfalso. apply list_elem_of_In in Hin.
      by pose proof (find_none _ _ Ef _ Hin). }
  assert (Hp : ∃ x, parsed.(prefix) = Some x).
  { unfold parsed, strip.
    destruct (if type is private then None else _) as [c1|];
      destruct (match_ _ _nameRE) as [c2|];
      try destruct (length (whole c2) =? 0)%nat;
      match goal with
      | |- context [match_ ?s2 (prefixRE options)] =>
          destruct (Hstep s2) as (x & ->); by exists x
      end. }
  destruct Hp as [x Hx]. rewrite listener_forced, Hx. done.
Qed.

Lemma empty_prefix_opens_the_listener_witness :
  let parsed := strip (Some (prepare two_bots)) (nameRE no_options)
                  (prefixRE no_options) group (str "ping") in
  listener (registry ping) parsed.(message) parsed group true = Found ping [].
Proof.
  cbv zeta.
  rewrite (empty_prefix_opens_the_listener (registry ping)
             (Some (prepare two_bots)) (nameRE no_options) no_options group
             (str "ping")).
  - reflexivity.
  - apply list_elem_of_here.
Defined.

End ParsingSamples.

(** ** Examples of a command *)
Section ExampleLists.
Import Help Examples Samples.

Lemma examples_None (es : list jsstring) :
  foldl (λ c e, c ≫= example e) None es = None.
Proof. by induction es. Qed.

Lemma examples_Some (es : list jsstring) :
  ∀ cmd l, cmd.(_examples) = Some l →
           examples es cmd = Some (set_examples (l ++ es) cmd).
Proof.
  unfold examples.
  induction es as [|e es IH]; intros cmd l Hl; simpl.
  - rewrite app_nil_r. destruct cmd; simpl in *. by subst.
  - unfold example at 2. rewrite Hl.
    rewrite (IH _ (l ++ [e])) by done.
    by rewrite <- app_assoc.
Qed.

(** X17: the examples of a command are kept in the order in which they are
    given. On a node created once the plugin is applied, a chain of calls
    of [example] succeeds and leaves exactly these examples, and the rest
    of the node as it was; on a node that the listener of 'new-command' has
    not seen, the first call raises. *)
Theorem examples_are_kept_in_order (app : Listeners) (cmd : Command)
    (es : list jsstring) :
  examples es (create (Help.apply app) cmd) =
    Some (set_examples es (create (Help.apply app) cmd)) ∧
  (cmd.(_examples) = None → es ≠ [] → examples es cmd = None).
Proof.
  split.
  - rewrite (examples_Some es _ []); [done |].
    by rewrite create_apply.
  - intros Hnone Hes. destruct es as [|e es]; [done |].
    unfold examples; simpl. unfold example. rewrite Hnone.
    apply examples_None.
Qed.

Lemma examples_are_kept_in_order_witness :
  examples [str "early"; str "early -v"] (create (Help.apply no_listeners) early)
  = Some (set_examples [str "early"; str "early -v"]
            (create (Help.apply no_listeners) early)) ∧
  examples [str "early"; str "early -v"] early = None.
Proof.
  destruct (examples_are_kept_in_order no_listeners early
              [str "early"; str "early -v"]) as [H1 H2].
  split; [exact H1 |]. apply H2; [reflexivity | discriminate].
Defined.

End ExampleLists.

(** ** Warnings *)
Section Warnings.
Import Dispatcher Order Quiet Samples.

Lemma calm_world (counter : N) (base : list Action) (f : World → World)
    (st : State) :
  calm counter base st → calm counter base (set_world f st).
Proof. done. Qed.

Lemma calm_invoke (counter : N) (base : list Action) (i : nat) (st : State) :
  calm counter base st → calm counter base (act (Invoke i) st).
Proof.
  intros (Hlive & Hp & body & Hb & Hw). split_and!; [done | done |].
  exists (body ++ [Invoke i]). simpl. rewrite Hb, <- app_assoc.
  split; [done |]. apply Forall_app. by split; [| repeat constructor].
Qed.

Lemma exec_calm {F : Type} (PF : F → Prop) (counter : N)
    (base : list Action) (p : Prog F) (next : NextFunction F) :
  never_throws PF p →
  (∀ lastCall fallback st,
     (∀ f, fallback = Some f → PF f) → calm counter base st →
     calm counter base (next lastCall fallback st).2) →
  ∀ st, calm counter base st →
    (∀ e, (exec p next st).1 ≠ Throws e) ∧
    calm counter base (exec p next st).2.
Proof.
  intros Hp Hnext.
  induction Hp as [c Hc | f k Hk IH | k Hk IH | lc fb k Hfb Hk IH];
    intros st Hst; simpl.
  - done.
  - by apply IH, calm_world.
  - by apply IH.
  - specialize (Hnext lc fb st Hfb Hst).
    destruct (next lc fb st) as [r st1]. by apply IH.
Qed.

Lemma next_calm {F : Type} (PF : F → Prop) (counter : N)
    (base : list Action) (push : F → State → State)
    (invoke : nat → State → option (Completion * State)) :
  (∀ f st, PF f → calm counter base st → calm counter base (push f st)) →
  (∀ i st r, calm counter base st → invoke i st = Some r →
     (∀ e, r.1 ≠ Throws e) ∧ calm counter base r.2) →
  ∀ lastCall fallback st,
    (∀ f, fallback = Some f → PF f) → calm counter base st →
    calm counter base (next counter push invoke lastCall fallback st).2.
Proof.
  intros Hpush Hinv lastCall fallback st Hfb Hst.
  assert (Hguarded : ∀ st, calm counter base st →
            calm counter base
              (guarded counter push invoke lastCall fallback st).2).
  { clear st Hst. intros st Hst. unfold guarded, try_block.
    rewrite bool_decide_false by (intros H; apply H, Hst).
    set (st1 := match fallback with Some f => push f st | None => st end).
    assert (H1 : calm counter base st1).
    { subst st1. destruct fallback as [f|]; [apply Hpush; auto | done]. }
    assert (H2 : calm counter base (set_index (S (index st1)) st1))
      by exact H1.
    destruct (invoke (index st1) (set_index (S (index st1)) st1))
      as [[c st2]|] eqn:E; [| done].
    destruct (Hinv _ _ _ H2 E) as [Hc Hst2]; simpl in *.
    destruct c as [v | p | e]; simpl; [done | done |].
    by destruct (Hc e). }
  unfold next. destruct lastCall as [frame|].
  - apply Hguarded.
    destruct (trail_live frame st) as (Hs & _ & _ & Hp & Ht & _).
    unfold calm. by rewrite Hs, Hp, Ht.
  - destruct (index st =? 0)%nat; [by apply Hguarded | done].
Qed.

Lemma invoke_pushed_calm (counter : N) (base : list Action)
    (fs : list Fallback) :
  Forall fallback_never_throws fs →
  ∀ i0 i st r, calm counter base st →
    invoke_pushed counter fs i0 i st = Some r →
    (∀ e, r.1 ≠ Throws e) ∧ calm counter base r.2.
Proof.
  induction 1 as [|f fs Hf Hfs IH]; intros i0 i st r Hst; simpl; [done |].
  destruct (i =? i0)%nat; [| by apply IH].
  intros [= <-]. apply (exec_calm (λ _, True)); [exact Hf | |].
  - apply (next_calm (λ _, True)); [intros [] | apply IH].
  - by apply calm_invoke.
Qed.

Lemma invoke_calm (counter : N) (base : list Action) (ms : list Middleware) :
  Forall middleware_never_throws ms →
  ∀ i0 i st r, calm counter base st →
    invoke counter ms i0 i st = Some r →
    (∀ e, r.1 ≠ Throws e) ∧ calm counter base r.2.
Proof.
  induction 1 as [|m ms Hm Hms IH]; intros i0 i st r Hst; simpl.
  - apply invoke_pushed_calm; [apply Hst | done].
  - destruct (i =? i0)%nat; [| by apply IH].
    intros [= <-].
    apply (exec_calm fallback_never_throws); [exact Hm | |].
    + apply (next_calm fallback_never_throws); [| apply IH].
      intros f s Hf (Hlive & Hp & Hb). split_and!; [done | | done].
      simpl. apply Forall_app. split; [done | by apply Forall_singleton].
    + by apply calm_invoke.
Qed.

(** X18: among middlewares that wait for the promise of every call of
    their continuation before they go on, nothing is logged unless
    something throws. In a dispatch whose matching middlewares, and the
    fallbacks they pass, are of this kind and never end in an exception,
    [logger('middleware').warn] is not called, whether the promise of the
    dispatch is fulfilled or rejects: a rejection that a middleware hands
    on is not logged either, nor is the TypeError of a continuation that
    was called without a frame of a caller. A middleware that lets the
    dispatch finish while a call of the continuation is still to come is
    not among these runs. *)
Theorem no_warning_without_a_throw (hooks : Hooks) (lastCall : jsstring)
    (st : State) :
  Forall middleware_never_throws (snapshot hooks st.(world).(session)) →
  ∃ body,
    (_applyMiddlewares hooks lastCall st).2.(trace) = st.(trace) ++ body ∧
    Forall no_warning body.
Proof.
  intros Hms. unfold _applyMiddlewares, prepare. cbv beta iota zeta.
  set (c := _middlewareCounter st).
  set (st1 := {| world := world st; _middlewareCounter := increment c;
                 _middlewareSet := {[c]} ∪ _middlewareSet st; index := 0;
                 stack := []; pushed := [];
                 trace := trace st ++ [SetAdd c] |}).
  assert (H1 : calm c (trace st) st1).
  { split_and!.
    - apply elem_of_union_l. by apply elem_of_singleton.
    - constructor.
    - exists [SetAdd c]. by repeat constructor. }
  assert (Hnext : calm c (trace st)
            (next c push (invoke c (snapshot hooks (session (world st1))) 0)
               (Some lastCall) None st1).2).
  { apply (next_calm fallback_never_throws); [| | done | done].
    - intros f s Hf (Hlive & Hp & Hb). split_and!; [done | | done].
      simpl. apply Forall_app. split; [done | by apply Forall_singleton].
    - by apply invoke_calm. }
  destruct (next c push _ (Some lastCall) None st1) as [[v | e] st2];
    simpl in *.
  - destruct Hnext as (_ & _ & body & Hb & Hw).
    destruct (cleanup_trace c st2) as (Htr & _ & _).
    exists (body ++ cleanup_actions c (cleanup c st2).(world).(session)).
    rewrite Htr, Hb, <- app_assoc. split; [done |].
    apply Forall_app. split; [done |].
    unfold cleanup_actions.
    destruct (s_user _), (s_group _); by repeat constructor.
  - destruct Hnext as (_ & _ & body & Hb & Hw). by exists body.
Qed.

Lemma no_warning_without_a_throw_witness :
  ∃ body,
    (_applyMiddlewares [(always, handing_on last_resort); (always, rejecting)]
       line254 state0).2.(trace) = state0.(trace) ++ body ∧
    Forall no_warning body.
Proof.
  apply (no_warning_without_a_throw
           [(always, handing_on last_resort); (always, rejecting)]
           line254 state0).
  assert (Hfb : fallback_never_throws last_resort).
  { apply nt_Do, nt_Done. intros e. discriminate. }
  apply Forall_cons. split.
  - apply nt_Next.
    + intros f [= <-]. exact Hfb.
    + intros r. apply nt_Done. intros e. discriminate.
  - apply Forall_cons. split; [| apply Forall_nil_2].
    apply nt_Done. intros e. discriminate.
Defined.

End Warnings.

(** ** The at-mention pattern before [prepare] has run *)
Section UndefinedPattern.
Import SelfIds Logins Samples.

Lemma configured_step (bs : list Bot) (s : Server) (ev : Event) :
  unresolved bs = [] →
  s.(inflight) = [] ∧ s.(SelfIds._atMeRE) = None ∧ s.(bots) = bs →
  (step s ev).(inflight) = [] ∧ (step s ev).(SelfIds._atMeRE) = None ∧
  (step s ev).(bots) = bs.
Proof.
  intros Hbs (Hin & Hre & Hbots).
  destruct ev as [caller | i userId | i e]; simpl.
  - unfold getSelfIds. rewrite Hbots. fold (unresolved bs). rewrite Hbs.
    destruct (_getSelfIdsPromise s) as [[p [| |e]]|] eqn:Hp; simpl;
      rewrite ?Hp; simpl; rewrite ?Hin; done.
  - unfold loginInfo. rewrite Hin.
    rewrite bool_decide_false; [done | by intros ?%elem_of_nil].
  - unfold loginError. rewrite Hin.
    rewrite bool_decide_false; [done | by intros ?%elem_of_nil].
Qed.

Lemma configured_run (bs : list Bot) (evs : list Event) :
  unresolved bs = [] →
  ∀ s, s.(inflight) = [] ∧ s.(SelfIds._atMeRE) = None ∧ s.(bots) = bs →
       (run evs s).(inflight) = [] ∧ (run evs s).(SelfIds._atMeRE) = None ∧
       (run evs s).(bots) = bs.
Proof.
  intros Hbs. induction evs as [|ev evs IH]; intros s Hs; [done |].
  rewrite run_cons. by apply IH, configured_step.
Qed.

(** X19: when the identity of every bot with a sender is configured,
    [getSelfIds] never calls [prepare], whatever the run: the at-mention
    pattern stays undefined. [match(undefined)] matches the empty text, so
    with this pattern every message that is not private is flagged [atMe],
    with nothing taken off: nickname, prefix and message are those of the
    same text in a private message. *)
Theorem undefined_pattern_flags_every_message (bs : list Bot)
    (evs : list Event) (_nameRE _prefixRE : RegExp) (type : MessageType)
    (s : jsstring) :
  unresolved bs = [] → type ≠ private →
  let app := run evs (fresh bs) in
  let p := strip app.(SelfIds._atMeRE) _nameRE _prefixRE type s in
  let q := strip app.(SelfIds._atMeRE) _nameRE _prefixRE private s in
  app.(SelfIds._atMeRE) = None ∧
  p.(atMe) = true ∧ q.(atMe) = false ∧
  p.(nickname) = q.(nickname) ∧ p.(prefix) = q.(prefix) ∧
  p.(message) = q.(message).
Proof.
  intros Hbs Htype app p q.
  destruct (configured_run bs evs Hbs (fresh bs)) as (_ & Hre & _); [done |].
  fold app in Hre. split; [exact Hre |].
  unfold p, q. rewrite Hre. unfold strip. simpl default.
  assert (Hat : (if type is private then None else match_ s Empty) = Some [[]]).
  { destruct type; [done | |]; apply match_Empty. }
  rewrite Hat. cbn [whole head default from_option]. unfold Datatypes.id.
  change (slice_from (length (@nil char)) s) with s.
  destruct (match_ s _nameRE) as [c2|].
  - destruct (length (whole c2) =? 0)%nat;
      destruct (match_ _ _prefixRE); done.
  - destruct (match_ s _prefixRE); done.
Qed.

Lemma undefined_pattern_flags_every_message_witness :
  let app := run [CallGetSelfIds 7] (fresh [bot_111]) in
  let p := strip app.(SelfIds._atMeRE) (nameRE options_dot)
             (prefixRE options_dot) group (str "hello") in
  app.(SelfIds._atMeRE) = None ∧ p.(atMe) = true ∧ p.(message) = str "hello".
Proof.
  destruct (undefined_pattern_flags_every_message [bot_111] [CallGetSelfIds 7]
              (nameRE options_dot) (prefixRE options_dot) group (str "hello"))
    as (H1 & H2 & _).
  - reflexivity.
  - discriminate.
  - split; [exact H1 |]. split; [exact H2 |]. reflexivity.
Defined.

End UndefinedPattern.

(** ** The middleware stack of a warning *)
Section CallSites.
Import Dispatcher Samples.

(** A greedy [.+] or [.*] before a continuation that refuses the end of the
    text and accepts its last character: the star gives that character
    back. *)
Lemma star_gives_back (p : char → bool) (site : jsstring) (c : char) :
  ∀ pos caps (k : Cont) r,
    Forall (λ x, p x = true) site → p c = true →
    k (pos + length site + 1) [] caps = None →
    k (pos + length site) [c] caps = Some r →
    star p pos (site ++ [c]) caps k = Some r.
Proof.
  induction site as [|x site IH]; intros pos caps k r Hsite Hc Hend Hlast.
  - simpl in *. rewrite Hc. rewrite Nat.add_0_r in *.
    replace (S pos) with (pos + 1) by lia. by rewrite Hend.
  - inversion Hsite as [|? ? Hx Hsite']; subst. cbn [app star]. rewrite Hx.
    rewrite (IH (S pos) caps k r); [done | done | done | |].
    + simpl in Hend. by replace (S pos + length site + 1)
        with (pos + S (length site) + 1) by lia.
    + simpl in Hlast. by replace (S pos + length site)
        with (pos + S (length site)) by lia.
Qed.

Lemma search_skips (r : RegExp) (pre rest : jsstring) :
  (∀ j tail, matchK r j tail [] (λ e _ caps, Some (e, caps)) = None ∨
             ∃ t, tail = 0x28%N :: t) →
  Forall (λ c, c ≠ 0x28%N) pre →
  ∀ pos, search r pos (pre ++ rest) = search r (pos + length pre) rest.
Proof.
  intros Hr Hpre. induction Hpre as [|x pre Hx _ IH]; intros pos.
  - by rewrite Nat.add_0_r.
  - cbn [app search].
    destruct (Hr pos (x :: pre ++ rest)) as [Hm | [t Ht]];
      [| by injection Ht as ->].
    match goal with
    | |- match ?m with _ => _ end = _ =>
        replace m with (@None (nat * list jsstring)) by (symmetry; exact Hm)
    end.
    rewrite IH. f_equal. simpl. lia.
Qed.

Lemma parenRE_needs_a_bracket (j : nat) (tail : jsstring) :
  matchK parenRE j tail [] (λ e _ caps, Some (e, caps)) = None ∨
  ∃ t, tail = 0x28%N :: t.
Proof.
  destruct tail as [|x t]; [by left |].
  destruct (decide (x = 0x28%N)) as [-> | Hne]; [right; eauto | left].
  unfold parenRE. cbn [matchK].
  change (startsWith (str "(") (x :: t)) with ((0x28 =? x)%N && true).
  destruct (0x28 =? x)%N eqn:E; [| done].
  apply N.eqb_eq in E. by subst.
Qed.

(** What [/\((.+)\)/] finds in a frame that ends with a call site in
    brackets. *)
Lemma parenRE_site (fn site : jsstring) :
  Forall (λ c, c ≠ 0x28%N) fn → site ≠ [] →
  Forall (λ c, isLineTerminator c = false) site →
  match_ (fn ++ str "(" ++ site ++ str ")") parenRE =
    Some [str "(" ++ site ++ str ")"; site].
Proof.
  intros Hfn Hne Hsite. unfold match_.
  rewrite (search_skips parenRE fn _ parenRE_needs_a_bracket Hfn). simpl "+".
  destruct site as [|x site]; [done |].
  inversion Hsite as [|? ? Hx Hsite']; subst.
  assert (Hm : matchK parenRE (length fn)
                 (str "(" ++ (x :: site) ++ str ")") []
                 (λ e _ caps, Some (e, caps)) =
               Some (length fn + 1 + S (length site) + 1, [x :: site])).
  { unfold parenRE. cbn [matchK].
    change (startsWith (str "(") (str "(" ++ (x :: site) ++ str ")")) with true.
    cbv iota.
    change (drop (length (str "(")) (str "(" ++ (x :: site) ++ str ")"))
      with (x :: (site ++ str ")")).
    cbv beta iota. rewrite Hx. cbn [negb].
    erewrite (star_gives_back _ site 0x29%N); [reflexivity | | done | done |].
    - eapply Forall_impl; [exact Hsite' |]. intros c Hc. simpl. by rewrite Hc.
    - cbn beta. change (startsWith (str ")") [0x29%N]) with true. cbv iota.
      do 2 f_equal.
      + simpl. lia.
      + cbn [app]. f_equal.
        replace (S (length fn + length (str "(")) + length site -
                 (length fn + length (str "(")))
          with (S (length site)) by lia.
        change (x :: site ++ str ")") with ((x :: site) ++ str ")").
        change (S (length site)) with (length (x :: site)).
        by rewrite take_app_length. }
  assert (Hs : search parenRE (length fn) (str "(" ++ (x :: site) ++ str ")") =
               Some (length fn, length fn + 1 + S (length site) + 1, [x :: site])).
  { change (str "(" ++ (x :: site) ++ str ")")
      with (0x28%N :: (x :: site) ++ str ")") in *.
    cbn [search]. by rewrite Hm. }
  rewrite Hs. do 2 f_equal.
  rewrite drop_app_length.
  replace (length fn + 1 + S (length site) + 1 - length fn)
    with (length (str "(" ++ (x :: site) ++ str ")")).
  - by rewrite firstn_all.
  - rewrite !length_app. simpl. lia.
Qed.

Lemma parenRE_no_bracket (frame : jsstring) :
  Forall (λ c, c ≠ 0x28%N) frame → match_ frame parenRE = None.
Proof.
  intros Hf. unfold match_.
  rewrite <- (app_nil_r frame).
  rewrite (search_skips parenRE frame [] parenRE_needs_a_bracket Hf).
  reflexivity.
Qed.

End CallSites.

Section StackLines.
Import Dispatcher Trail Samples.

(** X20: the middleware stack of a warning lists the call sites of the
    continuation, the latest first. The first call of a dispatch, when the
    cursor is 0, adds nothing; every later call puts a line in front, with
    the text between the brackets of the caller's frame, or with the frame
    less its first seven characters when the frame has no brackets. *)
Theorem stack_lists_the_call_sites (fn site : jsstring) (st : State) :
  Forall (λ c, c ≠ 0x28%N) fn → site ≠ [] →
  Forall (λ c, isLineTerminator c = false) site →
  (trail (named_frame fn site) st).(stack) =
    (if (st.(index) =? 0)%nat then st.(stack) else entry site ++ st.(stack)) ∧
  (Forall (λ c, c ≠ 0x28%N) site →
   (trail (plain_frame site) st).(stack) =
     (if (st.(index) =? 0)%nat then st.(stack) else entry site ++ st.(stack))).
Proof.
  intros Hfn Hne Hsite. unfold trail. split.
  - destruct (index st =? 0)%nat; [done |].
    unfold named_frame. rewrite parenRE_site by done. reflexivity.
  - intros Hplain. destruct (index st =? 0)%nat; [done |].
    rewrite parenRE_no_bracket.
    + reflexivity.
    + unfold plain_frame. apply Forall_app. split; [| done].
      repeat constructor; discriminate.
Qed.

Lemma stack_lists_the_call_sites_witness :
  (trail (str "    at pass (plugin.js:3:10)") Order.state_past_end).(stack) =
    entry (str "plugin.js:3:10") ++ Order.state_past_end.(stack).
Proof.
  destruct (stack_lists_the_call_sites (str "    at pass ")
              (str "plugin.js:3:10") Order.state_past_end) as [H _].
  - repeat constructor; discriminate.
  - discriminate.
  - repeat constructor.
  - exact H.
Defined.

End StackLines.

Section IgnoredUser.
Import Dispatcher Preprocess Entry Samples.

Lemma preprocess_user_abort (this : App) (C : Collaborators)
    (lastCall : jsstring) (next : NextFunction Fallback) (st : State) :
  let s := st.(world).(session) in
  this.(database) = true →
  s.(messageType) ≠ group →
  C.(attach_user) (set_user (user_row this C s) (parsed_session this C s)) = true ∨
  bitand (user_row this C s).(u_flag) C.(User_Flag_ignore) ≠ 0%Z →
  exec (_preprocess this C lastCall) next st =
    (ReturnsPromise (Fulfilled Undefined),
     set_world (λ w,
       {| session := set_user (user_row this C s) (parsed_session this C s);
          calls := w.(calls) ++ [Emit "before-attach-user";
                                 ObserveUser (user_fields this C s);
                                 Serialize "attach-user"] |}) st).
Proof.
  intros s Hdb Htype Hgate.
  unfold _preprocess. cbn [exec]. rewrite Hdb.
  assert (Hbranch : ∀ a b : Middleware,
            (if messageType s is group then a else b) = b).
  { intros a b. by destruct (messageType s). }
  unfold s in Hbranch. rewrite Hbranch.
  unfold attach_user_row. cbn -[bitand].
  unfold user_row, user_fields, parsed_session in *. cbn -[bitand] in Hgate.
  fold s. fold s in Hgate.
  match goal with
  | |- exec (if ?a then _ else if ?b then _ else _) _ _ = _ =>
      assert (Hq : a = true ∨ b = true)
  end.
  { destruct Hgate as [H | H]; [by left | right].
    apply negb_true_iff, Z.eqb_neq, H. }
  assert (Hend : ∀ st', exec quiet next st' = (ReturnsPromise (Fulfilled Undefined), st'))
    by done.
  repeat match goal with
         | |- context [if ?a then quiet else _] => destruct a eqn:?
         end;
    try (destruct Hq as [? | ?]; discriminate);
    rewrite Hend; f_equal; unfold set_world, observeUser, set_session, call;
    cbn; rewrite <- !app_assoc; reflexivity.
Qed.

(** X21: with a database, a message that does not come from a group and
    whose sender has the ignore bit set ends the dispatch at
    [_preprocess]: the user row is loaded, no listener of 'attach' is
    called, no command is executed and no later middleware is invoked; the
    dispatch is cleaned up and the user row, the only one attached, is
    flushed. *)
Theorem ignored_user_ends_the_dispatch (this : App) (C : Collaborators)
    (ctx : Context) (rest : Hooks) (lastCall lastCall0 : jsstring)
    (st : State) (k : Z) :
  let s := st.(world).(session) in
  let c := st.(_middlewareCounter) in
  this.(database) = true →
  s.(messageType) ≠ group →
  s.(s_group) = None →
  ctx s = true →
  C.(User_Flag_ignore) = (2 ^ k)%Z → (0 ≤ k < 32)%Z →
  Z.testbit (user_row this C s).(u_flag) k = true →
  ∃ st',
    _applyMiddlewares ((ctx, _preprocess this C lastCall) :: rest) lastCall0 st =
      (Fulfilled Undefined, st') ∧
    st'.(trace) =
      st.(trace) ++ [SetAdd c; Invoke 0; SetDelete c; EmitAfterMiddleware;
                     FlushUser] ∧
    st'.(world).(calls) =
      st.(world).(calls) ++
        [Emit "before-attach-user"; ObserveUser (user_fields this C s);
         Serialize "attach-user"; Emit "after-middleware"; UpdateUser] ∧
    st'.(world).(session).(s_user) = Some (user_row this C s) ∧
    st'.(index) = 1.
Proof.
  intros s c Hdb Htype Hgroup Hctx Hmask Hk Hbit.
  unfold _applyMiddlewares, prepare. cbv beta iota zeta.
  rewrite snapshot_cons_true by exact Hctx.
  rewrite next_first;
    [| done | simpl; apply elem_of_union_l; by apply elem_of_singleton].
  rewrite preprocess_user_abort; [| exact Hdb | exact Htype |].
  2:{ right. simpl. fold s. rewrite Hmask. by apply bitand_bit. }
  eexists. split; [reflexivity |].
  unfold cleanup. simpl. fold s. rewrite Hgroup. simpl.
  rewrite <- !app_assoc. done.
Qed.

Lemma ignored_user_ends_the_dispatch_witness :
  ∃ st',
    _applyMiddlewares
      [(always, _preprocess app_with_database ignoring line219); (always, pass)]
      line254 state0 = (Fulfilled Undefined, st') ∧
    st'.(trace) =
      [] ++ [SetAdd 0%N; Invoke 0; SetDelete 0%N; EmitAfterMiddleware;
             FlushUser] ∧
    st'.(world).(calls) =
      [] ++ [Emit "before-attach-user";
             ObserveUser (user_fields app_with_database ignoring session0);
             Serialize "attach-user"; Emit "after-middleware"; UpdateUser] ∧
    st'.(world).(session).(s_user) =
      Some (user_row app_with_database ignoring session0) ∧
    st'.(index) = 1.
Proof.
  apply (ignored_user_ends_the_dispatch app_with_database ignoring always
           [(always, pass)] line219 line254 state0 0);
    [reflexivity | discriminate | reflexivity | reflexivity | reflexivity
    | lia | reflexivity].
Defined.

End IgnoredUser.

(** ** Fallbacks *)
Section FallbackRuns.
Import Dispatcher Order Fallbacks Samples.

Lemma at_cursor_world (counter : N) (fs : list Fallback) (i : nat)
    (l : list nat) (f : World → World) (st : State) :
  at_cursor counter fs i l st → at_cursor counter fs i l (set_world f st).
Proof. done. Qed.

Lemma invoked_direct {F : Type} (p : Prog F) (next : NextFunction F)
    (st : State) :
  direct p → invoked (exec p next st).2.(trace) = invoked st.(trace).
Proof. intros Hp. by destruct (exec_direct p next Hp st) as [w ->]. Qed.

(** A middleware that calls its continuation once: what the call leaves of
    the invocations is what the middleware leaves. *)
Lemma exec_once {F : Type} (fallback : option F) (P : State → Prop)
    (l : list nat) (p : Prog F) (next : NextFunction F) :
  (∀ f st, P st → P (set_world f st)) →
  (∀ lastCall st, P st →
     invoked (next (Some lastCall) fallback st).2.(trace) = l) →
  (passing p ∧ fallback = None ∨ ∃ fb, offering fb p ∧ fallback = Some fb) →
  ∀ st, P st → invoked (exec p next st).2.(trace) = l.
Proof.
  intros HP Hnext [[Hp ->] | (fb & Hp & ->)].
  - induction Hp as [lc k Hk | f k Hk IH | k Hk IH]; intros st Hst; simpl.
    + specialize (Hnext lc st Hst).
      destruct (next (Some lc) None st) as [r st1].
      by rewrite invoked_direct.
    + by apply IH, HP.
    + by apply IH.
  - induction Hp as [lc k Hk | f k Hk IH | k Hk IH]; intros st Hst; simpl.
    + specialize (Hnext lc st Hst).
      destruct (next (Some lc) (Some fb) st) as [r st1].
      by rewrite invoked_direct.
    + by apply IH, HP.
    + by apply IH.
Qed.

Lemma invoked_catch_block (lastCall : option jsstring) (e : Value)
    (st : State) :
  invoked (catch_block lastCall e st).(trace) = invoked st.(trace).
Proof. unfold catch_block. simpl. by rewrite invoked_app, app_nil_r. Qed.

(** A call of [next] at cursor [i]: when the element at [i] is invoked and
    leaves the invocations [l], so does the call. *)
Lemma next_at {F : Type} (counter : N) (push : F → State → State)
    (invoke : nat → State → option (Completion * State))
    (fallback : option F) (fs fs' : list Fallback) (i : nat)
    (l0 l : list nat) (lastCall : jsstring) (st : State) :
  at_cursor counter fs i l0 st →
  (∀ st, at_cursor counter fs i l0 st →
     at_cursor counter fs' i l0
       (match fallback with Some f => push f st | None => st end)) →
  (∀ st, at_cursor counter fs' (S i) l0 st →
     ∃ r, invoke i st = Some r ∧ invoked r.2.(trace) = l) →
  invoked (next counter push invoke (Some lastCall) fallback st).2.(trace) = l.
Proof.
  intros Hst Hpush Hinv. unfold next.
  assert (Htrail : at_cursor counter fs i l0 (trail lastCall st)).
  { destruct (trail_live lastCall st) as (Hs & _ & Hi & Hp & Ht & _).
    unfold at_cursor. by rewrite Hs, Hi, Hp, Ht. }
  revert Htrail. generalize (trail lastCall st). clear st Hst. intros st Hst.
  unfold guarded, try_block.
  rewrite bool_decide_false by (intros H; apply H, Hst).
  specialize (Hpush st Hst).
  set (st1 := match fallback with Some f => push f st | None => st end) in *.
  destruct Hpush as (Hlive & Hp & Hi & Ht).
  destruct (Hinv (set_index (S i) st1)) as ([c st2] & Hc & Hr); [done |].
  cbv zeta. rewrite Hi, Hc.
  simpl in Hr. destruct c as [v | p | e]; cbn [fst snd]; [done | done |].
  by rewrite invoked_catch_block.
Qed.

Lemma invoke_passing (counter : N) (fb : Fallback) (ps : list Middleware) :
  direct fb → Forall passing ps →
  ∀ i0 l st, at_cursor counter [fb] (S i0) l st →
    ∃ r, invoke counter ps i0 i0 st = Some r ∧
         invoked r.2.(trace) = l ++ seq i0 (length ps + 1).
Proof.
  intros Hfb. induction 1 as [|p ps Hp Hps IH]; intros i0 l st Hst.
  - destruct Hst as (Hlive & Hpushed & Hi & Ht).
    simpl. rewrite Hpushed. simpl. rewrite Nat.eqb_refl.
    eexists. split; [reflexivity |].
    rewrite invoked_direct by done. simpl. by rewrite invoked_app, Ht.
  - simpl. rewrite Nat.eqb_refl. eexists. split; [reflexivity |]. simpl.
    apply (exec_once None (at_cursor counter [fb] (S i0) (l ++ [i0])));
      [done | | by left |].
    + intros lc s Hs.
      apply (next_at counter push _ None [fb] [fb] (S i0) (l ++ [i0]));
        [done | done |].
      intros s' Hs'. destruct (IH (S i0) (l ++ [i0]) s' Hs') as (r & Hr & Hl).
      exists r. split; [done |]. by rewrite Hl, <- app_assoc.
    + destruct Hst as (Hlive & Hpushed & Hi & Ht).
      split_and!; try done. simpl. by rewrite invoked_app, Ht.
Qed.

(** X22: a fallback runs when the chain behind the middleware that passed
    it has passed on to its end. The middlewares call their continuation
    from a frame of their own and wait for its promise before they go on.
    When the first one calls its continuation once, with a fallback that
    does not call its own, and every middleware behind it calls its
    continuation once, the dispatch invokes all of them in turn and then,
    at the position after the last one, the fallback. *)
Theorem fallback_runs_after_the_chain (hooks : Hooks) (lastCall : jsstring)
    (st : State) (m : Middleware) (ps : list Middleware) (fb : Fallback) :
  snapshot hooks st.(world).(session) = m :: ps →
  offering fb m → direct fb → Forall passing ps →
  invoked (_applyMiddlewares hooks lastCall st).2.(trace) =
    invoked st.(trace) ++ seq 0 (length ps + 2).
Proof.
  intros Hsnap Hm Hfb Hps. unfold _applyMiddlewares, prepare.
  cbv beta iota zeta. cbn [world]. rewrite Hsnap.
  set (c := _middlewareCounter st).
  set (st1 := {| world := world st; _middlewareCounter := increment c;
                 _middlewareSet := {[c]} ∪ _middlewareSet st; index := 0;
                 stack := []; pushed := [];
                 trace := trace st ++ [SetAdd c] |}).
  rewrite next_first;
    [| done | simpl; apply elem_of_union_l; by apply elem_of_singleton].
  assert (Hexec : invoked
            (exec m (next c push (invoke c ps 1))
               (act (Invoke 0) (set_index 1 st1))).2.(trace) =
          invoked st.(trace) ++ seq 0 (length ps + 2)).
  { apply (exec_once (Some fb)
             (at_cursor c [] 1 (invoked st.(trace) ++ [0])));
      [done | | right; by exists fb |].
    - intros lc s Hs.
      apply (next_at c push _ (Some fb) [] [fb] 1 (invoked (trace st) ++ [0]));
        [done | |].
      + intros s' (Hlive & Hp & Hi & Ht). split_and!; try done.
        simpl. by rewrite Hp.
      + intros s' Hs'.
        destruct (invoke_passing c fb ps Hfb Hps 1 _ s' Hs') as (r & Hr & Hl).
        exists r. split; [done |]. rewrite Hl, <- app_assoc.
        f_equal. replace (length ps + 2) with (S (length ps + 1)) by lia.
        done.
    - split_and!; try done.
      + simpl. apply elem_of_union_l. by apply elem_of_singleton.
      + simpl. rewrite !invoked_app. simpl. by rewrite app_nil_r. }
  destruct (exec m _ _) as [[v | [v | e] | e] st2]; simpl in *.
  - destruct (cleanup_trace c st2) as (-> & _ & _).
    by rewrite invoked_app, invoked_cleanup_actions, app_nil_r.
  - destruct (cleanup_trace c st2) as (-> & _ & _).
    by rewrite invoked_app, invoked_cleanup_actions, app_nil_r.
  - done.
  - destruct (cleanup_trace c (catch_block (Some lastCall) e st2))
      as (-> & _ & _).
    rewrite invoked_app, invoked_cleanup_actions, app_nil_r.
    by rewrite invoked_catch_block.
Qed.

Lemma fallback_runs_after_the_chain_witness :
  invoked (_applyMiddlewares
             [(always, Quiet.handing_on last_resort); (always, pass);
              (always, pass)] line254 state0).2.(trace) =
    invoked state0.(trace) ++ seq 0 (length [pass; pass] + 2).
Proof.
  apply (fallback_runs_after_the_chain
           [(always, Quiet.handing_on last_resort); (always, pass);
            (always, pass)] line254 state0
           (Quiet.handing_on last_resort) [pass; pass] last_resort).
  - reflexivity.
  - apply offering_Next. intros r. constructor.
  - repeat constructor.
  - repeat constructor.
Defined.

End FallbackRuns.
